(** * dep-tree: import scanners, specifier classifiers, path resolver,
    breadth-first graph builder, entry discovery and tree formatter,
    embedded from the JavaScript sources (src/parsers/javascript.js,
    src/parsers/python.js, src/graph.js, src/formatters.js). *)

From Stdlib Require Import NArith ZArith Ascii String List Bool Lia Sorted.
From Stdlib Require Import DecimalString.
From stdpp Require Import base option list gmap sets.

Open Scope N_scope.
Open Scope nat_scope.

(** ** JavaScript strings

    A JavaScript string is a finite sequence of UTF-16 code units; a code
    unit is modelled as a number of type [N].  [str] turns a Rocq string
    literal into such a sequence, [ch] a character literal into its code. *)

Abbreviation jsstring := (list N).

Definition ch (a : ascii) : N := N_of_ascii a.

Definition str (s : string) : jsstring := map N_of_ascii (list_ascii_of_string s).

(** The code unit of the double quote, U+0022 (written [\x22] in the
    patterns quoted below). *)
Definition dquote : N := 34.

(** [s.startsWith(p)] *)
Fixpoint startsWith (p s : jsstring) : bool :=
  match p, s with
  | [], _ => true
  | a :: p', b :: s' => N.eqb a b && startsWith p' s'
  | _ :: _, [] => false
  end.

(** [s.split(sep)] for a one-character separator: never empty, the
    pieces are the maximal runs without [sep]. *)
Fixpoint split_on (sep : N) (s : jsstring) : list jsstring :=
  match s with
  | [] => [[]]
  | c :: t =>
      if N.eqb c sep then [] :: split_on sep t
      else match split_on sep t with
           | [] => [[c]]
           | w :: ws => (c :: w) :: ws
           end
  end.

(** [s.split(sep)[0]] *)
Definition first_piece (sep : N) (s : jsstring) : jsstring :=
  match split_on sep s with
  | w :: _ => w
  | [] => []
  end.

(** ECMAScript WhiteSpace and LineTerminator code units: the class [\s] of
    regular expressions and the characters removed by [trim()]. *)
Definition is_line_terminator (c : N) : bool :=
  N.eqb c 10 || N.eqb c 13 || N.eqb c 8232 || N.eqb c 8233.

Definition is_space (c : N) : bool :=
  N.eqb c 9 || N.eqb c 10 || N.eqb c 11 || N.eqb c 12 || N.eqb c 13 ||
  N.eqb c 32 || N.eqb c 160 || N.eqb c 5760 ||
  (N.leb 8192 c && N.leb c 8202) ||
  N.eqb c 8232 || N.eqb c 8233 || N.eqb c 8239 || N.eqb c 8287 ||
  N.eqb c 12288 || N.eqb c 65279.

(** The class [\w]: ASCII letters, digits and the underscore. *)
Definition is_word (c : N) : bool :=
  (N.leb 97 c && N.leb c 122) || (N.leb 65 c && N.leb c 90) ||
  (N.leb 48 c && N.leb c 57) || N.eqb c 95.

Fixpoint trim_start (s : jsstring) : jsstring :=
  match s with
  | c :: t => if is_space c then trim_start t else s
  | [] => []
  end.

(** [s.trim()] *)
Definition trim (s : jsstring) : jsstring :=
  rev (trim_start (rev (trim_start s))).

(** [deps.add(x)] on a [Set] kept in insertion order. *)
Definition set_add (x : jsstring) (s : list jsstring) : list jsstring :=
  if bool_decide (x ∈ s) then s else s ++ [x].

(** ** Regular expressions

    The scanners are written with regular-expression literals.  The
    constructs they use are embedded as a syntax tree, matched by a
    backtracking matcher written, as in ECMA-262, in continuation-passing
    style.  Every pattern of the sources has exactly one capture group. *)

Inductive regex : Type :=
| Eps                                   (* empty pattern *)
| Cls (f : N → bool)                    (* one character of a class *)
| Seq (a b : regex)                     (* ab *)
| Alt (a b : regex)                     (* a|b *)
| Rep (min : nat) (max : option nat) (greedy : bool) (a : regex)
                                        (* a{min,max}, lazy when not greedy *)
| Cap (a : regex)                       (* ( a ), capture group 1 *)
| Bol                                   (* ^ *)
| Eol                                   (* $ *)
| WordB.                                (* \b *)

Definition Star (a : regex) := Rep 0 None true a.
Definition LazyStar (a : regex) := Rep 0 None false a.
Definition Plus (a : regex) := Rep 1 None true a.
Definition Opt (a : regex) := Rep 0 (Some 1) true a.

Definition Chr (a : ascii) : regex := Cls (N.eqb (ch a)).

Fixpoint seqs (l : list regex) : regex :=
  match l with
  | [] => Eps
  | [r] => r
  | r :: l' => Seq r (seqs l')
  end.

Definition Lit (s : string) : regex := seqs (map (λ c, Cls (N.eqb c)) (str s)).

(** A position in the subject string: the index, the code unit before it
    (if any) and the code units from it on. *)
Record pos : Type := Pos { p_idx : nat; p_prev : option N; p_rest : list N }.

Definition start_pos (s : jsstring) : pos := Pos 0 None s.

Definition at_bol (multiline : bool) (x : pos) : bool :=
  match p_prev x with
  | None => true
  | Some c => multiline && is_line_terminator c
  end.

Definition at_eol (multiline : bool) (x : pos) : bool :=
  match p_rest x with
  | [] => true
  | c :: _ => multiline && is_line_terminator c
  end.

Definition word_before (x : pos) : bool :=
  match p_prev x with Some c => is_word c | None => false end.

Definition word_after (x : pos) : bool :=
  match p_rest x with c :: _ => is_word c | [] => false end.

Definition or_else {A} (a : option A) (b : option A) : option A :=
  match a with Some v => Some v | None => b end.

(** RepeatMatcher of ECMA-262 (22.2.2.3.1) for an atom matched by [m]:
    once [min] is 0 an iteration that consumes nothing is rejected, so the
    iterations left are bounded by [min] plus the number of code units
    left; that number is the fuel the loop starts with, and when it reaches
    0 no further iteration can succeed.  [greedy] tries one more iteration
    before the continuation [k], a lazy quantifier tries [k] first. *)
Fixpoint rep_loop {A} (m : pos → option jsstring →
                           (pos → option jsstring → option A) → option A)
    (k : pos → option jsstring → option A) (greedy : bool)
    (fuel min : nat) (max : option nat) (x : pos) (cap : option jsstring)
    {struct fuel} : option A :=
  match max with
  | Some 0 => k x cap
  | _ =>
      match fuel with
      | 0 => k x cap
      | S fuel' =>
          let d := λ y cap',
            if Nat.eqb min 0 && Nat.eqb (p_idx y) (p_idx x) then None
            else rep_loop m k greedy fuel' (Nat.pred min) (Nat.pred <$> max)
                          y cap' in
          if negb (Nat.eqb min 0) then m x cap d
          else if greedy then or_else (m x cap d) (k x cap)
          else or_else (k x cap) (m x cap d)
      end
  end.

(** The matcher of ECMA-262 (22.2.2), in continuation-passing style:
    [rmatch ml r x cap k] matches [r] at [x] and calls the continuation [k]
    on the position reached and the capture; [None] is failure, on which
    the caller backtracks.  [ml] is the flag [m].  No pattern of the
    sources has its group inside a quantifier, and the reset of the
    captures at each iteration is left out. *)
Fixpoint rmatch {A} (ml : bool) (r : regex) (x : pos) (cap : option jsstring)
    (k : pos → option jsstring → option A) {struct r} : option A :=
  match r with
  | Eps => k x cap
  | Cls f =>
      match p_rest x with
      | c :: t => if f c then k (Pos (S (p_idx x)) (Some c) t) cap else None
      | [] => None
      end
  | Seq a b => rmatch ml a x cap (λ y cap', rmatch ml b y cap' k)
  | Alt a b => or_else (rmatch ml a x cap k) (rmatch ml b x cap k)
  | Rep min max greedy a =>
      rep_loop (λ y cap' k', rmatch ml a y cap' k') k greedy
               (min + length (p_rest x)) min max x cap
  | Cap a =>
      rmatch ml a x cap
        (λ y _, k y (Some (take (p_idx y - p_idx x) (p_rest x))))
  | Bol => if at_bol ml x then k x cap else None
  | Eol => if at_eol ml x then k x cap else None
  | WordB => if xorb (word_before x) (word_after x) then k x cap else None
  end.

(** A match: the position after it and capture group 1. *)
Definition match_at (ml : bool) (r : regex) (x : pos)
  : option (pos * option jsstring) :=
  rmatch ml r x None (λ y cap, Some (y, cap)).

(** [re.exec(s)] with the [g] flag: the first match at or after the
    position [lastIndex], here [x]. *)
Fixpoint exec_from (ml : bool) (r : regex) (idx : nat) (prev : option N)
    (rest : list N) : option (pos * option jsstring) :=
  match match_at ml r (Pos idx prev rest) with
  | Some res => Some res
  | None =>
      match rest with
      | [] => None
      | c :: t => exec_from ml r (S idx) (Some c) t
      end
  end.

Definition exec (ml : bool) (r : regex) (x : pos) :=
  exec_from ml r (p_idx x) (p_prev x) (p_rest x).

(** [while ((match = re.exec(s)) !== null) { body(match[1]) }]

    [body] is the loop body, a function of capture group 1 and of the set
    [deps] it updates.  [fuel] bounds the number of matches; [None] stands
    for a loop that does not end normally: a match that leaves [lastIndex]
    where it was, a capture that is [undefined], or a body that throws. *)
Fixpoint collect (fuel : nat) (ml : bool) (r : regex)
    (body : jsstring → list jsstring → option (list jsstring))
    (x : pos) (deps : list jsstring) : option (list jsstring) :=
  match exec ml r x with
  | None => Some deps
  | Some (y, cap) =>
      match fuel, cap with
      | S fuel', Some c => deps' ← body c deps; collect fuel' ml r body y deps'
      | _, _ => None
      end
  end.

(** [re.test(s)] for a pattern without the [g] flag. *)
Definition test (r : regex) (s : jsstring) : bool :=
  bool_decide (is_Some (exec false r (start_pos s))).

(** [s.split(re)[0]] (ECMA-262, RegExp.prototype[Symbol.split]): the text
    before the first index [q < s.length] at which [re] matches with an end
    other than 0; all of [s] when there is none.  On the empty string the
    result of [split] is the empty array when [re] matches it, and then
    [[0]] is [undefined], here [None]. *)
Fixpoint find_sep (r : regex) (idx : nat) (prev : option N) (rest : list N)
  : option nat :=
  match rest with
  | [] => None
  | c :: t =>
      match match_at false r (Pos idx prev rest) with
      | Some (y, _) =>
          if Nat.eqb (p_idx y) 0 then find_sep r (S idx) (Some c) t
          else Some idx
      | None => find_sep r (S idx) (Some c) t
      end
  end.

Definition split_head (r : regex) (s : jsstring) : option jsstring :=
  match s with
  | [] => match match_at false r (start_pos []) with
          | Some _ => None
          | None => Some []
          end
  | _ => Some (match find_sep r 0 None s with
               | Some q => take q s
               | None => s
               end)
  end.

(** The three classes of a specifier: the strings ['local'], ['builtin']
    and ['external'] returned by [classify]. *)
Inductive dep_type : Type := local | builtin | external.

#[global] Instance dep_type_eq_dec : EqDecision dep_type.
Proof. solve_decision. Defined.

(** ** The JavaScript / TypeScript scanner (src/parsers/javascript.js) *)

Module JavaScript.

(** The cursor [i] of [stripComments] is represented by the text from [i]
    on, [source.slice(i)]; [source[i]] is its head and [i < source.length]
    says that it is not empty. *)

(** [while (i < source.length && source[i] !== '\n') i++;] *)
Fixpoint skip_line (s : jsstring) : jsstring :=
  match s with
  | [] => []
  | c :: t => if N.eqb c (ch "010") then s else skip_line t
  end.

(** [while (i < source.length && !(source[i] === '*' && source[i + 1] === '/')) i++;] *)
Fixpoint skip_block (s : jsstring) : jsstring :=
  match s with
  | [] => []
  | c :: t =>
      match t with
      | d :: _ => if N.eqb c (ch "*") && N.eqb d (ch "/") then s else skip_block t
      | [] => skip_block t
      end
  end.

(** The body of a template or string literal, up to its closing [quote]:
<<
      while (i < source.length && source[i] !== quote) {
        if (source[i] === '\\') result += source[i++];
        if (i < source.length) result += source[i++];
      }
>>
    The result is what was appended to [result] and the text left. *)
Fixpoint copy_literal (quote : N) (s : jsstring) : jsstring * jsstring :=
  match s with
  | [] => ([], [])
  | c :: t =>
      if N.eqb c quote then ([], s)
      else if N.eqb c (ch "\") then
        match t with
        | [] => ([c], [])
        | d :: t' => let (o, r) := copy_literal quote t' in (c :: d :: o, r)
        end
      else let (o, r) := copy_literal quote t in (c :: o, r)
  end.

(** [if (i < source.length) result += source[i++];] after such a body. *)
Definition copy_one (s : jsstring) : jsstring * jsstring :=
  match s with
  | [] => ([], [])
  | c :: t => ([c], t)
  end.

(** One iteration of the outer [while (i < source.length)] of
    [stripComments], on a text that is not empty: what is appended to
    [result] and the text left. *)
Definition strip_step (c : N) (t : jsstring) : jsstring * jsstring :=
  let s := c :: t in
  let next := head t in
  if N.eqb c (ch "/") && bool_decide (next = Some (ch "/")) then
    ([], skip_line s)
  else if N.eqb c (ch "/") && bool_decide (next = Some (ch "*")) then
    ([], drop 2 (skip_block (drop 2 s)))
  else if N.eqb c (ch "`") || N.eqb c dquote || N.eqb c (ch "'") then
    let (o, r) := copy_literal c t in
    let (o', r') := copy_one r in
    (c :: o ++ o', r')
  else ([c], t).

(** The outer loop; [fuel] bounds its iterations, [None] is fuel
    exhausted. *)
Fixpoint strip_loop (fuel : nat) (s result : jsstring) : option jsstring :=
  match s with
  | [] => Some result
  | c :: t =>
      match fuel with
      | 0 => None
      | S fuel' =>
          let (o, r) := strip_step c t in strip_loop fuel' r (result ++ o)
      end
  end.

Definition stripComments (source : jsstring) : option jsstring :=
  strip_loop (length source) source [].

Definition quote_cls : regex := Cls (λ c, N.eqb c (ch "'") || N.eqb c dquote).
Definition not_quote_cls : regex :=
  Cls (λ c, negb (N.eqb c (ch "'") || N.eqb c dquote)).
Definition space_cls : regex := Cls is_space.
Definition any_cls : regex := Cls (λ c, is_space c || negb (is_space c)).

(** [(?:^|;|\})] *)
Definition stmt_start : regex := Alt Bol (Alt (Chr ";") (Chr "}")).

(** [(?:[\s\S]*?\s+from\s+)?] *)
Definition from_clause : regex :=
  Opt (seqs [LazyStar any_cls; Plus space_cls; Lit "from"; Plus space_cls]).

(** [/(?:^|;|\})\s*import\s+(?:[\s\S]*?\s+from\s+)?['\x22]([^'\x22]+)['\x22]/gm] *)
Definition esImport : regex :=
  seqs [stmt_start; Star space_cls; Lit "import"; Plus space_cls; from_clause;
        quote_cls; Cap (Plus not_quote_cls); quote_cls].

(** [/(?:^|;|\})\s*export\s+(?:[\s\S]*?\s+from\s+)?['\x22]([^'\x22]+)['\x22]/gm] *)
Definition esExport : regex :=
  seqs [stmt_start; Star space_cls; Lit "export"; Plus space_cls; from_clause;
        quote_cls; Cap (Plus not_quote_cls); quote_cls].

(** [/(?:^|[^.\w])require\s*\(\s*['\x22]([^'\x22]+)['\x22]\s*\)/gm] *)
Definition cjsRequire : regex :=
  seqs [Alt Bol (Cls (λ c, negb (N.eqb c (ch ".") || is_word c)));
        Lit "require"; Star space_cls; Chr "("; Star space_cls;
        quote_cls; Cap (Plus not_quote_cls); quote_cls;
        Star space_cls; Chr ")"].

(** [/\bimport\s*\(\s*['\x22]([^'\x22]+)['\x22]\s*\)/gm] *)
Definition dynamicImport : regex :=
  seqs [WordB; Lit "import"; Star space_cls; Chr "("; Star space_cls;
        quote_cls; Cap (Plus not_quote_cls); quote_cls;
        Star space_cls; Chr ")"].

(** The four [while] loops of [parse] on the stripped text; each regular
    expression is a fresh object, so each loop starts at [lastIndex = 0]. *)
Definition scan (stripped : jsstring) : option (list jsstring) :=
  let n := length stripped in
  let add := λ c deps, Some (set_add c deps) in
  deps ← collect n true esImport add (start_pos stripped) [];
  deps ← collect n true esExport add (start_pos stripped) deps;
  deps ← collect n true cjsRequire add (start_pos stripped) deps;
  collect n true dynamicImport add (start_pos stripped) deps.

(** [parse(source)]: [None] stands for a call that does not return
    normally. *)
Definition parse (source : jsstring) : option (list jsstring) :=
  stripped ← stripComments source; scan stripped.

Definition NODE_BUILTINS : list jsstring := map str
  ["assert"; "buffer"; "child_process"; "cluster"; "console"; "constants";
   "crypto"; "dgram"; "dns"; "domain"; "events"; "fs"; "http"; "http2";
   "https"; "module"; "net"; "os"; "path"; "perf_hooks"; "process";
   "punycode"; "querystring"; "readline"; "repl"; "stream"; "string_decoder";
   "sys"; "timers"; "tls"; "tty"; "url"; "util"; "v8"; "vm"; "wasi";
   "worker_threads"; "zlib"; "test"; "node:test"]%string.

Definition isNodeBuiltin (specifier : jsstring) : bool :=
  if startsWith (str "node:") specifier then true
  else let base := first_piece (ch "/") specifier in
       bool_decide (base ∈ NODE_BUILTINS).

Definition classify (specifier : jsstring) : dep_type :=
  if startsWith (str ".") specifier || startsWith (str "/") specifier then local
  else if isNodeBuiltin specifier then builtin
  else external.

End JavaScript.

(** ** The Python scanner (src/parsers/python.js) *)

Module Python.

(** [while (i < source.length && source.slice(i, i + 3) !== quote) i++;]
    where [quote] is three times the code unit [q]. *)
Fixpoint skip_triple (q : N) (s : jsstring) : jsstring :=
  match s with
  | [] => []
  | _ :: t => if bool_decide (take 3 s = [q; q; q]) then s else skip_triple q t
  end.

(** [while (i < source.length && source[i] !== '\n') i++;] *)
Fixpoint skip_line (s : jsstring) : jsstring :=
  match s with
  | [] => []
  | c :: t => if N.eqb c (ch "010") then s else skip_line t
  end.

(** The body of a regular string:
<<
      while (i < source.length && source[i] !== quote) {
        if (source[i] === '\\') result += source[i++];
        result += source[i++];
      }
>>
    The second append is not guarded: after a backslash that ends the text
    [source[i]] is [undefined], and [result += undefined] appends the nine
    characters of that word. *)
Fixpoint copy_literal (quote : N) (s : jsstring) : jsstring * jsstring :=
  match s with
  | [] => ([], [])
  | c :: t =>
      if N.eqb c quote then ([], s)
      else if N.eqb c (ch "\") then
        match t with
        | [] => (c :: str "undefined", [])
        | d :: t' => let (o, r) := copy_literal quote t' in (c :: d :: o, r)
        end
      else let (o, r) := copy_literal quote t in (c :: o, r)
  end.

Definition copy_one (s : jsstring) : jsstring * jsstring :=
  match s with
  | [] => ([], [])
  | c :: t => ([c], t)
  end.

(** One iteration of the outer [while] of [stripComments]; a
    triple-quoted string leaves two double quotes as a placeholder. *)
Definition strip_step (c : N) (t : jsstring) : jsstring * jsstring :=
  let s := c :: t in
  if (N.eqb c dquote || N.eqb c (ch "'")) && bool_decide (take 3 s = [c; c; c])
  then ([dquote; dquote], drop 3 (skip_triple c (drop 3 s)))
  else if N.eqb c (ch "#") then ([], skip_line s)
  else if N.eqb c dquote || N.eqb c (ch "'") then
    let (o, r) := copy_literal c t in
    let (o', r') := copy_one r in
    (c :: o ++ o', r')
  else ([c], t).

Fixpoint strip_loop (fuel : nat) (s result : jsstring) : option jsstring :=
  match s with
  | [] => Some result
  | c :: t =>
      match fuel with
      | 0 => None
      | S fuel' =>
          let (o, r) := strip_step c t in strip_loop fuel' r (result ++ o)
      end
  end.

Definition stripComments (source : jsstring) : option jsstring :=
  strip_loop (length source) source [].

Definition blank_cls : regex := Cls (λ c, N.eqb c (ch " ") || N.eqb c 9).
Definition space_cls : regex := Cls is_space.
Definition dot_cls : regex := Cls (N.eqb (ch ".")).
Definition name_cls : regex := Cls (λ c, is_word c || N.eqb c (ch ".")).
Definition names_cls : regex :=
  Cls (λ c, is_word c || N.eqb c (ch ".") || N.eqb c (ch ",") ||
            N.eqb c (ch " ") || N.eqb c 9).

(** [/^[ \t]*from\s+( \.{0,3}[\w.]* )\s+import\s/gm], the blanks inside
    the group added here. *)
Definition fromPattern : regex :=
  seqs [Bol; Star blank_cls; Lit "from"; Plus space_cls;
        Cap (Seq (Rep 0 (Some 3) true dot_cls) (Star name_cls));
        Plus space_cls; Lit "import"; space_cls].

(** [/^[ \t]*import\s+( [\w.][\w., \t]* )/gm], the blanks next to the
    parentheses added here. *)
Definition importPattern : regex :=
  seqs [Bol; Star blank_cls; Lit "import"; Plus space_cls;
        Cap (Seq name_cls (Star names_cls))].

(** [/\s+as\s+/] *)
Definition asPattern : regex := seqs [Plus space_cls; Lit "as"; Plus space_cls].

(** [/^[\w.]+$/] *)
Definition namePattern : regex := seqs [Bol; Plus name_cls; Eol].

(** [const mod = match[1].trim(); if (mod) deps.add(mod);] *)
Definition from_body (c : jsstring) (deps : list jsstring)
  : option (list jsstring) :=
  let mod_ := trim c in
  Some (match mod_ with [] => deps | _ => set_add mod_ deps end).

(** The body of [for (const m of modules)]:
<<
      const name = m.trim().split(/\s+as\s+/)[0].trim();
      if (name && /^[\w.]+$/.test(name)) deps.add(name);
>> *)
Definition import_item (m : jsstring) (deps : list jsstring)
  : option (list jsstring) :=
  piece ← split_head asPattern (trim m);
  let name := trim piece in
  Some (match name with
        | [] => deps
        | _ => if test namePattern name then set_add name deps else deps
        end).

Fixpoint import_items (modules : list jsstring) (deps : list jsstring)
  : option (list jsstring) :=
  match modules with
  | [] => Some deps
  | m :: ms => deps' ← import_item m deps; import_items ms deps'
  end.

(** [const modules = match[1].split(','); for (const m of modules) ...] *)
Definition import_body (c : jsstring) (deps : list jsstring)
  : option (list jsstring) :=
  import_items (split_on (ch ",") c) deps.

Definition scan (stripped : jsstring) : option (list jsstring) :=
  let n := length stripped in
  deps ← collect n true fromPattern from_body (start_pos stripped) [];
  collect n true importPattern import_body (start_pos stripped) deps.

Definition parse (source : jsstring) : option (list jsstring) :=
  stripped ← stripComments source; scan stripped.

Definition PYTHON_STDLIB : list jsstring := map str
  ["abc"; "argparse"; "ast"; "asyncio"; "base64"; "bisect"; "builtins";
   "calendar"; "cmath"; "codecs"; "collections"; "concurrent"; "configparser";
   "contextlib"; "copy"; "csv"; "ctypes"; "dataclasses"; "datetime";
   "decimal"; "difflib"; "email"; "enum"; "errno"; "fcntl"; "fileinput";
   "fnmatch"; "fractions"; "ftplib"; "functools"; "gc"; "getpass"; "glob";
   "gzip"; "hashlib"; "heapq"; "hmac"; "html"; "http"; "importlib";
   "inspect"; "io"; "itertools"; "json"; "keyword"; "linecache"; "locale";
   "logging"; "lzma"; "math"; "mimetypes"; "multiprocessing"; "numbers";
   "operator"; "os"; "pathlib"; "pdb"; "pickle"; "pkgutil"; "platform";
   "pprint"; "profile"; "queue"; "random"; "re"; "readline"; "reprlib";
   "secrets"; "select"; "shelve"; "shlex"; "shutil"; "signal"; "site";
   "smtplib"; "socket"; "sqlite3"; "ssl"; "stat"; "statistics"; "string";
   "struct"; "subprocess"; "sys"; "syslog"; "tempfile"; "textwrap";
   "threading"; "time"; "timeit"; "tkinter"; "tomllib"; "trace"; "traceback";
   "types"; "typing"; "unittest"; "urllib"; "uuid"; "venv"; "warnings";
   "weakref"; "webbrowser"; "xml"; "xmlrpc"; "zipfile"; "zipimport"; "zlib";
   "_thread"]%string.

Definition classify (specifier : jsstring) : dep_type :=
  if startsWith (str ".") specifier then local
  else if bool_decide (first_piece (ch ".") specifier ∈ PYTHON_STDLIB) then builtin
  else external.

End Python.

(** ** Node's [path] module (POSIX flavour)

    [path] is Node's, not this repository's; the functions [graph.js] calls
    are modelled after Node's implementation (lib/path.js). *)

Module Path.

Definition sep : N := ch "/".

Definition isAbsolute (p : jsstring) : bool :=
  match p with
  | c :: _ => N.eqb c sep
  | [] => false
  end.

(** The segments joined by [/]. *)
Fixpoint join_segments (l : list jsstring) : jsstring :=
  match l with
  | [] => []
  | [a] => a
  | a :: l' => a ++ sep :: join_segments l'
  end.

(** One segment of [normalizeString]; [res] is the stack of the segments
    kept so far, the last one first.  Empty segments and [.] are dropped;
    [..] removes the last segment kept unless there is none or it is
    [..] itself, and is then kept only if [allowAboveRoot]. *)
Definition norm_step (allowAboveRoot : bool) (res : list jsstring)
    (seg : jsstring) : list jsstring :=
  if bool_decide (seg = []) || bool_decide (seg = str ".") then res
  else if bool_decide (seg = str "..") then
    match res with
    | top :: res' =>
        if bool_decide (top = str "..")
        then (if allowAboveRoot then seg :: res else res)
        else res'
    | [] => if allowAboveRoot then [seg] else []
    end
  else seg :: res.

Definition norm_segments (allowAboveRoot : bool) (p : jsstring)
  : list jsstring :=
  rev (foldl (norm_step allowAboveRoot) [] (split_on sep p)).

Definition normalizeString (p : jsstring) (allowAboveRoot : bool) : jsstring :=
  join_segments (norm_segments allowAboveRoot p).

(** The loop of [resolve]: the arguments from the last one down, then the
    working directory, until an absolute one is met; empty ones are
    skipped. *)
Fixpoint resolve_loop (paths : list jsstring) (resolvedPath : jsstring)
  : jsstring * bool :=
  match paths with
  | [] => (resolvedPath, false)
  | p :: rest =>
      match p with
      | [] => resolve_loop rest resolvedPath
      | _ =>
          let resolvedPath := p ++ sep :: resolvedPath in
          if isAbsolute p then (resolvedPath, true)
          else resolve_loop rest resolvedPath
      end
  end.

(** [path.resolve(...args)], [cwd] being [process.cwd()]. *)
Definition resolve (cwd : jsstring) (args : list jsstring) : jsstring :=
  let (resolvedPath, resolvedAbsolute) := resolve_loop (rev args ++ [cwd]) [] in
  let n := normalizeString resolvedPath (negb resolvedAbsolute) in
  if resolvedAbsolute then sep :: n
  else match n with [] => str "." | _ => n end.

(** [path.normalize(p)] *)
Definition normalize (p : jsstring) : jsstring :=
  match p with
  | [] => str "."
  | _ =>
      let isAbs := isAbsolute p in
      let trailing := bool_decide (last p = Some sep) in
      let n := normalizeString p (negb isAbs) in
      match n with
      | [] => if isAbs then [sep] else if trailing then str "./" else str "."
      | _ => (if isAbs then [sep] else []) ++ n ++ (if trailing then [sep] else [])
      end
  end.

(** [path.join(...args)] *)
Definition join (args : list jsstring) : jsstring :=
  match filter (λ a, a ≠ []) args with
  | [] => str "."
  | l => normalize (join_segments l)
  end.

(** The segments of a resolved path. *)
Definition segments (p : jsstring) : list jsstring :=
  filter (λ s, s ≠ []) (split_on sep p).

Fixpoint strip_common (f t : list jsstring) : list jsstring * list jsstring :=
  match f, t with
  | a :: f', b :: t' =>
      if bool_decide (a = b) then strip_common f' t' else (f, t)
  | _, _ => (f, t)
  end.

(** [path.relative(from, to)]: both are resolved, the segments they share
    from the root are dropped, and the result climbs with one [..] for
    each segment left of [from], then goes down the segments left of
    [to].  The working directory of a process is an absolute path, so
    that both resolved paths are absolute and normalized; on such paths
    this is what Node's scan of the two strings computes. *)
Definition relative (cwd from to : jsstring) : jsstring :=
  let (f, t) := strip_common (segments (resolve cwd [from]))
                             (segments (resolve cwd [to])) in
  join_segments (replicate (length f) (str "..") ++ t).

Fixpoint drop_while (f : N → bool) (s : jsstring) : jsstring :=
  match s with
  | c :: t => if f c then drop_while f t else s
  | [] => []
  end.

Fixpoint take_while (f : N → bool) (s : jsstring) : jsstring :=
  match s with
  | c :: t => if f c then c :: take_while f t else []
  | [] => []
  end.

Definition is_sep (c : N) : bool := N.eqb c sep.
Definition not_sep (c : N) : bool := negb (N.eqb c sep).

(** [path.dirname(p)]: the scan runs from the end of [p] down to index 1,
    over the trailing slashes and then over the last segment; [end] is
    the index of the slash before it. *)
Definition dirname (p : jsstring) : jsstring :=
  match p with
  | [] => str "."
  | c :: t =>
      let hasRoot := N.eqb c sep in
      let before := drop_while not_sep (drop_while is_sep (rev t)) in
      match before with
      | [] => if hasRoot then [sep] else str "."
      | _ =>
          let end_ := length before in
          if hasRoot && Nat.eqb end_ 1 then [sep; sep] else take end_ p
      end
  end.

(** The last segment of [p], trailing slashes left out, reversed. *)
Definition basename_rev (p : jsstring) : jsstring :=
  take_while not_sep (drop_while is_sep (rev p)).

Definition not_dot (c : N) : bool := negb (N.eqb c (ch ".")).

(** [path.extname(p)]: the last segment from its last dot on; empty when
    it has no dot, when the dot is its first character and when it is
    [..]. *)
Definition extname (p : jsstring) : jsstring :=
  let b := basename_rev p in
  match drop_while not_dot b with
  | [] => []
  | _ :: before =>
      match before with
      | [] => []
      | _ => if bool_decide (b = str "..") then []
             else ch "." :: rev (take_while not_dot b)
      end
  end.

End Path.

(** [s.toLowerCase()] on the ASCII letters.  The letters of the extensions
    compared with its result below are ASCII, and no code unit outside
    ASCII has one of them as its lower case, so that the comparison of
    [detectLanguage] is the one of the source. *)
Definition toLowerCase (s : jsstring) : jsstring :=
  map (λ c, if N.leb 65 c && N.leb c 90 then (c + 32)%N else c) s.

(** ** The graph builder (src/graph.js) *)

Inductive language : Type := javascript | python.

#[global] Instance language_eq_dec : EqDecision language.
Proof. solve_decision. Defined.

Definition EXTENSIONS (lang : language) : list jsstring :=
  match lang with
  | javascript =>
      map str [".js"; ".mjs"; ".cjs"; ".jsx"; ".ts"; ".tsx"; ".mts"; ".cts"]%string
  | python => [str ".py"]
  end.

(** [PARSER_MAP[lang].parse] and [PARSER_MAP[lang].classify] *)
Definition parser_parse (lang : language) : jsstring → option (list jsstring) :=
  match lang with
  | javascript => JavaScript.parse
  | python => Python.parse
  end.

Definition parser_classify (lang : language) : jsstring → dep_type :=
  match lang with
  | javascript => JavaScript.classify
  | python => Python.classify
  end.

(** [detectLanguage(filePath)]; [Object.entries(EXTENSIONS)] lists
    [javascript] before [python], and [None] is [null]. *)
Definition detectLanguage (filePath : jsstring) : option language :=
  let ext := toLowerCase (Path.extname filePath) in
  if bool_decide (ext ∈ EXTENSIONS javascript) then Some javascript
  else if bool_decide (ext ∈ EXTENSIONS python) then Some python
  else None.

(** What the builder asks of [fs]: [fs.existsSync(p)],
    [fs.statSync(p).isFile()] and [.isDirectory()] (called on existing
    paths only), and [fs.readFileSync(p, 'utf-8')], where [None] is a read
    that throws. *)
Record FileSystem : Type := {
  existsSync : jsstring → bool;
  isFile : jsstring → bool;
  isDirectory : jsstring → bool;
  readFileSync : jsstring → option jsstring;
}.

(** The options of [buildGraph].  [maxDepth] is only compared with a
    depth, [depth < maxDepth], where a depth is a natural number: [None]
    is [Infinity], and any other number behaves as the least natural
    number that is not below it ([NaN] as 0). *)
Record Options : Type := {
  rootDir : jsstring;
  includeExternal : bool;
  includeBuiltin : bool;
  maxDepth : option nat;
}.

Record Node : Type := { path : jsstring; language_ : language; depCount : nat }.

Record Edge : Type := {
  from : jsstring; to : jsstring; specifier : jsstring; type : dep_type;
}.

Record UnresolvedImport : Type := { u_from : jsstring; u_specifier : jsstring }.

Record Item : Type := { file : jsstring; depth : nat }.

#[global] Instance Node_eq_dec : EqDecision Node.
Proof. solve_decision. Defined.
#[global] Instance Edge_eq_dec : EqDecision Edge.
Proof. solve_decision. Defined.
#[global] Instance UnresolvedImport_eq_dec : EqDecision UnresolvedImport.
Proof. solve_decision. Defined.
#[global] Instance Item_eq_dec : EqDecision Item.
Proof. solve_decision. Defined.

(** The mutable variables of [buildGraph].  [nodes] is a [Map] and
    [externals], [builtins] are [Set]s, kept in insertion order; [visited]
    is a [Set] that is only tested for membership. *)
Record State : Type := {
  nodes : list Node;
  edges : list Edge;
  externals : list jsstring;
  builtins : list jsstring;
  unresolved : list UnresolvedImport;
  queue : list Item;
  visited : gset jsstring;
}.

(** The object [buildGraph] returns. *)
Record Graph : Type := {
  g_nodes : list Node;
  g_edges : list Edge;
  g_externals : list jsstring;
  g_builtins : list jsstring;
  g_unresolved : list UnresolvedImport;
}.

(** How a call ends; [OutOfFuel] belongs to the model only. *)
Inductive outcome (A : Type) : Type :=
| Returns (a : A)
| Throws
| OutOfFuel.
Arguments Returns {A} a.
Arguments Throws {A}.
Arguments OutOfFuel {A}.

(** [nodes.set(key, node)]: the entry of [key] is replaced where it is,
    a new key is appended. *)
Fixpoint map_set (key : jsstring) (node : Node) (m : list Node) : list Node :=
  match m with
  | [] => [node]
  | n :: m' => if bool_decide (path n = key) then node :: m'
               else n :: map_set key node m'
  end.

(** The order of [Array.prototype.sort] without a comparison function,
    on strings: code unit by code unit. *)
Fixpoint str_ltb (a b : jsstring) : bool :=
  match a, b with
  | _, [] => false
  | [], _ :: _ => true
  | x :: a', y :: b' =>
      if N.ltb x y then true else if N.ltb y x then false else str_ltb a' b'
  end.

Fixpoint insert_sorted (x : jsstring) (l : list jsstring) : list jsstring :=
  match l with
  | [] => [x]
  | y :: l' => if str_ltb x y then x :: l else y :: insert_sorted x l'
  end.

Definition sort (l : list jsstring) : list jsstring := foldr insert_sorted [] l.

(** [if (resolved)]: the empty string is falsy. *)
Definition truthy (s : jsstring) : bool := negb (bool_decide (s = [])).

(** [depth < maxDepth] *)
Definition depth_lt (d : nat) (m : option nat) : bool :=
  match m with
  | None => true
  | Some n => Nat.ltb d n
  end.

Definition push_edge (e : Edge) (st : State) : State :=
  {| nodes := nodes st; edges := edges st ++ [e]; externals := externals st;
     builtins := builtins st; unresolved := unresolved st; queue := queue st;
     visited := visited st |}.

Definition push_queue (i : Item) (st : State) : State :=
  {| nodes := nodes st; edges := edges st; externals := externals st;
     builtins := builtins st; unresolved := unresolved st;
     queue := queue st ++ [i]; visited := visited st |}.

Definition set_queue (q : list Item) (st : State) : State :=
  {| nodes := nodes st; edges := edges st; externals := externals st;
     builtins := builtins st; unresolved := unresolved st;
     queue := q; visited := visited st |}.

Definition push_unresolved (u : UnresolvedImport) (st : State) : State :=
  {| nodes := nodes st; edges := edges st; externals := externals st;
     builtins := builtins st; unresolved := unresolved st ++ [u];
     queue := queue st; visited := visited st |}.

Definition add_external (d : jsstring) (st : State) : State :=
  {| nodes := nodes st; edges := edges st; externals := set_add d (externals st);
     builtins := builtins st; unresolved := unresolved st; queue := queue st;
     visited := visited st |}.

Definition add_builtin (d : jsstring) (st : State) : State :=
  {| nodes := nodes st; edges := edges st; externals := externals st;
     builtins := set_add d (builtins st); unresolved := unresolved st;
     queue := queue st; visited := visited st |}.

Definition set_node (key : jsstring) (n : Node) (st : State) : State :=
  {| nodes := map_set key n (nodes st); edges := edges st;
     externals := externals st; builtins := builtins st;
     unresolved := unresolved st; queue := queue st; visited := visited st |}.

Definition add_visited (p : jsstring) (st : State) : State :=
  {| nodes := nodes st; edges := edges st; externals := externals st;
     builtins := builtins st; unresolved := unresolved st; queue := queue st;
     visited := {[p]} ∪ visited st |}.

Section Graph.

(** The file system and [process.cwd()]. *)
Variable fs : FileSystem.
Variable cwd : jsstring.

(** [fs.existsSync(p) && fs.statSync(p).isFile()] *)
Definition regular (p : jsstring) : bool := existsSync fs p && isFile fs p.

(** [for (const ext of exts)] of the second strategy. *)
Fixpoint try_extensions (rootDir target : jsstring) (exts : list jsstring)
  : option jsstring :=
  match exts with
  | [] => None
  | ext :: exts' =>
      let withExt := target ++ ext in
      if regular withExt then Some (Path.relative cwd rootDir withExt)
      else try_extensions rootDir target exts'
  end.

(** [for (const ext of exts)] of the third strategy. *)
Fixpoint try_index (rootDir target : jsstring) (exts : list jsstring)
  : option jsstring :=
  match exts with
  | [] => None
  | ext :: exts' =>
      let indexFile := Path.join [target; str "index" ++ ext] in
      if existsSync fs indexFile then Some (Path.relative cwd rootDir indexFile)
      else try_index rootDir target exts'
  end.

(** [resolveLocal(specifier, fromFile, rootDir)]; [None] is [null]. *)
Definition resolveLocal (specifier fromFile rootDir : jsstring)
  : option jsstring :=
  let dir := Path.dirname fromFile in
  let target := Path.resolve cwd [dir; specifier] in
  let lang := detectLanguage fromFile in
  let exts := match lang with Some l => EXTENSIONS l | None => [] end in
  if regular target then Some (Path.relative cwd rootDir target)
  else
    match try_extensions rootDir target exts with
    | Some r => Some r
    | None =>
        if existsSync fs target && isDirectory fs target
        then try_index rootDir target exts
        else None
    end.

(** The body of [for (const dep of deps)]. *)
Definition process_dep (opts : Options) (lang : language)
    (relPath file_ : jsstring) (depth_ : nat) (st : State) (dep : jsstring)
  : State :=
  match parser_classify lang dep with
  | local =>
      match resolveLocal dep file_ (rootDir opts) with
      | Some resolved =>
          if truthy resolved then
            let st := push_edge (Build_Edge relPath resolved dep local) st in
            if depth_lt depth_ (maxDepth opts)
            then push_queue
                   (Build_Item (Path.resolve cwd [rootDir opts; resolved])
                               (depth_ + 1)) st
            else st
          else push_unresolved (Build_UnresolvedImport relPath dep) st
      | None => push_unresolved (Build_UnresolvedImport relPath dep) st
      end
  | external =>
      let st := add_external dep st in
      if includeExternal opts
      then push_edge (Build_Edge relPath (str "[ext] " ++ dep) dep external) st
      else st
  | builtin =>
      let st := add_builtin dep st in
      if includeBuiltin opts
      then push_edge (Build_Edge relPath (str "[builtin] " ++ dep) dep builtin) st
      else st
  end.

(** A file that exists and has a language: it is read and parsed, its
    node is set, its specifiers are processed.  [None] is an exception. *)
Definition scan_file (opts : Options) (lang : language)
    (relPath file_ : jsstring) (depth_ : nat) (st : State) : option State :=
  source ← readFileSync fs file_;
  deps ← parser_parse lang source;
  let st := set_node relPath (Build_Node relPath lang (length deps)) st in
  Some (foldl (process_dep opts lang relPath file_ depth_) st deps).

(** The body of [while (queue.length > 0)] after [queue.shift()]. *)
Definition visit (opts : Options) (item : Item) (st : State) : option State :=
  let relPath := Path.relative cwd (rootDir opts) (file item) in
  if bool_decide (relPath ∈ visited st) then Some st
  else
    let st := add_visited relPath st in
    if negb (existsSync fs (file item)) then Some st
    else match detectLanguage (file item) with
         | None => Some st
         | Some lang => scan_file opts lang relPath (file item) (depth item) st
         end.

(** The [while] loop; [fuel] bounds its iterations. *)
Fixpoint loop (fuel : nat) (opts : Options) (st : State) : outcome State :=
  match queue st with
  | [] => Returns st
  | item :: q =>
      match fuel with
      | 0 => OutOfFuel
      | S fuel' =>
          match visit opts item (set_queue q st) with
          | None => Throws
          | Some st' => loop fuel' opts st'
          end
      end
  end.

(** The state before the loop. *)
Definition init (entries : list jsstring) (opts : Options) : State :=
  {| nodes := []; edges := []; externals := []; builtins := [];
     unresolved := [];
     queue := map (λ e, Build_Item
                          (if Path.isAbsolute e then e
                           else Path.resolve cwd [rootDir opts; e]) 0) entries;
     visited := ∅ |}.

(** The [return] of [buildGraph]. *)
Definition result (st : State) : Graph :=
  {| g_nodes := nodes st; g_edges := edges st;
     g_externals := sort (externals st); g_builtins := sort (builtins st);
     g_unresolved := unresolved st |}.

(** [buildGraph(entries, options)] *)
Definition buildGraph (fuel : nat) (entries : list jsstring) (opts : Options)
  : outcome Graph :=
  match loop fuel opts (init entries opts) with
  | Returns st => Returns (result st)
  | Throws => Throws
  | OutOfFuel => OutOfFuel
  end.

(** [options = {}] *)
Definition default_options : Options :=
  {| rootDir := cwd; includeExternal := false; includeBuiltin := false;
     maxDepth := None |}.

End Graph.

(** A file system given by its regular files, with their contents, and
    its directories. *)
Fixpoint assoc (p : jsstring) (l : list (jsstring * jsstring)) : option jsstring :=
  match l with
  | [] => None
  | (k, v) :: l' => if bool_decide (k = p) then Some v else assoc p l'
  end.

Definition fs_of (files : list (jsstring * jsstring)) (dirs : list jsstring)
  : FileSystem :=
  {| existsSync p := bool_decide (p ∈ files.*1) || bool_decide (p ∈ dirs);
     isFile p := bool_decide (p ∈ files.*1);
     isDirectory p := bool_decide (p ∈ dirs);
     readFileSync p := assoc p files |}.

(** ** Definitions used to state the properties *)

Arguments str : simpl never.
Arguments ch : simpl never.
Arguments Path.resolve : simpl never.
Arguments Path.relative : simpl never.
Arguments Path.join : simpl never.
Arguments Path.dirname : simpl never.
Arguments Path.extname : simpl never.

(** The classifier as the specification words it: a path marker makes a
    specifier local; otherwise its leading segment, looked up in the
    standard-library set of the language, decides between builtin and
    external. *)
Definition path_marker (lang : language) (s : jsstring) : bool :=
  match lang with
  | javascript => startsWith (str ".") s || startsWith (str "/") s
  | python => startsWith (str ".") s
  end.

Definition leading_segment (lang : language) (s : jsstring) : jsstring :=
  match lang with
  | javascript => first_piece (ch "/") s
  | python => first_piece (ch ".") s
  end.

Definition stdlib_names (lang : language) : list jsstring :=
  match lang with
  | javascript => JavaScript.NODE_BUILTINS
  | python => Python.PYTHON_STDLIB
  end.

Definition classify_by_segment (lang : language) (s : jsstring) : dep_type :=
  if path_marker lang s then local
  else if bool_decide (leading_segment lang s ∈ stdlib_names lang) then builtin
  else external.

(** The prefix [node:] of the JavaScript classifier. *)
Definition node_scheme (lang : language) (s : jsstring) : bool :=
  match lang with
  | javascript => startsWith (str "node:") s
  | python => false
  end.

(** The resolver as the specification words it: an ordered list of
    candidate paths, each with the test it has to pass; the first
    candidate that passes wins. *)
Definition language_extensions (fromFile : jsstring) : list jsstring :=
  match detectLanguage fromFile with
  | Some l => EXTENSIONS l
  | None => []
  end.

Definition candidates (fs : FileSystem) (cwd specifier fromFile : jsstring)
  : list (jsstring * bool) :=
  let target := Path.resolve cwd [Path.dirname fromFile; specifier] in
  let exts := language_extensions fromFile in
  (target, regular fs target)
  :: map (λ ext, (target ++ ext, regular fs (target ++ ext))) exts
  ++ (if existsSync fs target && isDirectory fs target
      then map (λ ext, (Path.join [target; str "index" ++ ext],
                        existsSync fs (Path.join [target; str "index" ++ ext])))
               exts
      else []).

Definition resolveLocal_spec (fs : FileSystem)
    (cwd specifier fromFile rootDir : jsstring) : option jsstring :=
  match list_find (λ c, c.2 = true) (candidates fs cwd specifier fromFile) with
  | Some (_, (f, _)) => Some (Path.relative cwd rootDir f)
  | None => None
  end.

(** The empty graph. *)
Definition empty_graph : Graph :=
  {| g_nodes := []; g_edges := []; g_externals := []; g_builtins := [];
     g_unresolved := [] |}.

(** The least number of code units a match of [r] consumes, and whether
    every match of [r] sets capture group 1. *)
Definition rep_min (min : nat) (max : option nat) : nat :=
  match max with
  | None => min
  | Some mx => Nat.min min mx
  end.

Fixpoint minlen (r : regex) : nat :=
  match r with
  | Cls _ => 1
  | Seq a b => minlen a + minlen b
  | Alt a b => Nat.min (minlen a) (minlen b)
  | Rep min max _ a => rep_min min max * minlen a
  | Cap a => minlen a
  | Eps | Bol | Eol | WordB => 0
  end.

Fixpoint captures (r : regex) : bool :=
  match r with
  | Cap _ => true
  | Seq a b => captures a || captures b
  | Alt a b => captures a && captures b
  | Rep min max _ a => Nat.ltb 0 (rep_min min max) && captures a
  | Eps | Cls _ | Bol | Eol | WordB => false
  end.

Section GraphSpec.

Variable fs : FileSystem.
Variable cwd : jsstring.
Variable opts : Options.

(** The absolute path an entry is queued under. *)
Definition entry_file (e : jsstring) : jsstring :=
  if Path.isAbsolute e then e else Path.resolve cwd [rootDir opts; e].

(** The root-relative path of a queued file, the key of [visited] and of
    [nodes]. *)
Definition relPath_of (f : jsstring) : jsstring :=
  Path.relative cwd (rootDir opts) f.

(** What the processing of one specifier appends to [edges], [queue] and
    [unresolved]. *)
Definition dep_resolved (file_ dep : jsstring) : option jsstring :=
  match resolveLocal fs cwd dep file_ (rootDir opts) with
  | Some r => if truthy r then Some r else None
  | None => None
  end.

Definition dep_edges (lang : language) (relPath file_ dep : jsstring)
  : list Edge :=
  match parser_classify lang dep with
  | local =>
      match dep_resolved file_ dep with
      | Some r => [Build_Edge relPath r dep local]
      | None => []
      end
  | external =>
      if includeExternal opts
      then [Build_Edge relPath (str "[ext] " ++ dep) dep external] else []
  | builtin =>
      if includeBuiltin opts
      then [Build_Edge relPath (str "[builtin] " ++ dep) dep builtin] else []
  end.

Definition dep_pushes (lang : language) (file_ : jsstring) (depth_ : nat)
    (dep : jsstring) : list Item :=
  match parser_classify lang dep with
  | local =>
      match dep_resolved file_ dep with
      | Some r =>
          if depth_lt depth_ (maxDepth opts)
          then [Build_Item (Path.resolve cwd [rootDir opts; r]) (depth_ + 1)]
          else []
      | None => []
      end
  | _ => []
  end.

Definition dep_unresolved (lang : language) (relPath file_ dep : jsstring)
  : list UnresolvedImport :=
  match parser_classify lang dep with
  | local =>
      match dep_resolved file_ dep with
      | Some _ => []
      | None => [Build_UnresolvedImport relPath dep]
      end
  | _ => []
  end.

(** Whether the iteration for [item] reads and parses its file. *)
Definition scans (item : Item) (st : State) : bool :=
  negb (bool_decide (relPath_of (file item) ∈ visited st)) &&
  existsSync fs (file item) &&
  bool_decide (is_Some (detectLanguage (file item))).

(** The root-relative paths of the files read and parsed by the loop, in
    the order of the scans. *)
Fixpoint scanned_files (fuel : nat) (st : State) : list jsstring :=
  match queue st with
  | [] => []
  | item :: q =>
      match fuel with
      | 0 => []
      | S fuel' =>
          (if scans item (set_queue q st) then [relPath_of (file item)] else [])
          ++ match visit fs cwd opts item (set_queue q st) with
             | Some st' => scanned_files fuel' st'
             | None => []
             end
      end
  end.

(** Whether the iteration for [item] marks its path visited and goes on
    to the next item without a scan: the path was not visited, and the
    file does not exist or its extension is of no language. *)
Definition skips (item : Item) (st : State) : bool :=
  negb (bool_decide (relPath_of (file item) ∈ visited st)) &&
  (negb (existsSync fs (file item)) ||
   negb (bool_decide (is_Some (detectLanguage (file item))))).

(** The queue items skipped by the loop, in the order they were
    dequeued. *)
Fixpoint skipped_items (fuel : nat) (st : State) : list Item :=
  match queue st with
  | [] => []
  | item :: q =>
      match fuel with
      | 0 => []
      | S fuel' =>
          (if skips item (set_queue q st) then [item] else [])
          ++ match visit fs cwd opts item (set_queue q st) with
             | Some st' => skipped_items fuel' st'
             | None => []
             end
      end
  end.

(** The files reachable from the entries along local imports that
    resolve. *)
Inductive reachable (entries : list jsstring) : jsstring → Prop :=
| reach_entry e :
    e ∈ entries → reachable entries (entry_file e)
| reach_import f lang source deps dep r :
    reachable entries f →
    existsSync fs f = true →
    detectLanguage f = Some lang →
    readFileSync fs f = Some source →
    parser_parse lang source = Some deps →
    dep ∈ deps →
    parser_classify lang dep = local →
    dep_resolved f dep = Some r →
    reachable entries (Path.resolve cwd [rootDir opts; r]).

(** The three ways an iteration ends normally. *)
Inductive visit_case (item : Item) (st st' : State) : Prop :=
| visit_again :
    relPath_of (file item) ∈ visited st →
    st' = st →
    visit_case item st st'
| visit_skip :
    relPath_of (file item) ∉ visited st →
    existsSync fs (file item) = false ∨ detectLanguage (file item) = None →
    st' = add_visited (relPath_of (file item)) st →
    visit_case item st st'
| visit_scan lang source deps :
    relPath_of (file item) ∉ visited st →
    existsSync fs (file item) = true →
    detectLanguage (file item) = Some lang →
    readFileSync fs (file item) = Some source →
    parser_parse lang source = Some deps →
    st' = foldl (process_dep fs cwd opts lang (relPath_of (file item))
                   (file item) (depth item))
            (set_node (relPath_of (file item))
               (Build_Node (relPath_of (file item)) lang (length deps))
               (add_visited (relPath_of (file item)) st))
            deps →
    visit_case item st st'.

(** Every queued file is reachable. *)
Definition queue_reachable (entries : list jsstring) (st : State) : Prop :=
  ∀ i, i ∈ queue st → reachable entries (file i).

End GraphSpec.

(** A segment of a normalized absolute path: not empty, without [/], and
    neither [.] nor [..]. *)
Definition clean (seg : jsstring) : Prop :=
  seg ≠ [] ∧ seg ≠ str "." ∧ seg ≠ str ".." ∧ Path.sep ∉ seg.

Section Invariants.

Variable fs : FileSystem.
Variable cwd : jsstring.
Variable opts : Options.

Definition node_paths (st : State) : list jsstring := map path (nodes st).

(** A node stands for a file that exists and has the node's language. *)
Definition scannable (n : Node) : Prop :=
  ∃ f, relPath_of cwd opts f = path n ∧
       existsSync fs f = true ∧ detectLanguage f = Some (language_ n).

(** The invariant of the loop on nodes, edges and the visited set. *)
Record graph_inv (st : State) : Prop := {
  inv_nodup : NoDup (node_paths st);
  inv_nodes : ∀ n, n ∈ nodes st → path n ∈ visited st ∧ scannable n;
  inv_edges : ∀ e, e ∈ edges st → from e ∈ node_paths st;
  inv_unresolved : ∀ u, u ∈ unresolved st → u_from u ∈ node_paths st;
}.

(** The invariant on local edges: the target is a relative path that is
    not empty, and, when the depth is not bounded, it was visited or is
    still queued. *)
Definition local_targets_inv (st : State) : Prop :=
  ∀ e, e ∈ edges st → type e = local →
    (∃ x, to e = relPath_of cwd opts x) ∧ to e ≠ [] ∧
    (maxDepth opts = None →
       to e ∈ visited st ∨
       ∃ i, i ∈ queue st ∧ file i = Path.resolve cwd [rootDir opts; to e]).

End Invariants.

(** A project with one script that requires a JSON file. *)
Definition fs_json : FileSystem :=
  fs_of [(str "/p/index.js", str "const d = require('./data.json');");
         (str "/p/data.json", str "{}")]
        [str "/p"].

Definition opts_p : Options :=
  {| rootDir := str "/p"; includeExternal := false; includeBuiltin := false;
     maxDepth := None |}.

(** A project whose only script requires a file that does not exist. *)
Definition fs_missing : FileSystem :=
  fs_of [(str "/p/index.js", str "const x = require('./missing');")]
        [str "/p"].

(** The loop ends from [st]: some amount of fuel is enough, and more fuel
    changes nothing. *)
Definition terminates (fs : FileSystem) (cwd : jsstring) (opts : Options)
    (st : State) : Prop :=
  ∃ fuel, ∀ fuel', fuel ≤ fuel' →
    loop fs cwd fuel' opts st = loop fs cwd fuel opts st ∧
    loop fs cwd fuel opts st ≠ OutOfFuel.

(** A chain of three scripts. *)
Definition fs_chain : FileSystem :=
  fs_of [(str "/p/a.js", str "const b = require('./b');");
         (str "/p/b.js", str "const c = require('./c');");
         (str "/p/c.js", str "// deep")]
        [str "/p"].

Definition opts_depth1 : Options :=
  {| rootDir := str "/p"; includeExternal := false; includeBuiltin := false;
     maxDepth := Some 1 |}.

(** What a matcher in continuation-passing style owes to its caller: a
    result comes from the continuation, called at least [n] code units
    further, with a capture that is set if [c] holds or if it was set
    before. *)
Definition advances {A : Type} (n : nat) (c : bool)
    (m : pos → option jsstring → (pos → option jsstring → option A) → option A)
  : Prop :=
  ∀ x cap k v, m x cap k = Some v →
    ∃ y cap', k y cap' = Some v ∧
              length (p_rest y) + n ≤ length (p_rest x) ∧
              (c = true ∨ is_Some cap → is_Some cap').

(** Texts with decoys.  [js_string_decoy] is
<<
    const s = "require('fake')";
>>
    (the outer quotes are double quotes), [js_swallowed_import] is
<<
    const s = "; import x from ";
    import real from 'real';
>>
    [js_comment_decoy] is
<<
    var r = /'/; // require('fake')
    var y = 'z';
>>
    and [py_string_decoy] is a string continued over two lines:
<<
    s = "abc \
    import fake"
>> *)
Definition newline : jsstring := [10%N].

Definition js_string_decoy : jsstring :=
  str "const s = " ++ [dquote] ++ str "require('fake')" ++ [dquote] ++ str ";".

Definition js_swallowed_import : jsstring :=
  str "const s = " ++ [dquote] ++ str "; import x from " ++ [dquote] ++ str ";"
  ++ newline ++ str "import real from 'real';".

Definition js_comment_decoy : jsstring :=
  str "var r = /'/; // require('fake')" ++ newline ++ str "var y = 'z';".

Definition py_string_decoy : jsstring :=
  str "s = " ++ [dquote] ++ str "abc \" ++ newline ++ str "import fake"
  ++ [dquote] ++ newline.

(** The fixtures of the repository's tests (tests/graph.test.js), with
    [/p] for the temporary directory. *)
Definition fs_simple : FileSystem :=
  fs_of [(str "/p/index.js",
          str "const a = require('./a');" ++ newline ++
          str "const b = require('./b');");
         (str "/p/a.js", str "const b = require('./b');");
         (str "/p/b.js", str "// leaf")]
        [str "/p"].

Definition fs_external : FileSystem :=
  fs_of [(str "/p/index.js",
          str "const express = require('express');" ++ newline ++
          str "const fs = require('fs');")]
        [str "/p"].

Definition fs_cycle : FileSystem :=
  fs_of [(str "/p/a.js", str "const b = require('./b');");
         (str "/p/b.js", str "const a = require('./a');")]
        [str "/p"].

Definition fs_python : FileSystem :=
  fs_of [(str "/p/main.py",
          str "from .utils import helper" ++ newline ++ str "import os");
         (str "/p/utils.py", str "import json")]
        [str "/p"].

Definition fs_resolve : FileSystem :=
  fs_of [(str "/p/src/a.js", []); (str "/p/src/b.js", []);
         (str "/p/src/lib/index.js", [])]
        [str "/p"; str "/p/src"; str "/p/src/lib"].

Definition opts_external : Options :=
  {| rootDir := str "/p"; includeExternal := true; includeBuiltin := false;
     maxDepth := None |}.

(** [y] is a position of the same subject string as [x], not before it. *)
Definition aligned (x y : pos) : Prop :=
  length (p_rest y) ≤ length (p_rest x) ∧
  p_idx y + length (p_rest y) = p_idx x + length (p_rest x).

(** A matcher calls its continuation only at such positions. *)
Definition local_matcher {A : Type}
    (m : pos → option jsstring → (pos → option jsstring → option A) → option A)
  : Prop :=
  ∀ x cap k k', (∀ y c, aligned x y → k y c = k' y c) → m x cap k = m x cap k'.

(** Code units that start neither a comment nor a literal for the
    JavaScript scanner, and texts that hold the end of a block comment. *)
Definition plain_char (c : N) : Prop :=
  c ≠ ch "/" ∧ c ≠ ch "`" ∧ c ≠ dquote ∧ c ≠ ch "'".

Fixpoint has_close (s : jsstring) : bool :=
  match s with
  | a :: t =>
      match t with
      | b :: _ => (N.eqb a (ch "*") && N.eqb b (ch "/")) || has_close t
      | [] => false
      end
  | [] => false
  end.

(** One file read by the loop of [buildGraph]: its absolute path, its
    language and the specifiers [parse] found in it. *)
Record Scan : Type := {
  s_file : jsstring; s_lang : language; s_deps : list jsstring;
}.

Section ScanSpec.

Variable fs : FileSystem.
Variable cwd : jsstring.
Variable opts : Options.

Definition scan_path (s : Scan) : jsstring := relPath_of cwd opts (s_file s).

(** What the scan of one file contributes to the graph. *)
Definition scan_node (s : Scan) : Node :=
  Build_Node (scan_path s) (s_lang s) (length (s_deps s)).

Definition scan_edges (s : Scan) : list Edge :=
  flat_map (dep_edges fs cwd opts (s_lang s) (scan_path s) (s_file s)) (s_deps s).

Definition scan_unresolved (s : Scan) : list UnresolvedImport :=
  flat_map (dep_unresolved fs cwd opts (s_lang s) (scan_path s) (s_file s))
           (s_deps s).

(** The file of a scan exists, has the language of the scan, and its
    text parses to the specifiers of the scan. *)
Definition valid_scan (s : Scan) : Prop :=
  existsSync fs (s_file s) = true ∧
  detectLanguage (s_file s) = Some (s_lang s) ∧
  ∃ source, readFileSync fs (s_file s) = Some source ∧
            parser_parse (s_lang s) source = Some (s_deps s).

(** A specifier of class [t] was found in one of the files scanned. *)
Definition found (scans : list Scan) (t : dep_type) (d : jsstring) : Prop :=
  ∃ s, s ∈ scans ∧ d ∈ s_deps s ∧ parser_classify (s_lang s) d = t.

(** The state of the loop after the files of [scans] were read, in that
    order. *)
Record scans_inv (scans : list Scan) (st : State) : Prop := {
  si_valid : Forall valid_scan scans;
  si_nodes : nodes st = map scan_node scans;
  si_visited : ∀ s, s ∈ scans → scan_path s ∈ visited st;
  si_edges : edges st = flat_map scan_edges scans;
  si_unresolved : unresolved st = flat_map scan_unresolved scans;
  si_externals : ∀ d, d ∈ externals st ↔ found scans external d;
  si_builtins : ∀ d, d ∈ builtins st ↔ found scans builtin d;
  si_externals_nodup : NoDup (externals st);
  si_builtins_nodup : NoDup (builtins st);
}.

End ScanSpec.

(** The order of [sort()]: [a] comes strictly before [b]. *)
Definition str_lt (a b : jsstring) : Prop := str_ltb a b = true.

(** The options with both flags off. *)
Definition without_flags (opts : Options) : Options :=
  {| rootDir := rootDir opts; includeExternal := false; includeBuiltin := false;
     maxDepth := maxDepth opts |}.

(** The options of [opts_p] with both flags on. *)
Definition opts_flags : Options :=
  {| rootDir := str "/p"; includeExternal := true; includeBuiltin := true;
     maxDepth := None |}.

(** Two states of the loop that differ in their edges only, those of the
    second being the local edges of the first. *)
Definition same_but_edges (st st' : State) : Prop :=
  nodes st' = nodes st ∧ externals st' = externals st ∧
  builtins st' = builtins st ∧ unresolved st' = unresolved st ∧
  queue st' = queue st ∧ visited st' = visited st ∧
  edges st' = filter (λ e, type e = local) (edges st).

(** An entry that is not scanned: its file does not exist, or its
    extension is of no language. *)
Definition not_scanned (fs : FileSystem) (f : jsstring) : Prop :=
  existsSync fs f = false ∨ detectLanguage f = None.

(** An absolute path in normal form: [path.resolve] leaves it as it is. *)
Definition normalized (cwd f : jsstring) : Prop := Path.resolve cwd [f] = f.

Section TraversalSpec.

Variable fs : FileSystem.
Variable cwd : jsstring.
Variable opts : Options.

(** The files reachable from the entries along [n] local imports that
    resolve. *)
Inductive reachable_in (entries : list jsstring) : nat → jsstring → Prop :=
| reach_in_entry e :
    e ∈ entries → reachable_in entries 0 (entry_file cwd opts e)
| reach_in_import n f lang source deps dep r :
    reachable_in entries n f →
    existsSync fs f = true →
    detectLanguage f = Some lang →
    readFileSync fs f = Some source →
    parser_parse lang source = Some deps →
    dep ∈ deps →
    parser_classify lang dep = local →
    dep_resolved fs cwd opts f dep = Some r →
    reachable_in entries (S n) (Path.resolve cwd [rootDir opts; r]).

(** [d] is a depth that [maxDepth] allows for a file that is scanned. *)
Definition within (m : option nat) (d : nat) : Prop :=
  match m with
  | None => True
  | Some m => d ≤ m
  end.

(** The invariant of the loop on depths. *)
Definition depth_inv (entries : list jsstring) (st : State) : Prop :=
  (∀ i, i ∈ queue st →
        within (maxDepth opts) (depth i) ∧
        reachable_in entries (depth i) (file i)) ∧
  (∀ n, n ∈ nodes st →
        ∃ f d, within (maxDepth opts) d ∧ reachable_in entries d f ∧
               relPath_of cwd opts f = path n ∧
               existsSync fs f = true ∧
               detectLanguage f = Some (language_ n)).

(** A file the loop has dealt with or will deal with: its path is
    visited, or it is in the queue. *)
Definition pending (st : State) (f : jsstring) : Prop :=
  relPath_of cwd opts f ∈ visited st ∨ ∃ i, i ∈ queue st ∧ file i = f.

(** What the loop has done for a file whose path is visited: nothing if
    the file is not scanned; otherwise the file has a node, and the file
    of each local import of it that resolves is pending. *)
Definition expanded (st : State) (f : jsstring) : Prop :=
  not_scanned fs f ∨
  (relPath_of cwd opts f ∈ node_paths st ∧
   ∀ lang source deps dep r,
     detectLanguage f = Some lang →
     readFileSync fs f = Some source →
     parser_parse lang source = Some deps →
     dep ∈ deps →
     parser_classify lang dep = local →
     dep_resolved fs cwd opts f dep = Some r →
     pending st (Path.resolve cwd [rootDir opts; r])).

(** The invariant of a traversal without a bound on the depth. *)
Record traversal_inv (entries : list jsstring) (st : State) : Prop := {
  ti_queue : ∀ i, i ∈ queue st → normalized cwd (file i);
  ti_entries : ∀ e, e ∈ entries → pending st (entry_file cwd opts e);
  ti_visited : ∀ p, p ∈ visited st →
    ∃ f, normalized cwd f ∧ relPath_of cwd opts f = p ∧ expanded st f;
}.

End TraversalSpec.

(** The options of [opts_p] with the depth bounded by 0. *)
Definition opts_depth0 : Options :=
  {| rootDir := str "/p"; includeExternal := false; includeBuiltin := false;
     maxDepth := Some 0 |}.

(** The extensions of [EXTENSIONS] have at least three characters and no
    slash. *)
Definition ext_like (ext : jsstring) : Prop := 3 ≤ length ext ∧ Path.sep ∉ ext.

(** The target of a specifier: [path.resolve(path.dirname(fromFile), specifier)]. *)
Definition target_of (cwd specifier fromFile : jsstring) : jsstring :=
  Path.resolve cwd [Path.dirname fromFile; specifier].

(** The end of a path: [pre] is empty or ends with a slash, so that what
    follows it starts the last segment. *)
Definition segment_start (pre : jsstring) : Prop :=
  pre = [] ∨ last pre = Some Path.sep.

(** The code units between two positions [x] and [y] of a subject string:
    at least [n], all in [P]. *)
Definition consumed (P : N → Prop) (n : nat) (x y : pos) : Prop :=
  ∃ seg, p_rest x = seg ++ p_rest y ∧ p_idx y = p_idx x + length seg ∧
         Forall P seg ∧ n ≤ length seg.

(** A matcher that calls its continuation with the capture it was given,
    after code units of [P]. *)
Definition consumes {A : Type} (P : N → Prop) (n : nat)
    (m : pos → option jsstring → (pos → option jsstring → option A) → option A)
  : Prop :=
  ∀ x cap k v, m x cap k = Some v → ∃ y, k y cap = Some v ∧ consumed P n x y.

(** A pattern without a group whose classes are all within [P]. *)
Fixpoint all_cls (P : N → Prop) (r : regex) : Prop :=
  match r with
  | Cls f => ∀ c, f c = true → P c
  | Seq a b | Alt a b => all_cls P a ∧ all_cls P b
  | Rep _ _ _ a => all_cls P a
  | Cap _ => False
  | Eps | Bol | Eol | WordB => True
  end.

Fixpoint nocapb (r : regex) : bool :=
  match r with
  | Seq a b | Alt a b => nocapb a && nocapb b
  | Rep _ _ _ a => nocapb a
  | Cap _ => false
  | Eps | Cls _ | Bol | Eol | WordB => true
  end.

(** A pattern whose groups are outside the quantifiers and match at
    least [n] code units, all in [P]. *)
Fixpoint cap_ok (P : N → Prop) (n : nat) (r : regex) : Prop :=
  match r with
  | Cap a => all_cls P a ∧ n ≤ minlen a
  | Seq a b | Alt a b => cap_ok P n a ∧ cap_ok P n b
  | Rep _ _ _ a => nocapb a = true
  | Eps | Cls _ | Bol | Eol | WordB => True
  end.

(** A capture that is unset or holds at least [n] code units of [P]. *)
Definition capture_inv (P : N → Prop) (n : nat) (cap : option jsstring) : Prop :=
  ∀ s, cap = Some s → n ≤ length s ∧ Forall P s.

(** The code units of a JavaScript specifier and of a Python module
    name. *)
Definition not_quote (c : N) : Prop := c ≠ ch "'" ∧ c ≠ dquote.

Definition name_char (c : N) : Prop := is_word c || N.eqb c (ch ".") = true.

(** Code units that start neither a comment nor a string for the Python
    scanner, and texts that hold three quotes [q] in a row. *)
Definition py_plain_char (c : N) : Prop :=
  c ≠ ch "#" ∧ c ≠ dquote ∧ c ≠ ch "'".

Fixpoint has_triple (q : N) (s : jsstring) : bool :=
  match s with
  | [] => false
  | _ :: t => bool_decide (take 3 s = [q; q; q]) || has_triple q t
  end.

(** ** Entry discovery (src/graph.js)

    [discoverEntries] handles the value of [JSON.parse], which can be any
    JavaScript value.  What it asks of values is gathered here: the
    equality of [Array.prototype.includes] and of [Set] (SameValueZero),
    the strings among the values, [JSON.parse] ([None] is a syntax
    error), the access to a property ([None] is the type error raised on
    [null] and [undefined]), truthiness, [typeof v === 'string'] and
    [Object.values]. *)
Record JSValues : Type := {
  js_value : Type;
  js_eq : EqDecision js_value;
  js_of_string : jsstring → js_value;
  js_of_string_inj : ∀ a b, js_of_string a = js_of_string b → a = b;
  JSON_parse : jsstring → option js_value;
  js_get : js_value → jsstring → option js_value;
  js_truthy : js_value → bool;
  js_is_string : js_value → bool;
  Object_values : js_value → list js_value;
}.

#[global] Existing Instance js_eq.

Definition commonEntries : list jsstring := map str
  ["index.js"; "index.ts"; "src/index.js"; "src/index.ts";
   "main.js"; "main.ts"; "src/main.js"; "src/main.ts";
   "app.js"; "app.ts"; "src/app.js"; "src/app.ts";
   "main.py"; "app.py"; "src/main.py"]%string.

Section Discover.

Variable js : JSValues.
Variable fs : FileSystem.

(** The [try] block: the values it has pushed when it ends, normally or
    by an exception, which [catch {}] swallows.  A property of a value
    that is neither [null] nor [undefined] can be read, so that nothing
    throws after the first push. *)
Definition manifest_entries (pkgPath : jsstring) : list (js_value js) :=
  match readFileSync fs pkgPath with
  | None => []
  | Some text =>
      match JSON_parse js text with
      | None => []
      | Some pkg =>
          match js_get js pkg (str "main") with
          | None => []
          | Some main =>
              let entries := if js_truthy js main then [main] else [] in
              match js_get js pkg (str "bin") with
              | None => entries
              | Some bin =>
                  if js_truthy js bin then
                    let bins := if js_is_string js bin then [bin]
                                else Object_values js bin in
                    entries ++ bins
                  else entries
              end
          end
      end
  end.

(** The entries after [if (fs.existsSync(pkgPath)) { ... }]. *)
Definition manifest (rootDir : jsstring) : list (js_value js) :=
  let pkgPath := Path.join [rootDir; str "package.json"] in
  if existsSync fs pkgPath then manifest_entries pkgPath else [].

(** The body of [for (const entry of commonEntries)]. *)
Definition add_common (rootDir : jsstring) (entries : list (js_value js))
    (entry : jsstring) : list (js_value js) :=
  let full := Path.join [rootDir; entry] in
  if existsSync fs full && negb (bool_decide (js_of_string js entry ∈ entries))
  then entries ++ [js_of_string js entry]
  else entries.

(** [[...new Set(entries)]]: the values in the order of their first
    occurrence. *)
Definition set_of (entries : list (js_value js)) : list (js_value js) :=
  foldl (λ s v, if bool_decide (v ∈ s) then s else s ++ [v]) [] entries.

(** [discoverEntries(rootDir)] *)
Definition discoverEntries (rootDir : jsstring) : list (js_value js) :=
  let entries := manifest rootDir in
  let entries := foldl (add_common rootDir) entries commonEntries in
  set_of entries.

(** The common entry files that exist under [rootDir], in the order of
    [commonEntries]. *)
Definition existing_common (rootDir : jsstring) : list jsstring :=
  filter (λ e, existsSync fs (Path.join [rootDir; e]) = true) commonEntries.

End Discover.

(** A small universe of JavaScript values, enough for the manifests of
    the repository's tests: a property is [undefined], a string, or an
    object whose values are strings; a value is [null], such a property,
    or a package with its properties [main] and [bin]. *)
Inductive field : Type :=
| FUndefined
| FString (s : jsstring)
| FObject (values : list jsstring).

Inductive jsvalue : Type :=
| VNull
| VField (f : field)
| VPackage (main bin : field).

#[global] Instance field_eq_dec : EqDecision field.
Proof. solve_decision. Defined.
#[global] Instance jsvalue_eq_dec : EqDecision jsvalue.
Proof. solve_decision. Defined.

Definition jsvalue_get (v : jsvalue) (p : jsstring) : option jsvalue :=
  match v with
  | VNull | VField FUndefined => None
  | VField _ => Some (VField FUndefined)
  | VPackage main bin =>
      Some (VField (if bool_decide (p = str "main") then main
                    else if bool_decide (p = str "bin") then bin
                    else FUndefined))
  end.

Definition jsvalue_truthy (v : jsvalue) : bool :=
  match v with
  | VNull | VField FUndefined => false
  | VField (FString s) => negb (bool_decide (s = []))
  | VField (FObject _) | VPackage _ _ => true
  end.

Definition jsvalue_is_string (v : jsvalue) : bool :=
  match v with VField (FString _) => true | _ => false end.

Definition jsvalue_values (v : jsvalue) : list jsvalue :=
  match v with
  | VField (FObject l) => map (λ s, VField (FString s)) l
  | VPackage main bin => [VField main; VField bin]
  | _ => []
  end.

Fixpoint json_lookup (table : list (jsstring * jsvalue)) (text : jsstring)
  : option jsvalue :=
  match table with
  | [] => None
  | (k, v) :: table' =>
      if bool_decide (k = text) then Some v else json_lookup table' text
  end.

Definition jsvalue_string (v : jsvalue) : jsstring :=
  match v with VField (FString s) => s | _ => [] end.

Definition VField_FString_inj (a b : jsstring)
    (H : VField (FString a) = VField (FString b)) : a = b :=
  f_equal jsvalue_string H.

(** These values, with [JSON.parse] given by a table of the texts it
    accepts. *)
Definition js_of (table : list (jsstring * jsvalue)) : JSValues :=
  {| js_value := jsvalue;
     js_eq := jsvalue_eq_dec;
     js_of_string := λ s, VField (FString s);
     js_of_string_inj := VField_FString_inj;
     JSON_parse := json_lookup table;
     js_get := jsvalue_get;
     js_truthy := jsvalue_truthy;
     js_is_string := jsvalue_is_string;
     Object_values := jsvalue_values |}.

(** The manifests and the projects of the tests of [discoverEntries]. *)
Definition js_manifests : JSValues :=
  js_of [(str "{main}", VPackage (FString (str "src/index.js")) FUndefined);
         (str "{bin}", VPackage FUndefined (FObject [str "src/cli.js"]));
         (str "null", VNull)].

Definition fs_main : FileSystem :=
  fs_of [(str "/p/package.json", str "{main}"); (str "/p/src/index.js", [])]
        [str "/p"; str "/p/src"].

Definition fs_bin : FileSystem :=
  fs_of [(str "/p/package.json", str "{bin}"); (str "/p/src/cli.js", [])]
        [str "/p"; str "/p/src"].

Definition fs_common : FileSystem :=
  fs_of [(str "/p/index.js", [])] [str "/p"].

Definition fs_broken : FileSystem :=
  fs_of [(str "/p/package.json", str "{"); (str "/p/main.py", []);
         (str "/p/index.js", [])]
        [str "/p"].

(** A project whose entry is a directory with the name of a script. *)
Definition fs_directory_entry : FileSystem :=
  fs_of [(str "/p/b.js", str "// leaf")] [str "/p"; str "/p/a.js"].

Section OrderSpec.

Variable fs : FileSystem.
Variable cwd : jsstring.
Variable opts : Options.

(** The items taken from the queue by the loop, in the order of the
    iterations. *)
Fixpoint dequeued (fuel : nat) (st : State) : list Item :=
  match queue st with
  | [] => []
  | item :: q =>
      match fuel with
      | 0 => []
      | S fuel' =>
          item :: match visit fs cwd opts item (set_queue q st) with
                  | Some st' => dequeued fuel' st'
                  | None => []
                  end
      end
  end.

(** A queue of a breadth-first traversal: the depths of its items do not
    decrease, and lie between [d] and [d + 1]. *)
Definition bfs_queue (d : nat) (q : list Item) : Prop :=
  StronglySorted le (map depth q) ∧ Forall (λ i, d ≤ depth i ≤ d + 1) q.

End OrderSpec.

(** ** The formatters (src/formatters.js) *)

(** [lines.join(sep)] *)
Fixpoint join_with (sep : jsstring) (l : list jsstring) : jsstring :=
  match l with
  | [] => []
  | [a] => a
  | a :: l' => a ++ sep ++ join_with sep l'
  end.

(** A length in a template literal: its decimal digits. *)
Definition decimal (n : nat) : jsstring :=
  str (NilEmpty.string_of_uint (Nat.to_uint n)).

(** The escape character, U+001B. *)
Definition esc : N := 27.

(** [str.replace(/\x22/g, '\\\x22')]: a backslash before every double
    quote. *)
Definition escape_quotes (s : jsstring) : jsstring :=
  flat_map (λ c, if N.eqb c dquote then [ch "\"; dquote] else [c]) s.

(** [dotId(str)] *)
Definition dotId (s : jsstring) : jsstring :=
  dquote :: escape_quotes s ++ [dquote].

(** [colorize(filePath)]; the extension is compared as it is, without
    [toLowerCase], with the keys of [colors]. *)
Definition colorize (filePath : jsstring) : jsstring :=
  let ext := Path.extname filePath in
  let c :=
    if bool_decide (ext ∈ map str [".js"; ".jsx"; ".mjs"; ".cjs"]%string)
    then esc :: str "[33m"
    else if bool_decide (ext ∈ map str [".ts"; ".tsx"]%string)
    then esc :: str "[36m"
    else if bool_decide (ext = str ".py") then esc :: str "[32m"
    else [] in
  match c with
  | [] => filePath
  | _ => c ++ filePath ++ esc :: str "[0m"
  end.

(** The strings of the tree: [└── ], [├── ] and [│   ] are written with
    the code units U+2514, U+251C, U+2502 and U+2500. *)
Definition corner : jsstring := [9492%N; 9472%N; 9472%N; 32%N].
Definition tee : jsstring := [9500%N; 9472%N; 9472%N; 32%N].
Definition pipe : jsstring := [9474%N; 32%N; 32%N; 32%N].

(** The variables [visited] and [lines] of [formatTree], which [render]
    updates. *)
Record TreeState : Type := { t_visited : gset jsstring; t_lines : list jsstring }.

Definition push_line (l : jsstring) (st : TreeState) : TreeState :=
  {| t_visited := t_visited st; t_lines := t_lines st ++ [l] |}.

(** [children.forEach((edge, i) => render(edge.to, nextPrefix,
    i === children.length - 1, false))], for a function [rend] in the place
    of [render]. *)
Fixpoint render_each
    (rend : jsstring → jsstring → bool → bool → TreeState → option TreeState)
    (nextPrefix : jsstring) (children : list Edge) (st : TreeState)
  : option TreeState :=
  match children with
  | [] => Some st
  | edge :: rest =>
      st' ← rend (to edge) nextPrefix (bool_decide (rest = [])) false st;
      render_each rend nextPrefix rest st'
  end.

Section Tree.

(** The option [color] and the graph. *)
Variable color : bool.
Variable g : Graph.

(** [adj.has(p)] and [adj.get(p) || []]: the edges that start at [p], in
    the order of [graph.edges]. *)
Definition adj_has (p : jsstring) : bool :=
  bool_decide (p ∈ map from (g_edges g)).

Definition adj_get (p : jsstring) : list Edge :=
  filter (λ e, from e = p) (g_edges g).

(** [graph.edges.filter(e => e.type === 'local')] *)
Definition local_edges : list Edge :=
  filter (λ e, type e = local) (g_edges g).

(** The roots: the nodes that no local edge goes to, or the first node
    when there is no such node. *)
Definition roots : list jsstring :=
  let targets := map to local_edges in
  let roots := filter (λ p, p ∉ targets) (map path (g_nodes g)) in
  match roots, g_nodes g with
  | [], n :: _ => [path n]
  | _, _ => roots
  end.

(** [render(nodePath, prefix, isLast, isRoot)]; [fuel] bounds the depth
    of the recursion, [None] is fuel exhausted. *)
Fixpoint render (fuel : nat) (nodePath prefix : jsstring) (isLast isRoot : bool)
    (st : TreeState) : option TreeState :=
  match fuel with
  | 0 => None
  | S fuel' =>
      let connector := if isRoot then [] else if isLast then corner else tee in
      let name := if color then colorize nodePath else nodePath in
      let st := push_line (prefix ++ connector ++ name) st in
      let nextPrefix :=
        if isRoot then [] else prefix ++ (if isLast then str "    " else pipe) in
      if bool_decide (nodePath ∈ t_visited st) then
        Some (if adj_has nodePath
              then push_line
                     (nextPrefix ++
                      (if color then esc :: str "[2m(circular)" ++ esc :: str "[0m"
                       else str "(circular)")) st
              else st)
      else
        let st := {| t_visited := {[nodePath]} ∪ t_visited st;
                     t_lines := t_lines st |} in
        let children := filter (λ e, type e = local) (adj_get nodePath) in
        render_each (render fuel') nextPrefix children st
  end.

(** [roots.forEach((root, i) => { if (i > 0) lines.push('');
    render(root, '', i === roots.length - 1, true); })] *)
Fixpoint render_roots (fuel : nat) (first : bool) (rs : list jsstring)
    (st : TreeState) : option TreeState :=
  match rs with
  | [] => Some st
  | root :: rest =>
      let st := if first then st else push_line [] st in
      st' ← render fuel root [] (bool_decide (rest = [])) true st;
      render_roots fuel false rest st'
  end.

(** The lines of the summary. *)
Definition summary : list jsstring :=
  [[]; decimal (length (g_nodes g)) ++ str " files, " ++
       decimal (length local_edges) ++ str " local deps"]
  ++ (match g_externals g with
      | [] => []
      | _ => [str "External: " ++ join_with (str ", ") (g_externals g)]
      end)
  ++ (match g_unresolved g with
      | [] => []
      | _ => [(if color then esc :: str "[33mUnresolved" ++ esc :: str "[0m"
               else str "Unresolved")
              ++ str ": " ++
              join_with (str ", ") (map u_specifier (g_unresolved g))]
      end).

(** [formatTree(graph, { color })] *)
Definition formatTree (fuel : nat) : option jsstring :=
  st ← render_roots fuel true roots {| t_visited := ∅; t_lines := [] |};
  Some (join_with newline (t_lines st ++ summary)).

(** The array [lines] of [formatTree] before [lines.join]. *)
Definition tree_lines (fuel : nat) : option (list jsstring) :=
  st ← render_roots fuel true roots {| t_visited := ∅; t_lines := [] |};
  Some (t_lines st ++ summary).

(** The paths that [render] is called on below a root: the targets of
    the local edges. *)
Definition tree_targets : gset jsstring := list_to_set (map to local_edges).

End Tree.

(** The graph of two scripts that require each other, and a graph with
    one script and its summary lines. *)
Definition graph_cycle : Graph :=
  {| g_nodes := [Build_Node (str "a.js") javascript 1;
                 Build_Node (str "b.js") javascript 1];
     g_edges := [Build_Edge (str "a.js") (str "b.js") (str "./b") local;
                 Build_Edge (str "b.js") (str "a.js") (str "./a") local];
     g_externals := []; g_builtins := []; g_unresolved := [] |}.

(** The local edges whose start has not been expanded yet, given the
    paths [V] that [render] has visited. *)
Definition unexpanded (g : Graph) (V : gset jsstring) : list Edge :=
  filter (λ e, from e ∉ V) (local_edges g).

(** The lines added by [calls] calls of [render], against the local
    edges they expand. *)
Definition paid (g : Graph) (st st' : TreeState) (calls : nat) : Prop :=
  length (t_lines st') + 2 * length (unexpanded g (t_visited st')) ≤
  length (t_lines st) + 2 * calls + 2 * length (unexpanded g (t_visited st)).

Section LevelSpec.

Variable fs : FileSystem.
Variable cwd : jsstring.
Variable opts : Options.

(** A file the loop has dealt with, or will deal with, at depth [k] at
    most; [vd] gives the depth at which each visited path was dequeued
    first. *)
Definition pending_at (vd : jsstring → nat) (st : State) (f : jsstring)
    (k : nat) : Prop :=
  (relPath_of cwd opts f ∈ visited st ∧ vd (relPath_of cwd opts f) ≤ k) ∨
  ∃ i, i ∈ queue st ∧ file i = f ∧ depth i ≤ k.

(** What the loop has done for a file whose path is visited: nothing if
    the file is not scanned; otherwise the file has a node and, when its
    depth is below [maxDepth], the file of each local import of it that
    resolves is pending one level deeper. *)
Definition expanded_at (vd : jsstring → nat) (st : State) (f : jsstring)
  : Prop :=
  not_scanned fs f ∨
  (relPath_of cwd opts f ∈ node_paths st ∧
   (depth_lt (vd (relPath_of cwd opts f)) (maxDepth opts) = true →
    ∀ lang source deps dep r,
      detectLanguage f = Some lang →
      readFileSync fs f = Some source →
      parser_parse lang source = Some deps →
      dep ∈ deps →
      parser_classify lang dep = local →
      dep_resolved fs cwd opts f dep = Some r →
      pending_at vd st (Path.resolve cwd [rootDir opts; r])
                 (vd (relPath_of cwd opts f) + 1))).

(** The invariant of the breadth-first traversal, level by level. *)
Record level_inv (entries : list jsstring) (vd : jsstring → nat) (d : nat)
    (st : State) : Prop := {
  li_queue : bfs_queue d (queue st);
  li_depths : ∀ p, p ∈ visited st → vd p ≤ d;
  li_normal : ∀ i, i ∈ queue st → normalized cwd (file i);
  li_entries : ∀ e, e ∈ entries → pending_at vd st (entry_file cwd opts e) 0;
  li_visited : ∀ p, p ∈ visited st →
    ∃ f, normalized cwd f ∧ relPath_of cwd opts f = p ∧ expanded_at vd st f;
}.

End LevelSpec.

(** The options with another bound on the depth. *)
Definition with_depth (m : option nat) (opts : Options) : Options :=
  {| rootDir := rootDir opts; includeExternal := includeExternal opts;
     includeBuiltin := includeBuiltin opts; maxDepth := m |}.

(** A project with a short and a long way to the same script: [a.js]
    requires [b.js] and [c.js], and [b.js] requires [c.js]. *)
Definition fs_diamond : FileSystem :=
  fs_of [(str "/p/a.js",
          str "const b = require('./b');" ++ newline ++
          str "const c = require('./c');");
         (str "/p/b.js", str "const c = require('./c');");
         (str "/p/c.js", str "// leaf")]
        [str "/p"].

(** ** Properties *)

(** *** The classifiers *)

Lemma first_piece_cons sep c s :
  c ≠ sep → ∃ w, first_piece sep (c :: s) = c :: w.
Proof.
  intros Hc. unfold first_piece. simpl.
  destruct (N.eqb_spec c sep) as [->|_]; [done|].
  destruct (split_on sep s); eauto.
Qed.

Lemma scoped_not_in_set (names : list jsstring) w :
  Forall (λ x, head x ≠ Some (ch "@")) names → (ch "@" :: w) ∉ names.
Proof.
  intros HF Hin. rewrite Forall_forall in HF. by apply (HF _ Hin).
Qed.

Lemma node_builtins_heads :
  Forall (λ x, head x ≠ Some (ch "@")) JavaScript.NODE_BUILTINS.
Proof. apply (bool_decide_unpack _). by vm_compute. Qed.

Lemma python_stdlib_heads :
  Forall (λ x, head x ≠ Some (ch "@")) Python.PYTHON_STDLIB.
Proof. apply (bool_decide_unpack _). by vm_compute. Qed.

(** C6, as stated, fails: [node:path] is builtin for the JavaScript
    classifier although its leading segment, [node:path], is not in the
    standard-library set. *)
Lemma classify_node_scheme_counterexample :
  parser_classify javascript (str "node:path") = builtin ∧
  (leading_segment javascript (str "node:path") ∉ stdlib_names javascript) ∧
  classify_by_segment javascript (str "node:path") = external.
Proof.
  split_and!; [done| |done].
  apply (bool_decide_unpack _). by vm_compute.
Qed.

(** C6, amended: a path marker makes a specifier local; otherwise it is
    builtin exactly when it starts with [node:] (JavaScript only) or its
    leading segment is in the standard-library set of the language, and
    external in every other case; a scoped name [@...] is external. *)
Theorem classify_rules (lang : language) (s : jsstring) :
  (path_marker lang s = true → parser_classify lang s = local) ∧
  (path_marker lang s = false →
     (parser_classify lang s = builtin ↔
        node_scheme lang s = true ∨ leading_segment lang s ∈ stdlib_names lang) ∧
     (parser_classify lang s ≠ builtin → parser_classify lang s = external)) ∧
  (node_scheme lang s = false →
     parser_classify lang s = classify_by_segment lang s) ∧
  (startsWith (str "@") s = true → parser_classify lang s = external).
Proof.
  split_and!.
  - destruct lang; cbn [path_marker parser_classify];
      unfold JavaScript.classify, Python.classify; by intros ->.
  - intros Hm.
    destruct lang;
      cbn [path_marker parser_classify node_scheme leading_segment
           stdlib_names] in *;
      unfold JavaScript.classify, Python.classify, JavaScript.isNodeBuiltin;
      rewrite Hm.
    + destruct (startsWith (str "node:") s) eqn:Hn.
      * split; [split; auto|done].
      * case_bool_decide as Hin; split; try done.
        -- split; auto.
        -- split; [done|]. by intros [|].
    + case_bool_decide as Hin; split; try done.
      * split; auto.
      * split; [done|]. by intros [|].
  - intros Hn.
    destruct lang;
      cbn [path_marker parser_classify node_scheme leading_segment
           stdlib_names] in *;
      unfold classify_by_segment, JavaScript.classify, Python.classify,
        JavaScript.isNodeBuiltin;
      cbn [path_marker parser_classify node_scheme leading_segment
           stdlib_names]; [by rewrite Hn|done].
  - destruct s as [|c t]; [done|].
    change (startsWith (str "@") (c :: t)) with (N.eqb 64 c && true).
    destruct (N.eqb_spec 64 c) as [<-|]; [|done]. intros _.
    change 64%N with (ch "@").
    destruct lang; cbn [parser_classify].
    + unfold JavaScript.classify, JavaScript.isNodeBuiltin.
      destruct (first_piece_cons (ch "/") (ch "@") t) as [w Hw]; [done|].
      rewrite Hw.
      change (startsWith (str ".") (ch "@" :: t)) with false.
      change (startsWith (str "/") (ch "@" :: t)) with false.
      change (startsWith (str "node:") (ch "@" :: t)) with false.
      cbn [orb]. rewrite bool_decide_eq_false_2; [done|].
      apply scoped_not_in_set, node_builtins_heads.
    + unfold Python.classify.
      destruct (first_piece_cons (ch ".") (ch "@") t) as [w Hw]; [done|].
      rewrite Hw.
      change (startsWith (str ".") (ch "@" :: t)) with false.
      cbn [orb]. rewrite bool_decide_eq_false_2; [done|].
      apply scoped_not_in_set, python_stdlib_heads.
Qed.

Lemma classify_rules_witness :
  parser_classify javascript (str "./local") = local ∧
  parser_classify python (str "os.path") = builtin ∧
  parser_classify javascript (str "@scope/pkg") = external.
Proof.
  split_and!.
  - by apply (classify_rules javascript (str "./local")).
  - destruct (classify_rules python (str "os.path")) as (_ & H & _).
    apply (H eq_refl). right. apply (bool_decide_unpack _). by vm_compute.
  - by apply (classify_rules javascript (str "@scope/pkg")).
Defined.

(** *** The path resolver *)

Section Resolver.

Variable fs : FileSystem.
Variable cwd : jsstring.

Lemma try_extensions_find rootDir target exts :
  try_extensions fs cwd rootDir target exts =
  match list_find (λ c : jsstring * bool, c.2 = true)
          (map (λ ext, (target ++ ext, regular fs (target ++ ext))) exts) with
  | Some (_, (f, _)) => Some (Path.relative cwd rootDir f)
  | None => None
  end.
Proof.
  induction exts as [|ext exts IH]; simpl; [done|].
  destruct (regular fs (target ++ ext)) eqn:Hr.
  - rewrite decide_True; done.
  - rewrite decide_False; [|done]. rewrite IH.
    destruct (list_find _ _) as [[i [f b]]|]; done.
Qed.

Lemma try_index_find rootDir target exts :
  try_index fs cwd rootDir target exts =
  match list_find (λ c : jsstring * bool, c.2 = true)
          (map (λ ext, (Path.join [target; str "index" ++ ext],
                        existsSync fs (Path.join [target; str "index" ++ ext])))
               exts) with
  | Some (_, (f, _)) => Some (Path.relative cwd rootDir f)
  | None => None
  end.
Proof.
  induction exts as [|ext exts IH]; simpl; [done|].
  destruct (existsSync fs (Path.join _)) eqn:Hr.
  - rewrite decide_True; done.
  - rewrite decide_False; [|done]. rewrite IH.
    destruct (list_find _ _) as [[i [f b]]|]; done.
Qed.

Lemma list_find_app_None {A} (P : A → Prop) `{∀ x, Decision (P x)} l1 l2 :
  list_find P l1 = None →
  list_find P (l1 ++ l2) = (λ x, (length l1 + x.1, x.2)) <$> list_find P l2.
Proof.
  induction l1 as [|a l1 IH]; simpl.
  - intros _. destruct (list_find P l2) as [[]|]; done.
  - case_decide; [done|]. intros Hn.
    destruct (list_find P l1) as [[]|] eqn:E; [done|].
    rewrite IH; [|done]. simpl. destruct (list_find P l2) as [[]|]; done.
Qed.

Lemma list_find_app_Some {A} (P : A → Prop) `{∀ x, Decision (P x)} l1 l2 r :
  list_find P l1 = Some r → list_find P (l1 ++ l2) = Some r.
Proof.
  revert r. induction l1 as [|a l1 IH]; simpl; [done|].
  intros r. case_decide; [done|].
  destruct (list_find P l1) as [[]|] eqn:E; [|done].
  rewrite (IH _ eq_refl). done.
Qed.

(** C7: [resolveLocal] is the ordered search of the specification: the
    exact path if it is a regular file, else the path with each extension
    of the language of the originating file, in the order of the list, if
    that is a regular file, else, when the path is an existing directory,
    [index<ext>] inside it, in the same order, if that exists; the first
    success wins, and the unresolved marker is returned only when every
    candidate fails. *)
Theorem resolveLocal_ordered_search (specifier fromFile rootDir : jsstring) :
  resolveLocal fs cwd specifier fromFile rootDir =
    resolveLocal_spec fs cwd specifier fromFile rootDir ∧
  (∀ r, resolveLocal fs cwd specifier fromFile rootDir = Some r ↔
        ∃ i f, candidates fs cwd specifier fromFile !! i = Some (f, true) ∧
               (∀ j g b, j < i →
                  candidates fs cwd specifier fromFile !! j = Some (g, b) →
                  b = false) ∧
               r = Path.relative cwd rootDir f) ∧
  (resolveLocal fs cwd specifier fromFile rootDir = None ↔
     ∀ c, c ∈ candidates fs cwd specifier fromFile → c.2 = false).
Proof.
  assert (Heq : resolveLocal fs cwd specifier fromFile rootDir =
                resolveLocal_spec fs cwd specifier fromFile rootDir).
  { unfold resolveLocal, resolveLocal_spec, candidates, language_extensions.
    set (target := Path.resolve cwd _).
    set (exts := match detectLanguage fromFile with
                 | Some l => EXTENSIONS l | None => [] end).
    cbn -[str]. destruct (regular fs target) eqn:Ht.
    - rewrite decide_True; done.
    - rewrite decide_False; [|done].
      rewrite try_extensions_find.
      destruct (list_find _ (map _ exts)) as [[i [f b]]|] eqn:E1.
      + rewrite (list_find_app_Some _ _ _ _ E1). done.
      + rewrite (list_find_app_None _ _ _ E1).
        destruct (existsSync fs target && isDirectory fs target).
        * rewrite try_index_find.
          match goal with
          | |- context [list_find ?P (map ?g exts)] =>
              destruct (list_find P (map g exts)) as [[? [? ?]]|]
          end; reflexivity.
        * reflexivity. }
  split; [done|]. rewrite Heq. unfold resolveLocal_spec. split.
  - intros r. split.
    + destruct (list_find _ _) as [[i [f b]]|] eqn:E; [|done].
      intros [= <-]. apply list_find_Some in E as (Hi & Hb & Hlt).
      simpl in Hb. subst b. exists i, f. split_and!; [done| |done].
      intros j g b Hj Hg. specialize (Hlt j (g, b) Hg Hj). simpl in Hlt.
      by destruct b.
    + intros (i & f & Hi & Hlt & ->).
      destruct (list_find _ _) as [[i' [f' b']]|] eqn:E.
      * apply list_find_Some in E as (Hi' & Hb' & Hlt'). simpl in Hb'. subst.
        destruct (decide (i' = i)) as [->|Hne]; [congruence|].
        destruct (decide (i' < i)).
        -- by specialize (Hlt _ _ _ l Hi').
        -- assert (i < i') as Hl by lia.
           specialize (Hlt' _ _ Hi Hl). done.
      * apply list_find_None in E. rewrite Forall_forall in E.
        apply list_elem_of_lookup_2 in Hi. by specialize (E _ Hi).
  - destruct (list_find _ _) as [[i [f b]]|] eqn:E.
    + split; [done|]. intros Hall.
      apply list_find_Some in E as (Hi & Hb & _).
      apply list_elem_of_lookup_2 in Hi. specialize (Hall _ Hi). simpl in *.
      congruence.
    + split; [|done]. intros _ c Hc.
      apply list_find_None in E. rewrite Forall_forall in E.
      specialize (E _ Hc). by destruct (c.2).
Qed.

End Resolver.

(** *** The empty list of entries *)

(** C10: on no entries [buildGraph] returns, whatever the fuel, the
    file system and the options, the graph whose five components are
    empty. *)
Theorem buildGraph_no_entries (fs : FileSystem) (cwd : jsstring) (fuel : nat)
    (opts : Options) :
  buildGraph fs cwd fuel [] opts = Returns empty_graph.
Proof. by destruct fuel. Qed.

(** *** The scanners never fail *)

Section Matcher.

Context {A : Type}.

Lemma rep_min_succ min max :
  min ≠ 0 → max ≠ Some 0 →
  rep_min min max = S (rep_min (Nat.pred min) (Nat.pred <$> max)).
Proof.
  destruct min as [|min]; [done|]. intros _.
  destruct max as [[|mx]|]; simpl; [done| |]; lia.
Qed.

Lemma rep_loop_advances n c
    (m : pos → option jsstring → (pos → option jsstring → option A) → option A)
    greedy fuel :
  advances n c m →
  ∀ min max x cap k v,
    min ≤ fuel →
    rep_loop m k greedy fuel min max x cap = Some v →
    ∃ y cap', k y cap' = Some v ∧
              length (p_rest y) + rep_min min max * n ≤ length (p_rest x) ∧
              (Nat.ltb 0 (rep_min min max) && c = true ∨ is_Some cap →
               is_Some cap').
Proof.
  intros Hm. induction fuel as [|fuel IH]; intros min max x cap k v Hle Hv.
  - assert (min = 0) as -> by lia.
    assert (k x cap = Some v) as Hk by (by destruct max as [[|]|]).
    exists x, cap. split_and!; [done| |].
    + destruct max; simpl; lia.
    + intros [H|H]; [|done]. by destruct max.
  - destruct (decide (max = Some 0)) as [->|Hmax].
    { exists x, cap. simpl in Hv. split_and!; [done|simpl; lia|].
      intros [H|H]; [|done]. simpl in H. by rewrite Nat.min_0_r in H. }
    assert (Hstep :
      ∀ y cap1,
        (if Nat.eqb min 0 && Nat.eqb (p_idx y) (p_idx x) then None
         else rep_loop m k greedy fuel (Nat.pred min) (Nat.pred <$> max) y cap1)
        = Some v →
        length (p_rest y) + n ≤ length (p_rest x) →
        (c = true ∨ is_Some cap → is_Some cap1) →
        ∃ y' cap', k y' cap' = Some v ∧
          length (p_rest y') + rep_min min max * n ≤ length (p_rest x) ∧
          (Nat.ltb 0 (rep_min min max) && c = true ∨ is_Some cap →
           is_Some cap')).
    { intros y cap1 Hd Hlen Hcap.
      destruct (Nat.eqb min 0 && Nat.eqb (p_idx y) (p_idx x)); [done|].
      apply IH in Hd as (y' & cap' & Hk & Hlen' & Hcap'); [|lia].
      exists y', cap'. split_and!; [done| |].
      - destruct (decide (min = 0)) as [->|Hmin].
        + destruct max; simpl in *; lia.
        + rewrite (rep_min_succ min max) by done. simpl. lia.
      - intros H. apply Hcap'. right. apply Hcap.
        destruct H as [H|H]; [|by right].
        apply andb_true_iff in H as [_ ->]. by left. }
    assert (Hstop : k x cap = Some v → min = 0 →
      ∃ y' cap', k y' cap' = Some v ∧
          length (p_rest y') + rep_min min max * n ≤ length (p_rest x) ∧
          (Nat.ltb 0 (rep_min min max) && c = true ∨ is_Some cap →
           is_Some cap')).
    { intros Hk ->. exists x, cap. split_and!; [done| |].
      - destruct max; simpl; lia.
      - intros [H|H]; [|done]. by destruct max. }
    assert (Hiter : ∀ w, m x cap (λ y cap1,
        if Nat.eqb min 0 && Nat.eqb (p_idx y) (p_idx x) then None
        else rep_loop m k greedy fuel (Nat.pred min) (Nat.pred <$> max) y cap1)
        = Some w → w = v →
      ∃ y' cap', k y' cap' = Some v ∧
          length (p_rest y') + rep_min min max * n ≤ length (p_rest x) ∧
          (Nat.ltb 0 (rep_min min max) && c = true ∨ is_Some cap →
           is_Some cap')).
    { intros w Hw ->. apply Hm in Hw as (y & cap1 & Hd & Hlen & Hcap).
      by apply (Hstep y cap1). }
    assert (rep_loop m k greedy (S fuel) min max x cap =
      let d := λ y cap1,
        if Nat.eqb min 0 && Nat.eqb (p_idx y) (p_idx x) then None
        else rep_loop m k greedy fuel (Nat.pred min) (Nat.pred <$> max) y cap1 in
      if negb (Nat.eqb min 0) then m x cap d
      else if greedy then or_else (m x cap d) (k x cap)
      else or_else (k x cap) (m x cap d)) as Heq.
    { destruct max as [[|]|]; done. }
    rewrite Heq in Hv. clear Heq. simpl in Hv.
    destruct (Nat.eqb_spec min 0) as [Hz|Hnz]; simpl in Hv.
    + destruct greedy.
      * destruct (m x cap _) as [w|] eqn:E; simpl in Hv.
        -- injection Hv as ->. by apply (Hiter v).
        -- by apply Hstop.
      * destruct (k x cap) as [w|] eqn:E; simpl in Hv.
        -- injection Hv as ->. by apply Hstop.
        -- by apply (Hiter v).
    + by apply (Hiter v).
Qed.

Lemma rmatch_advances ml r :
  advances (minlen r) (captures r) (λ x cap k, rmatch (A:=A) ml r x cap k).
Proof.
  induction r as [|f|a IHa b IHb|a IHa b IHb|min max greedy a IHa|a IHa| | |];
    intros x cap k v Hv; simpl in Hv.
  - exists x, cap. split_and!; [done|simpl; lia|]. by intros [|].
  - destruct (p_rest x) as [|ch0 t] eqn:Hx; [done|].
    destruct (f ch0); [|done].
    eexists _, _. split_and!; [done|simpl; lia|]. by intros [|].
  - apply IHa in Hv as (y & cap1 & Hv & Hl1 & Hc1).
    apply IHb in Hv as (z & cap2 & Hv & Hl2 & Hc2).
    exists z, cap2. split_and!; [done|simpl; lia|].
    simpl. intros [H|H].
    + apply orb_true_iff in H as [H|H].
      * apply Hc2. right. apply Hc1. by left.
      * apply Hc2. by left.
    + apply Hc2. right. apply Hc1. by right.
  - destruct (rmatch ml a x cap k) as [w|] eqn:E; simpl in Hv.
    + injection Hv as ->.
      apply IHa in E as (y & cap1 & Hv & Hl1 & Hc1).
      exists y, cap1. split_and!; [done|simpl; lia|].
      simpl. intros [H|H]; apply Hc1; [left|by right].
      by apply andb_true_iff in H as [-> _].
    + apply IHb in Hv as (y & cap1 & Hv & Hl1 & Hc1).
      exists y, cap1. split_and!; [done|simpl; lia|].
      simpl. intros [H|H]; apply Hc1; [left|by right].
      by apply andb_true_iff in H as [_ ->].
  - apply (rep_loop_advances _ _ _ _ _ IHa) in Hv; [|lia]. done.
  - apply IHa in Hv as (y & cap1 & Hv & Hl1 & _).
    eexists _, _. split_and!; [done|simpl; lia|]. intros _. by eexists.
  - destruct (at_bol ml x); [|done].
    exists x, cap. split_and!; [done|simpl; lia|]. by intros [|].
  - destruct (at_eol ml x); [|done].
    exists x, cap. split_and!; [done|simpl; lia|]. by intros [|].
  - destruct (xorb _ _); [|done].
    exists x, cap. split_and!; [done|simpl; lia|]. by intros [|].
Qed.

End Matcher.

Lemma match_at_advances ml r x y cap :
  match_at ml r x = Some (y, cap) →
  length (p_rest y) + minlen r ≤ length (p_rest x) ∧
  (captures r = true → is_Some cap).
Proof.
  unfold match_at. intros H.
  apply (rmatch_advances ml r) in H as (y' & cap' & [= -> ->] & Hl & Hc).
  split; [done|]. intros Hcap. apply Hc. by left.
Qed.

Lemma exec_from_advances ml r idx prev rest y cap :
  exec_from ml r idx prev rest = Some (y, cap) →
  length (p_rest y) + minlen r ≤ length rest ∧
  (captures r = true → is_Some cap).
Proof.
  revert idx prev. induction rest as [|c t IH]; intros idx prev; simpl.
  - destruct (match_at ml r _) as [[y' cap']|] eqn:E; [|done].
    intros [= -> ->]. by apply match_at_advances in E.
  - destruct (match_at ml r _) as [[y' cap']|] eqn:E.
    + intros [= -> ->]. by apply match_at_advances in E.
    + intros H. apply IH in H as [Hl Hc]. split; [lia|done].
Qed.

(** A loop over the matches of a pattern that cannot match the empty
    string and always sets its group ends, if its body does not throw. *)
Lemma collect_total fuel ml r body x deps :
  0 < minlen r → captures r = true →
  (∀ c d, is_Some (body c d)) →
  length (p_rest x) ≤ fuel →
  is_Some (collect fuel ml r body x deps).
Proof.
  intros Hmin Hcap Hbody. revert x deps.
  induction fuel as [|fuel IH]; intros x deps Hlen; simpl.
  - destruct (exec ml r x) as [[y cap]|] eqn:E; [|done].
    apply exec_from_advances in E as [Hl _]. lia.
  - destruct (exec ml r x) as [[y cap]|] eqn:E; [|done].
    apply exec_from_advances in E as [Hl Hc].
    destruct (Hc Hcap) as [c ->].
    destruct (Hbody c deps) as [deps' ->]. simpl.
    apply IH. lia.
Qed.

Lemma js_skip_line_length s :
  length (JavaScript.skip_line s) ≤ length s.
Proof. induction s as [|c t IH]; simpl; [done|]. destruct (N.eqb _ _); simpl; lia. Qed.

Lemma js_skip_block_length s :
  length (JavaScript.skip_block s) ≤ length s.
Proof.
  induction s as [|c t IH]; [done|].
  change (JavaScript.skip_block (c :: t)) with
    (match t with
     | d :: _ => if N.eqb c (ch "*") && N.eqb d (ch "/") then c :: t
                 else JavaScript.skip_block t
     | [] => JavaScript.skip_block t
     end).
  destruct t as [|d t']; [simpl; lia|].
  destruct (_ && _); simpl in *; lia.
Qed.

Lemma js_copy_literal_length q s :
  length (JavaScript.copy_literal q s).2 ≤ length s.
Proof.
  induction s as [s IH] using (induction_ltof1 _ (@length N)).
  unfold ltof in IH. destruct s as [|c t]; [done|]. simpl.
  destruct (N.eqb c q); [done|].
  destruct (N.eqb c (ch "\")).
  - destruct t as [|d t']; [simpl; lia|].
    specialize (IH t'). destruct (JavaScript.copy_literal q t'). simpl in *.
    etrans; [apply IH; lia|lia].
  - specialize (IH t). destruct (JavaScript.copy_literal q t). simpl in *.
    etrans; [apply IH; lia|lia].
Qed.

Lemma js_strip_step_length c t :
  length (JavaScript.strip_step c t).2 ≤ length t.
Proof.
  unfold JavaScript.strip_step.
  destruct (N.eqb c (ch "/") && bool_decide (head t = Some (ch "/"))) eqn:E1.
  { apply andb_true_iff in E1 as [Hc _]. apply N.eqb_eq in Hc as ->.
    simpl. apply js_skip_line_length. }
  destruct (N.eqb c (ch "/") && bool_decide (head t = Some (ch "*"))) eqn:E2.
  { cbn [snd]. rewrite length_drop.
    pose proof (js_skip_block_length (drop 2 (c :: t))) as H.
    rewrite length_drop in H. simpl in *. lia. }
  destruct (_ || _).
  - pose proof (js_copy_literal_length c t) as H.
    destruct (JavaScript.copy_literal c t) as [o r]. simpl in H.
    destruct r as [|d r]; simpl in *; lia.
  - done.
Qed.

Lemma js_stripComments_total source :
  is_Some (JavaScript.stripComments source).
Proof.
  unfold JavaScript.stripComments.
  assert (∀ fuel s result, length s ≤ fuel →
            is_Some (JavaScript.strip_loop fuel s result)) as H.
  { induction fuel as [|fuel IH]; intros s result Hl.
    - destruct s; [by eexists|simpl in Hl; lia].
    - destruct s as [|c t]; [by eexists|]. simpl.
      pose proof (js_strip_step_length c t) as Hs.
      destruct (JavaScript.strip_step c t) as [o r]. simpl in *.
      apply IH. lia. }
  by apply H.
Qed.

Lemma py_skip_line_length s :
  length (Python.skip_line s) ≤ length s.
Proof. induction s as [|c t IH]; simpl; [done|]. destruct (N.eqb _ _); simpl; lia. Qed.

Lemma py_skip_triple_length q s :
  length (Python.skip_triple q s) ≤ length s.
Proof.
  induction s as [|c t IH]; [done|].
  change (Python.skip_triple q (c :: t)) with
    (if bool_decide (take 3 (c :: t) = [q; q; q]) then c :: t
     else Python.skip_triple q t).
  case_bool_decide; simpl; lia.
Qed.

Lemma py_copy_literal_length q s :
  length (Python.copy_literal q s).2 ≤ length s.
Proof.
  induction s as [s IH] using (induction_ltof1 _ (@length N)).
  unfold ltof in IH. destruct s as [|c t]; [done|]. simpl.
  destruct (N.eqb c q); [done|].
  destruct (N.eqb c (ch "\")).
  - destruct t as [|d t']; [simpl; lia|].
    specialize (IH t'). destruct (Python.copy_literal q t'). simpl in *.
    etrans; [apply IH; lia|lia].
  - specialize (IH t). destruct (Python.copy_literal q t). simpl in *.
    etrans; [apply IH; lia|lia].
Qed.

Lemma py_strip_step_length c t :
  length (Python.strip_step c t).2 ≤ length t.
Proof.
  unfold Python.strip_step.
  destruct (_ && _) eqn:E1.
  { cbn [snd]. rewrite length_drop.
    pose proof (py_skip_triple_length c (drop 3 (c :: t))) as H.
    rewrite length_drop in H. simpl in *. lia. }
  destruct (N.eqb_spec c (ch "#")) as [->|_].
  { simpl. apply py_skip_line_length. }
  destruct (_ || _).
  - pose proof (py_copy_literal_length c t) as H.
    destruct (Python.copy_literal c t) as [o r]. simpl in H.
    destruct r as [|d r]; simpl in *; lia.
  - done.
Qed.

Lemma py_stripComments_total source :
  is_Some (Python.stripComments source).
Proof.
  unfold Python.stripComments.
  assert (∀ fuel s result, length s ≤ fuel →
            is_Some (Python.strip_loop fuel s result)) as H.
  { induction fuel as [|fuel IH]; intros s result Hl.
    - destruct s; [by eexists|simpl in Hl; lia].
    - destruct s as [|c t]; [by eexists|]. simpl.
      pose proof (py_strip_step_length c t) as Hs.
      destruct (Python.strip_step c t) as [o r]. simpl in *.
      apply IH. lia. }
  by apply H.
Qed.

Lemma py_import_body_total c deps : is_Some (Python.import_body c deps).
Proof.
  unfold Python.import_body. generalize (split_on (ch ",") c). intros l.
  revert deps. induction l as [|m ms IH]; intros deps; simpl; [by eexists|].
  unfold Python.import_item.
  assert (is_Some (split_head Python.asPattern (trim m))) as [piece ->].
  { unfold split_head. destruct (trim m); [|by eexists].
    assert (match_at false Python.asPattern (start_pos []) = None) as ->
      by (by vm_compute).
    by eexists. }
  simpl. apply IH.
Qed.

Lemma js_scan_total stripped : is_Some (JavaScript.scan stripped).
Proof.
  unfold JavaScript.scan.
  assert (∀ r deps, 0 < minlen r → captures r = true →
            is_Some (collect (length stripped) true r
                       (λ c d, Some (set_add c d)) (start_pos stripped) deps))
    as H.
  { intros r deps H1 H2. apply collect_total; [done|done| |done].
    intros; by eexists. }
  destruct (H JavaScript.esImport []) as [d1 ->];
    [vm_compute; lia|done|]. simpl.
  destruct (H JavaScript.esExport d1) as [d2 ->];
    [vm_compute; lia|done|]. simpl.
  destruct (H JavaScript.cjsRequire d2) as [d3 ->];
    [vm_compute; lia|done|]. simpl.
  apply H; [vm_compute; lia|done].
Qed.

Lemma py_scan_total stripped : is_Some (Python.scan stripped).
Proof.
  unfold Python.scan.
  destruct (collect_total (length stripped) true Python.fromPattern
              Python.from_body (start_pos stripped) []) as [d1 ->];
    [vm_compute; lia|done|intros; by eexists|done|]. simpl.
  apply collect_total; [vm_compute; lia|done| |done].
  apply py_import_body_total.
Qed.

(** C9: on every input text both [parse] functions return an array of
    specifiers: no loop of the scanners goes on for ever, no capture is
    [undefined] where it is used, and nothing throws. *)
Theorem parse_never_throws (lang : language) (source : jsstring) :
  ∃ deps, parser_parse lang source = Some deps.
Proof.
  destruct lang; simpl.
  - unfold JavaScript.parse.
    destruct (js_stripComments_total source) as [stripped ->]. simpl.
    apply js_scan_total.
  - unfold Python.parse.
    destruct (py_stripComments_total source) as [stripped ->]. simpl.
    apply py_scan_total.
Qed.

(** *** The effect of one specifier, one file, one iteration *)

Section Effects.

Variable fs : FileSystem.
Variable cwd : jsstring.
Variable opts : Options.

Lemma process_dep_effect lang relPath file_ depth_ st dep :
  let st' := process_dep fs cwd opts lang relPath file_ depth_ st dep in
  nodes st' = nodes st ∧ visited st' = visited st ∧
  edges st' = edges st ++ dep_edges fs cwd opts lang relPath file_ dep ∧
  queue st' = queue st ++ dep_pushes fs cwd opts lang file_ depth_ dep ∧
  unresolved st' =
    unresolved st ++ dep_unresolved fs cwd opts lang relPath file_ dep.
Proof.
  unfold process_dep, dep_edges, dep_pushes, dep_unresolved, dep_resolved.
  destruct (parser_classify lang dep).
  - destruct (resolveLocal _ _ _ _ _) as [r|]; [destruct (truthy r)|];
      [destruct (depth_lt _ _)| |]; simpl; by rewrite ?app_nil_r.
  - destruct (includeBuiltin opts); simpl; by rewrite ?app_nil_r.
  - destruct (includeExternal opts); simpl; by rewrite ?app_nil_r.
Qed.

Lemma process_deps_effect lang relPath file_ depth_ deps st :
  let st' := foldl (process_dep fs cwd opts lang relPath file_ depth_) st deps in
  nodes st' = nodes st ∧ visited st' = visited st ∧
  edges st' =
    edges st ++ flat_map (dep_edges fs cwd opts lang relPath file_) deps ∧
  queue st' =
    queue st ++ flat_map (dep_pushes fs cwd opts lang file_ depth_) deps ∧
  unresolved st' =
    unresolved st ++
    flat_map (dep_unresolved fs cwd opts lang relPath file_) deps.
Proof.
  revert st. induction deps as [|dep deps IH]; intros st; simpl.
  - by rewrite !app_nil_r.
  - destruct (IH (process_dep fs cwd opts lang relPath file_ depth_ st dep))
      as (-> & -> & -> & -> & ->).
    destruct (process_dep_effect lang relPath file_ depth_ st dep)
      as (-> & -> & -> & -> & ->).
    by rewrite <- !app_assoc.
Qed.

Lemma visit_cases item st st' :
  visit fs cwd opts item st = Some st' → visit_case fs cwd opts item st st'.
Proof.
  unfold visit. fold (relPath_of cwd opts (file item)).
  case_bool_decide as Hv.
  { intros [= <-]. by apply visit_again. }
  destruct (existsSync fs (file item)) eqn:He; simpl.
  2: { intros [= <-]. apply visit_skip; auto. }
  destruct (detectLanguage (file item)) as [lang|] eqn:Hl.
  2: { intros [= <-]. apply visit_skip; auto. }
  unfold scan_file.
  destruct (readFileSync fs (file item)) as [source|] eqn:Hr; [|done]. simpl.
  destruct (parser_parse lang source) as [deps|] eqn:Hp; [|done]. simpl.
  intros [= <-]. by eapply visit_scan.
Qed.

(** An invariant of the iterations holds when the loop returns, and the
    queue is then empty. *)
Lemma loop_invariant (P : State → Prop) :
  (∀ item q st st', P st → queue st = item :: q →
     visit fs cwd opts item (set_queue q st) = Some st' → P st') →
  ∀ fuel st st', P st → loop fs cwd fuel opts st = Returns st' →
    P st' ∧ queue st' = [].
Proof.
  intros Hstep. induction fuel as [|fuel IH]; intros st st' HP; simpl.
  - destruct (queue st) eqn:Hq; [|done]. by intros [= <-].
  - destruct (queue st) as [|item q] eqn:Hq; [by intros [= <-]|].
    destruct (visit fs cwd opts item (set_queue q st)) as [st1|] eqn:Hv; [|done].
    apply IH. by eapply Hstep.
Qed.

End Effects.

(** *** Paths: resolving a relative path gives the path back *)

Section PathFacts.

Import Path.

Lemma split_on_nonempty c s : split_on c s ≠ [].
Proof.
  destruct s as [|a s]; simpl; [done|].
  destruct (N.eqb a c); [done|]. by destruct (split_on c s).
Qed.

Lemma split_on_app c a b :
  split_on c (a ++ c :: b) = split_on c a ++ split_on c b.
Proof.
  induction a as [|x a IH]; simpl.
  - by rewrite N.eqb_refl.
  - destruct (N.eqb x c); [by rewrite IH|].
    rewrite IH. pose proof (split_on_nonempty c a).
    by destruct (split_on c a).
Qed.

Lemma split_on_nosep c a : c ∉ a → split_on c a = [a].
Proof.
  induction a as [|x a IH]; simpl; [done|].
  rewrite not_elem_of_cons. intros [Hx Ha].
  destruct (N.eqb_spec x c); [congruence|]. by rewrite IH.
Qed.

Lemma split_on_pieces c s : Forall (λ w, c ∉ w) (split_on c s).
Proof.
  induction s as [|x s IH]; simpl.
  - repeat constructor. set_solver.
  - destruct (N.eqb_spec x c).
    + constructor; [set_solver|done].
    + destruct (split_on c s) as [|w ws].
      { repeat constructor. by intros [|?%elem_of_nil]%elem_of_cons. }
      inversion IH; subst. constructor; [|done].
      rewrite not_elem_of_cons. done.
Qed.

Lemma split_on_join l :
  l ≠ [] → Forall (λ w, sep ∉ w) l → split_on sep (join_segments l) = l.
Proof.
  induction l as [|a l IH]; [done|]. intros _ HF.
  inversion HF as [|? ? Ha Hl]; subst.
  destruct l as [|b l]; [by apply split_on_nosep|].
  change (join_segments (a :: b :: l)) with (a ++ sep :: join_segments (b :: l)).
  rewrite split_on_app, split_on_nosep by done.
  by rewrite IH.
Qed.

Lemma norm_step_clean a stack seg :
  clean seg → norm_step a stack seg = seg :: stack.
Proof.
  unfold clean. intros (Ha & Hb & Hd & _). unfold norm_step.
  by rewrite !bool_decide_eq_false_2.
Qed.

Lemma norm_step_empty a stack : norm_step a stack [] = stack.
Proof. done. Qed.

Lemma norm_push a stack l :
  Forall clean l → foldl (norm_step a) stack l = rev l ++ stack.
Proof.
  revert stack. induction l as [|seg l IH]; intros stack HF; [done|].
  inversion HF; subst. simpl. rewrite norm_step_clean by done.
  rewrite IH by done. by rewrite <- app_assoc.
Qed.

Lemma norm_pop stack f :
  Forall clean f →
  foldl (norm_step false) (rev f ++ stack) (replicate (length f) (str "..")) =
  stack.
Proof.
  induction f as [|seg f IH] using rev_ind; intros HF; [done|].
  apply Forall_app in HF as [Hf Hseg]. inversion Hseg as [|? ? Hc _]; subst.
  rewrite length_app, Nat.add_comm. simpl.
  rewrite rev_app_distr. simpl.
  unfold norm_step at 2. simpl.
  destruct Hc as (_ & _ & Hdd & _).
  rewrite (bool_decide_eq_false_2 (seg = str "..")) by done.
  by apply IH.
Qed.

Lemma norm_stack_clean stack l :
  Forall clean stack → Forall (λ w, sep ∉ w) l →
  Forall clean (foldl (norm_step false) stack l).
Proof.
  revert stack. induction l as [|seg l IH]; intros stack Hs Hl; [done|].
  inversion Hl as [|? ? Hseg Hl']; subst. simpl. apply IH; [|done].
  unfold norm_step.
  case_bool_decide as Ha; [done|]. case_bool_decide as Hb; [done|]. simpl.
  case_bool_decide as Hd.
  - destruct stack as [|top stack']; [done|].
    inversion Hs; subst. by case_bool_decide.
  - constructor; [|done]. by split_and!.
Qed.

Lemma norm_segments_clean p : Forall clean (norm_segments false p).
Proof.
  unfold norm_segments. apply Forall_rev.
  apply norm_stack_clean; [done|apply split_on_pieces].
Qed.

Lemma join_segments_head l :
  Forall clean l → isAbsolute (join_segments l) = false.
Proof.
  destruct l as [|a l]; [done|]. intros HF. inversion HF as [|? ? Ha _]; subst.
  destruct Ha as (Hne & _ & _ & Hs).
  destruct a as [|x a]; [done|].
  assert (isAbsolute (x :: a ++ match l with [] => [] | _ => sep :: join_segments l end) = false) as H.
  { simpl. apply not_elem_of_cons in Hs as [Hx _].
    destruct (N.eqb_spec x sep); congruence. }
  destruct l; [by rewrite app_nil_r in H|done].
Qed.

Lemma filter_all {A} (P : A → Prop) `{∀ x, Decision (P x)} l :
  Forall P l → filter P l = l.
Proof.
  induction 1 as [|x l Hx _ IH]; [done|].
  rewrite filter_cons_True by done. by rewrite IH.
Qed.

Lemma segments_join l :
  Forall clean l → segments (sep :: join_segments l) = l.
Proof.
  intros HF. unfold segments. simpl. rewrite ?N.eqb_refl.
  rewrite filter_cons_False by (by intros []).
  destruct (decide (l = [])) as [->|Hne]; [done|].
  rewrite split_on_join; [|done|].
  - apply filter_all. eapply Forall_impl; [done|]. by intros ? [].
  - eapply Forall_impl; [done|]. by intros ? (_ & _ & _ & ?).
Qed.

Lemma resolve_loop_acc paths acc :
  resolve_loop paths acc =
  ((resolve_loop paths []).1 ++ acc, (resolve_loop paths []).2).
Proof.
  revert acc. induction paths as [|p paths IH]; intros acc; [done|].
  destruct p as [|c p]; [apply IH|].
  cbn [resolve_loop]. destruct (isAbsolute (c :: p)).
  - simpl. by rewrite <- app_assoc.
  - rewrite IH. rewrite (IH ((c :: p) ++ [sep])). cbn [fst snd].
    by rewrite <- !app_assoc.
Qed.

Lemma resolve_loop_relative rel rest acc :
  rel ≠ [] → isAbsolute rel = false →
  resolve_loop (rel :: rest) acc = resolve_loop rest (rel ++ sep :: acc).
Proof. destruct rel; [done|]. intros _ Ha. cbn [resolve_loop]. by rewrite Ha. Qed.

Lemma resolve_loop_absolute cwd l :
  isAbsolute cwd = true → (resolve_loop (l ++ [cwd]) []).2 = true.
Proof.
  intros Hc. induction l as [|p l IH].
  - simpl. destruct cwd; [done|]. by rewrite Hc.
  - destruct p as [|c p]; [done|].
    change (resolve_loop (((c :: p) :: l) ++ [cwd]) []) with
      (if isAbsolute (c :: p) then ((c :: p) ++ [sep], true)
       else resolve_loop (l ++ [cwd]) ((c :: p) ++ [sep])).
    destruct (isAbsolute (c :: p)); [done|].
    by rewrite resolve_loop_acc.
Qed.

Lemma resolve_loop_ends paths :
  (resolve_loop paths []).2 = true →
  ∃ p0, (resolve_loop paths []).1 = p0 ++ [sep].
Proof.
  induction paths as [|p paths IH]; [done|].
  destruct p as [|c p]; [done|].
  change (resolve_loop ((c :: p) :: paths) []) with
      (if isAbsolute (c :: p) then ((c :: p) ++ [sep], true)
       else resolve_loop paths ((c :: p) ++ [sep])).
  destruct (isAbsolute (c :: p)); [by eexists|].
  rewrite resolve_loop_acc. cbn [fst snd]. intros Ha.
  exists ((resolve_loop paths []).1 ++ c :: p). by rewrite <- app_assoc.
Qed.

(** With an absolute working directory [resolve] returns [/] followed
    by clean segments. *)
Lemma resolve_shape cwd args :
  isAbsolute cwd = true →
  ∃ p0, (resolve_loop (rev args ++ [cwd]) []).1 = p0 ++ [sep] ∧
        resolve cwd args = sep :: join_segments (norm_segments false (p0 ++ [sep])) ∧
        segments (resolve cwd args) = norm_segments false (p0 ++ [sep]).
Proof.
  intros Hc. pose proof (resolve_loop_absolute cwd (rev args) Hc) as Ha.
  destruct (resolve_loop_ends _ Ha) as [p0 Hp]. exists p0.
  assert (resolve cwd args =
          sep :: join_segments (norm_segments false (p0 ++ [sep]))) as Hr.
  { unfold resolve. destruct (resolve_loop (rev args ++ [cwd]) []) as [p a].
    simpl in *. subst. done. }
  split_and!; [done|done|].
  rewrite Hr. apply segments_join, norm_segments_clean.
Qed.

Lemma norm_segments_snoc p0 :
  norm_segments false (p0 ++ [sep]) = rev (foldl (norm_step false) [] (split_on sep p0)).
Proof.
  unfold norm_segments. rewrite split_on_app. simpl.
  by rewrite foldl_app.
Qed.

Lemma resolve_normalized cwd l :
  isAbsolute cwd = true → Forall clean l →
  resolve cwd [sep :: join_segments l] = sep :: join_segments l.
Proof.
  intros Hc HF. unfold resolve.
  change (rev [sep :: join_segments l] ++ [cwd]) with
    [sep :: join_segments l; cwd].
  change (resolve_loop [sep :: join_segments l; cwd] []) with
    ((sep :: join_segments l) ++ [sep], true).
  cbn [negb]. f_equal. unfold normalizeString. f_equal.
  rewrite norm_segments_snoc. simpl. rewrite ?N.eqb_refl. simpl.
  destruct (decide (l = [])) as [->|Hne]; [done|].
  rewrite split_on_join; [|done|].
  - rewrite norm_push by done. by rewrite app_nil_r, rev_involutive.
  - eapply Forall_impl; [done|]. by intros ? (_ & _ & _ & ?).
Qed.

Lemma strip_common_spec a b f t :
  strip_common a b = (f, t) →
  ∃ c, a = c ++ f ∧ b = c ++ t ∧ strip_common f t = (f, t).
Proof.
  revert b. induction a as [|x a IH]; intros b.
  - simpl. intros [= <- <-]. by exists [].
  - destruct b as [|y b]; simpl.
    + intros [= <- <-]. by exists [].
    + case_bool_decide as Hxy.
      * subst y. intros H. apply IH in H as (c & -> & -> & H).
        by exists (x :: c).
      * intros [= <- <-]. exists []. split_and!; [done|done|].
        simpl. by rewrite bool_decide_eq_false_2.
Qed.

Lemma strip_common_prefix c f t :
  strip_common (c ++ f) (c ++ t) = strip_common f t.
Proof.
  induction c as [|x c IH]; [done|]. simpl. by rewrite bool_decide_eq_true_2.
Qed.

Lemma clean_dotdot_free f : Forall clean f → Forall (λ w, sep ∉ w) f.
Proof. intros H. eapply Forall_impl; [done|]. by intros ? (_ & _ & _ & ?). Qed.

(** The round trip of the builder: a path made relative to the root and
    then resolved against the root is queued under a file whose relative
    path is the one it started from. *)
Lemma relative_resolve cwd root x :
  isAbsolute cwd = true →
  relative cwd root x ≠ [] →
  relative cwd root (resolve cwd [root; relative cwd root x]) =
  relative cwd root x.
Proof.
  intros Hc Hne.
  destruct (resolve_shape cwd [root] Hc) as (pr & Hpr & Hrr & Hsr).
  destruct (resolve_shape cwd [x] Hc) as (px & Hpx & Hrx & Hsx).
  remember (relative cwd root x) as rel eqn:Hreldef.
  assert (∃ c f t, norm_segments false (pr ++ [sep]) = c ++ f ∧
                   norm_segments false (px ++ [sep]) = c ++ t ∧
                   strip_common f t = (f, t) ∧
                   rel = join_segments (replicate (length f) (str "..") ++ t))
    as (c & f & t & Hr & Hx & Hft & Hrel).
  { rewrite Hreldef. unfold relative. rewrite Hsr, Hsx.
    destruct (strip_common _ _) as [f t] eqn:E.
    apply strip_common_spec in E as (c & ? & ? & ?). by exists c, f, t. }
  pose proof (norm_segments_clean (pr ++ [sep])) as Hcr.
  pose proof (norm_segments_clean (px ++ [sep])) as Hcx.
  rewrite Hr in Hcr. rewrite Hx in Hcx.
  apply Forall_app in Hcr as [Hcc Hcf]. apply Forall_app in Hcx as [_ Hct].
  set (ups := replicate (length f) (str "..")) in *.
  assert (Forall (λ w, sep ∉ w) (ups ++ t)) as Hnosep.
  { apply Forall_app. split; [|by apply clean_dotdot_free].
    apply Forall_replicate. apply (bool_decide_unpack _). by vm_compute. }
  assert (ups ++ t ≠ []) as Hnil.
  { intros E. rewrite E in Hrel. done. }
  assert (isAbsolute rel = false) as Hrelabs.
  { rewrite Hrel. destruct f as [|f0 f].
    - simpl. by apply join_segments_head.
    - simpl. destruct (replicate (length f) (str "..") ++ t); done. }
  assert (resolve cwd [root; rel] = sep :: join_segments (c ++ t)) as Hres.
  { unfold resolve.
    change (rev [root; rel] ++ [cwd]) with (rel :: rev [root] ++ [cwd]).
    rewrite resolve_loop_relative by done. rewrite resolve_loop_acc.
    rewrite (resolve_loop_absolute cwd (rev [root]) Hc). rewrite Hpr.
    cbn [fst snd negb]. f_equal. unfold normalizeString. f_equal.
    unfold norm_segments.
    rewrite <- app_assoc. change ([sep] ++ rel ++ [sep]) with (sep :: (rel ++ [sep])).
    rewrite split_on_app, split_on_app. rewrite !foldl_app. simpl.
    rewrite norm_segments_snoc in Hr.
    assert (foldl (norm_step false) [] (split_on sep pr) = rev f ++ rev c) as ->.
    { rewrite <- rev_app_distr, <- Hr. by rewrite rev_involutive. }
    rewrite Hrel. rewrite split_on_join by done.
    rewrite foldl_app. unfold ups. rewrite norm_pop by done.
    rewrite norm_push by done. rewrite norm_step_empty.
    by rewrite rev_app_distr, !rev_involutive. }
  rewrite Hres. unfold relative at 1.
  rewrite (resolve_normalized cwd (c ++ t) Hc) by (by apply Forall_app).
  rewrite segments_join by (by apply Forall_app).
  rewrite Hsr, Hr, strip_common_prefix, Hft. done.
Qed.

End PathFacts.

(** *** Resolving against the root what was made relative to it *)

Section PathRoundTrip.

Import Path.

Variable cwd : jsstring.
Hypothesis cwd_absolute : isAbsolute cwd = true.

Lemma resolve_idem args : resolve cwd [resolve cwd args] = resolve cwd args.
Proof.
  destruct (resolve_shape cwd args cwd_absolute) as (p0 & _ & -> & _).
  apply resolve_normalized; [done|]. apply norm_segments_clean.
Qed.

Lemma resolve_relative root x :
  resolve cwd [root; relative cwd root x] = resolve cwd [x].
Proof.
  pose proof cwd_absolute as Hc.
  destruct (resolve_shape cwd [root] Hc) as (pr & Hpr & Hrr & Hsr).
  destruct (resolve_shape cwd [x] Hc) as (px & Hpx & Hrx & Hsx).
  remember (relative cwd root x) as rel eqn:Hreldef.
  assert (∃ c f t, norm_segments false (pr ++ [sep]) = c ++ f ∧
                   norm_segments false (px ++ [sep]) = c ++ t ∧
                   strip_common f t = (f, t) ∧
                   rel = join_segments (replicate (length f) (str "..") ++ t))
    as (c & f & t & Hr & Hx & Hft & Hrel).
  { rewrite Hreldef. unfold relative. rewrite Hsr, Hsx.
    destruct (strip_common _ _) as [f t] eqn:E.
    apply strip_common_spec in E as (c & ? & ? & ?). by exists c, f, t. }
  pose proof (norm_segments_clean (pr ++ [sep])) as Hcr.
  pose proof (norm_segments_clean (px ++ [sep])) as Hcx.
  rewrite Hr in Hcr. rewrite Hx in Hcx.
  apply Forall_app in Hcr as [Hcc Hcf]. apply Forall_app in Hcx as [_ Hct].
  rewrite Hrx, Hx.
  set (ups := replicate (length f) (str "..")) in *.
  destruct (decide (ups ++ t = [])) as [Hnil|Hnil].
  { apply app_eq_nil in Hnil as [Hups ->].
    destruct f as [|f0 f]; [|done].
    rewrite Hrel. simpl.
    change (resolve cwd [root; []]) with (resolve cwd [root]).
    by rewrite Hrr, Hr. }
  assert (Forall (λ w, sep ∉ w) (ups ++ t)) as Hnosep.
  { apply Forall_app. split; [|by apply clean_dotdot_free].
    apply Forall_replicate. apply (bool_decide_unpack _). by vm_compute. }
  assert (rel ≠ []) as Hne.
  { rewrite Hrel. destruct (ups ++ t) as [|a l] eqn:E; [done|].
    assert (a ≠ []) as Ha.
    { assert (Forall (λ w, w ≠ []) (ups ++ t)) as HF.
      { apply Forall_app. split.
        - by apply Forall_replicate.
        - eapply Forall_impl; [done|]. by intros ? (? & _). }
      rewrite E in HF. by apply Forall_cons in HF as [? _]. }
    destruct a; [done|]. by destruct l. }
  assert (isAbsolute rel = false) as Hrelabs.
  { rewrite Hrel. unfold ups. destruct f as [|f0 f].
    - simpl. by apply join_segments_head.
    - simpl. destruct (replicate (length f) (str "..") ++ t); done. }
  unfold resolve.
  change (rev [root; rel] ++ [cwd]) with (rel :: rev [root] ++ [cwd]).
  rewrite resolve_loop_relative by done. rewrite resolve_loop_acc.
  rewrite (resolve_loop_absolute cwd (rev [root]) Hc). rewrite Hpr.
  cbn [fst snd negb]. f_equal. unfold normalizeString. f_equal.
  unfold norm_segments.
  rewrite <- app_assoc. change ([sep] ++ rel ++ [sep]) with (sep :: (rel ++ [sep])).
  rewrite split_on_app, split_on_app. rewrite !foldl_app. simpl.
  rewrite norm_segments_snoc in Hr.
  assert (foldl (norm_step false) [] (split_on sep pr) = rev f ++ rev c) as ->.
  { rewrite <- rev_app_distr, <- Hr. by rewrite rev_involutive. }
  rewrite Hrel. rewrite split_on_join by done.
  rewrite foldl_app. unfold ups. rewrite norm_pop by done.
  rewrite norm_push by done. rewrite norm_step_empty.
  by rewrite rev_app_distr, !rev_involutive.
Qed.

End PathRoundTrip.

(** *** Nodes, edges and the visited set *)

Section InvariantProofs.

Variable fs : FileSystem.
Variable cwd : jsstring.
Variable opts : Options.

Lemma elem_of_flat_map {A B} (f : A → list B) (l : list A) (x : B) :
  x ∈ flat_map f l ↔ ∃ y, y ∈ l ∧ x ∈ f y.
Proof.
  rewrite list_elem_of_In, in_flat_map.
  split; intros (y & Hy & Hx); exists y; by rewrite ?list_elem_of_In in *.
Qed.

Lemma map_set_fresh key n m :
  key ∉ map path m → map_set key n m = m ++ [n].
Proof.
  induction m as [|a m IH]; simpl; [done|].
  rewrite not_elem_of_cons. intros [Ha Hm].
  rewrite bool_decide_eq_false_2 by done. by rewrite IH.
Qed.

Lemma dep_edges_from lang relPath file_ dep e :
  e ∈ dep_edges fs cwd opts lang relPath file_ dep →
  from e = relPath ∧ specifier e = dep.
Proof.
  unfold dep_edges.
  destruct (parser_classify lang dep).
  - destruct (dep_resolved _ _ _ _ _); [|by intros ?%elem_of_nil].
    by intros ->%list_elem_of_singleton.
  - destruct (includeBuiltin opts); [|by intros ?%elem_of_nil].
    by intros ->%list_elem_of_singleton.
  - destruct (includeExternal opts); [|by intros ?%elem_of_nil].
    by intros ->%list_elem_of_singleton.
Qed.

Lemma dep_unresolved_from lang relPath file_ dep u :
  u ∈ dep_unresolved fs cwd opts lang relPath file_ dep →
  u = Build_UnresolvedImport relPath dep.
Proof.
  unfold dep_unresolved.
  destruct (parser_classify lang dep); try by intros ?%elem_of_nil.
  destruct (dep_resolved _ _ _ _ _); [by intros ?%elem_of_nil|].
  by intros ->%list_elem_of_singleton.
Qed.

Lemma init_graph_inv entries : graph_inv fs cwd opts (init cwd entries opts).
Proof.
  split; simpl; try (by intros ? ?%elem_of_nil).
  constructor.
Qed.

Lemma visit_graph_inv item q st st' :
  graph_inv fs cwd opts st →
  visit fs cwd opts item (set_queue q st) = Some st' →
  graph_inv fs cwd opts st'.
Proof.
  intros [Hnd Hn He Hu] Hvisit.
  apply visit_cases in Hvisit as [Hin ->|Hnin Hskip ->|
    lang source deps Hnin Hex Hlang Hread Hparse ->]; simpl in *.
  - by split.
  - split; simpl; try done.
    intros n Hnn. destruct (Hn n Hnn) as [? ?].
    split; [apply elem_of_union; by right|done].
  - set (relPath := relPath_of cwd opts (file item)) in *.
    set (node := Build_Node relPath lang (length deps)).
    destruct (process_deps_effect fs cwd opts lang relPath (file item)
                (depth item) deps
                (set_node relPath node (add_visited relPath (set_queue q st))))
      as (Hnodes & Hvis & Hedges & _ & Hunres).
    simpl in *.
    assert (relPath ∉ map path (nodes st)) as Hfresh.
    { intros (n & Hp & Hnn)%list_elem_of_fmap.
      destruct (Hn n Hnn) as [Hnv _]. rewrite <- Hp in Hnv. done. }
    rewrite map_set_fresh in Hnodes by done.
    split; unfold node_paths.
    + rewrite Hnodes, map_app. simpl.
      apply NoDup_app. split_and!; [done| |apply NoDup_singleton].
      intros p Hp ->%list_elem_of_singleton. done.
    + rewrite Hnodes, Hvis. intros n [Hnn| ->%list_elem_of_singleton]%elem_of_app.
      * destruct (Hn n Hnn). split; [apply elem_of_union; by right|done].
      * split; [|by exists (file item)].
        apply elem_of_union. left. by apply elem_of_singleton.
    + rewrite Hnodes, Hedges, map_app.
      intros e [Hee|Hee]%elem_of_app;
        [specialize (He e Hee); apply elem_of_app; by left|].
      apply elem_of_flat_map in Hee as (dep & _ & Hee).
      apply dep_edges_from in Hee as [-> _].
      apply elem_of_app. right. by apply list_elem_of_singleton.
    + rewrite Hnodes, Hunres, map_app.
      intros u [Huu|Huu]%elem_of_app;
        [specialize (Hu u Huu); apply elem_of_app; by left|].
      apply elem_of_flat_map in Huu as (dep & _ & Huu).
      apply dep_unresolved_from in Huu as ->.
      apply elem_of_app. right. by apply list_elem_of_singleton.
Qed.

(** The paths of the nodes are the paths scanned, in the order of the
    scans. *)
Lemma scanned_files_nodes fuel st st' :
  graph_inv fs cwd opts st →
  loop fs cwd fuel opts st = Returns st' →
  node_paths st' = node_paths st ++ scanned_files fs cwd opts fuel st.
Proof.
  revert st. induction fuel as [|fuel IH]; intros st Hinv; simpl.
  { destruct (queue st); [|done]. intros [= <-]. by rewrite app_nil_r. }
  destruct (queue st) as [|item q] eqn:Hq.
  { intros [= <-]. by rewrite app_nil_r. }
  destruct (visit fs cwd opts item (set_queue q st)) as [st1|] eqn:Hv; [|done].
  intros Hloop. rewrite (IH st1); [|by eapply visit_graph_inv|done].
  rewrite app_assoc. f_equal.
  unfold scans. simpl.
  destruct Hinv as [_ Hn _ _].
  apply visit_cases in Hv as [Hin ->|Hnin Hskip ->|
    lang source deps Hnin Hex Hl Hr Hp ->]; simpl in *.
  - rewrite bool_decide_eq_true_2 by done. simpl. by rewrite app_nil_r.
  - rewrite bool_decide_eq_false_2 by done. simpl.
    destruct Hskip as [->| ->]; simpl; rewrite ?andb_false_r;
      by rewrite app_nil_r.
  - rewrite bool_decide_eq_false_2 by done. rewrite Hex, Hl. simpl.
    match goal with
    | |- context [foldl _ ?s0 deps] =>
        destruct (process_deps_effect fs cwd opts lang
                    (relPath_of cwd opts (file item)) (file item)
                    (depth item) deps s0) as (Hnodes & _)
    end.
    unfold node_paths. rewrite Hnodes. simpl.
    rewrite map_set_fresh, map_app; [done|].
    intros (n & Hpn & Hnn)%list_elem_of_fmap.
    destruct (Hn n Hnn) as [Hnv _]. rewrite <- Hpn in Hnv. done.
Qed.

(** An iteration for a path that was visited changes nothing but the
    queue, which has lost its head. *)
Lemma visit_idempotent item q st :
  relPath_of cwd opts (file item) ∈ visited st →
  visit fs cwd opts item (set_queue q st) = Some (set_queue q st).
Proof.
  intros Hin. unfold visit. fold (relPath_of cwd opts (file item)).
  by rewrite bool_decide_eq_true_2.
Qed.

(** What one iteration does to the visited set, and whether it counts as
    a scan or as a skip. *)
Lemma visit_step item st st1 :
  visit fs cwd opts item st = Some st1 →
  (relPath_of cwd opts (file item) ∈ visited st ∧
   scans fs cwd opts item st = false ∧ skips fs cwd opts item st = false ∧
   visited st1 = visited st) ∨
  ((relPath_of cwd opts (file item) ∉ visited st) ∧
   visited st1 = {[relPath_of cwd opts (file item)]} ∪ visited st ∧
   ((scans fs cwd opts item st = true ∧ skips fs cwd opts item st = false) ∨
    (scans fs cwd opts item st = false ∧ skips fs cwd opts item st = true ∧
     (existsSync fs (file item) = false ∨ detectLanguage (file item) = None)))).
Proof.
  intros Hv. unfold scans, skips.
  apply visit_cases in Hv as [Hin ->|Hnin Hskip ->|
    lang source deps Hnin Hex Hl Hr Hp ->].
  - left. by rewrite bool_decide_eq_true_2.
  - right. rewrite bool_decide_eq_false_2 by done. simpl.
    split_and!; [done..|]. right.
    destruct Hskip as [->| ->]; simpl; rewrite ?andb_false_r, ?orb_true_r; auto.
  - right. rewrite bool_decide_eq_false_2 by done. rewrite Hex, Hl. simpl.
    split; [done|]. split; [|by left].
    match goal with
    | |- context [foldl _ ?s0 deps] =>
        destruct (process_deps_effect fs cwd opts lang
                    (relPath_of cwd opts (file item)) (file item)
                    (depth item) deps s0) as (_ & Hvis & _)
    end.
    by rewrite Hvis.
Qed.

(** When the loop returns, the visited set is what it was before the
    loop, the paths scanned and the paths of the items skipped; these
    three are disjoint, and the file of a skipped item was missing or of
    no language. *)
Lemma loop_visited fuel st st' :
  loop fs cwd fuel opts st = Returns st' →
  (∀ p, p ∈ visited st' ↔
        p ∈ visited st ∨ p ∈ scanned_files fs cwd opts fuel st ∨
        ∃ i, i ∈ skipped_items fs cwd opts fuel st ∧
             relPath_of cwd opts (file i) = p) ∧
  (∀ p, p ∈ scanned_files fs cwd opts fuel st → p ∉ visited st) ∧
  (∀ i, i ∈ skipped_items fs cwd opts fuel st →
        (relPath_of cwd opts (file i) ∉ visited st) ∧
        (relPath_of cwd opts (file i) ∉ scanned_files fs cwd opts fuel st) ∧
        (existsSync fs (file i) = false ∨ detectLanguage (file i) = None)).
Proof.
  revert st. induction fuel as [|fuel IH]; intros st; simpl.
  { destruct (queue st); [|done]. intros [= <-].
    split_and!; [|by intros ? ?%elem_of_nil..].
    intros p. split; [by left|].
    intros [?|[?%elem_of_nil|(i & ?%elem_of_nil & _)]]; done. }
  destruct (queue st) as [|item q] eqn:Hq.
  { intros [= <-].
    split_and!; [|by intros ? ?%elem_of_nil..].
    intros p. split; [by left|].
    intros [?|[?%elem_of_nil|(i & ?%elem_of_nil & _)]]; done. }
  destruct (visit fs cwd opts item (set_queue q st)) as [st1|] eqn:Hv; [|done].
  intros Hloop. destruct (IH st1 Hloop) as (Hvis & Hsc & Hsk). clear IH.
  apply visit_step in Hv. simpl in Hv.
  destruct Hv as [(Hin & -> & -> & Hv1)|
                  (Hnin & Hv1 & [[-> ->]|(-> & -> & Hmiss)])]; simpl;
    rewrite Hv1 in *.
  - done.
  - split_and!.
    + intros p. rewrite Hvis, elem_of_union, elem_of_singleton, elem_of_cons.
      tauto.
    + intros p [->|Hp]%elem_of_cons; [done|].
      intros Hin. apply (Hsc p Hp). apply elem_of_union. by right.
    + intros i Hi. destruct (Hsk i Hi) as (Hi1 & Hi2 & Hi3).
      rewrite elem_of_union, elem_of_singleton in Hi1.
      rewrite elem_of_cons. tauto.
  - split_and!.
    + intros p. rewrite Hvis, elem_of_union, elem_of_singleton.
      split.
      * intros [[->|?]|[?|(i & Hi & <-)]]; eauto.
        -- right. right. exists item. split; [by left|done].
        -- right. right. exists i. split; [by right|done].
      * intros [?|[?|(i & [->|Hi]%elem_of_cons & <-)]]; eauto 6.
    + intros p Hp Hin. apply (Hsc p Hp). apply elem_of_union. by right.
    + intros i [->|Hi]%elem_of_cons.
      * split_and!; [done| |done].
        intros Hp. apply (Hsc _ Hp). apply elem_of_union. left.
        by apply elem_of_singleton.
      * destruct (Hsk i Hi) as (Hi1 & Hi2 & Hi3).
        rewrite elem_of_union, elem_of_singleton in Hi1. tauto.
Qed.

(** C3, amended: when the loop returns, [nodes] has exactly one node for
    each path that was scanned, that is, dequeued while not yet visited
    with a file that existed and had a recognized language; every node
    path is visited, and a visited path is a node or the path of a queue
    item that the loop skipped; the file of a skipped item was missing
    or of no language when the item was dequeued, and its path is
    visited and in no node; a queue item for a path already visited
    changes neither nodes nor edges; every edge starts at a visited path
    that is in [nodes]. *)
Theorem nodes_of_visited_paths (entries : list jsstring) (fuel : nat)
    (st : State) :
  loop fs cwd fuel opts (init cwd entries opts) = Returns st →
  map path (g_nodes (result st)) =
    scanned_files fs cwd opts fuel (init cwd entries opts) ∧
  NoDup (map path (g_nodes (result st))) ∧
  (∀ n, n ∈ g_nodes (result st) →
        path n ∈ visited st ∧ scannable fs cwd opts n) ∧
  (∀ p, p ∈ visited st →
        p ∈ map path (g_nodes (result st)) ∨
        ∃ item, item ∈ skipped_items fs cwd opts fuel (init cwd entries opts) ∧
                relPath_of cwd opts (file item) = p) ∧
  (∀ item, item ∈ skipped_items fs cwd opts fuel (init cwd entries opts) →
        (existsSync fs (file item) = false ∨
         detectLanguage (file item) = None) ∧
        relPath_of cwd opts (file item) ∈ visited st ∧
        relPath_of cwd opts (file item) ∉ map path (g_nodes (result st))) ∧
  (∀ e, e ∈ g_edges (result st) →
        from e ∈ visited st ∧ from e ∈ map path (g_nodes (result st))) ∧
  (∀ item q st0, relPath_of cwd opts (file item) ∈ visited st0 →
        visit fs cwd opts item (set_queue q st0) = Some (set_queue q st0)).
Proof.
  intros Hloop.
  pose proof (scanned_files_nodes fuel _ st (init_graph_inv entries) Hloop)
    as Hscan.
  destruct (loop_visited fuel _ st Hloop) as (Hvis & _ & Hsk).
  apply (loop_invariant fs cwd opts (graph_inv fs cwd opts)) in Hloop
    as [[Hnd Hn He Hu] _].
  - split_and!; simpl; try done.
    + intros p [Hp|[Hp|Hp]]%Hvis; [by apply elem_of_empty in Hp| |by right].
      left. unfold node_paths in Hscan. by rewrite Hscan.
    + intros item Hi. destruct (Hsk item Hi) as (_ & Hns & Hmiss).
      split_and!; [done| |].
      * apply Hvis. right. right. by exists item.
      * unfold node_paths in Hscan. by rewrite Hscan.
    + intros e Hee. specialize (He e Hee). split; [|done].
      apply list_elem_of_fmap in He as (n & -> & Hnn). by apply Hn.
    + apply visit_idempotent.
  - intros item q st0 st1 Hinv _ Hvisit. by eapply visit_graph_inv.
  - apply init_graph_inv.
Qed.

End InvariantProofs.

(** C3, as stated, fails: [data.json] is required by [index.js], is
    visited, and gets no node, its extension being of no language. *)
Lemma visited_path_without_node_counterexample :
  ∃ st, loop fs_json (str "/") 2 opts_p (init (str "/") [str "index.js"] opts_p)
          = Returns st ∧
        str "data.json" ∈ visited st ∧
        str "data.json" ∉ map path (g_nodes (result st)).
Proof.
  eexists. split; [by vm_compute|].
  split; apply (bool_decide_unpack _); by vm_compute.
Qed.

Lemma nodes_of_visited_paths_witness :
  ∃ st, loop fs_json (str "/") 2 opts_p (init (str "/") [str "index.js"] opts_p)
          = Returns st ∧
        NoDup (map path (g_nodes (result st))) ∧
        (∀ p, p ∈ visited st →
              p ∈ map path (g_nodes (result st)) ∨
              ∃ item, item ∈ skipped_items fs_json (str "/") opts_p 2
                               (init (str "/") [str "index.js"] opts_p) ∧
                      relPath_of (str "/") opts_p (file item) = p) ∧
        (∀ e, e ∈ g_edges (result st) →
              from e ∈ visited st ∧ from e ∈ map path (g_nodes (result st))).
Proof.
  eexists. split; [by vm_compute|].
  split_and!.
  - eapply (nodes_of_visited_paths fs_json (str "/") opts_p [str "index.js"] 2).
    by vm_compute.
  - eapply (nodes_of_visited_paths fs_json (str "/") opts_p [str "index.js"] 2).
    by vm_compute.
  - eapply (nodes_of_visited_paths fs_json (str "/") opts_p [str "index.js"] 2).
    by vm_compute.
Defined.

(** *** Targets of local edges *)

Section LocalTargets.

Variable fs : FileSystem.
Variable cwd : jsstring.
Variable opts : Options.
Hypothesis cwd_absolute : Path.isAbsolute cwd = true.

Lemma try_extensions_relative rootDir target exts r :
  try_extensions fs cwd rootDir target exts = Some r →
  ∃ x, r = Path.relative cwd rootDir x.
Proof.
  induction exts as [|ext exts IH]; simpl; [done|].
  destruct (regular fs (target ++ ext)); [|done].
  intros [= <-]. by eexists.
Qed.

Lemma try_index_relative rootDir target exts r :
  try_index fs cwd rootDir target exts = Some r →
  ∃ x, r = Path.relative cwd rootDir x.
Proof.
  induction exts as [|ext exts IH]; simpl; [done|].
  destruct (existsSync fs _); [|done].
  intros [= <-]. by eexists.
Qed.

Lemma resolveLocal_relative specifier fromFile rootDir r :
  resolveLocal fs cwd specifier fromFile rootDir = Some r →
  ∃ x, r = Path.relative cwd rootDir x.
Proof.
  unfold resolveLocal.
  destruct (regular fs _); [intros [= <-]; by eexists|].
  destruct (try_extensions _ _ _ _ _) as [r'|] eqn:E.
  { intros [= <-]. by eapply try_extensions_relative. }
  destruct (_ && _); [|done]. apply try_index_relative.
Qed.

Lemma dep_resolved_relative file_ dep r :
  dep_resolved fs cwd opts file_ dep = Some r →
  (∃ x, r = relPath_of cwd opts x) ∧ r ≠ [].
Proof.
  unfold dep_resolved.
  destruct (resolveLocal _ _ _ _ _) as [r'|] eqn:E; [|done].
  destruct (truthy r') eqn:Ht; [|done]. intros [= <-].
  split; [by eapply resolveLocal_relative|].
  intros ->. done.
Qed.

Lemma dep_edges_local lang relPath file_ depth_ dep e :
  e ∈ dep_edges fs cwd opts lang relPath file_ dep → type e = local →
  (∃ x, to e = relPath_of cwd opts x) ∧ to e ≠ [] ∧
  (maxDepth opts = None →
     Build_Item (Path.resolve cwd [rootDir opts; to e]) (depth_ + 1)
     ∈ dep_pushes fs cwd opts lang file_ depth_ dep).
Proof.
  unfold dep_edges, dep_pushes.
  destruct (parser_classify lang dep).
  - destruct (dep_resolved _ _ _ _ _) as [r|] eqn:E; [|by intros ?%elem_of_nil].
    intros ->%list_elem_of_singleton _. simpl.
    destruct (dep_resolved_relative _ _ _ E) as [Hx Hne].
    split_and!; [done|done|]. intros ->. simpl. by apply list_elem_of_singleton.
  - destruct (includeBuiltin opts); [|by intros ?%elem_of_nil].
    by intros ->%list_elem_of_singleton.
  - destruct (includeExternal opts); [|by intros ?%elem_of_nil].
    by intros ->%list_elem_of_singleton.
Qed.

Lemma init_local_targets entries :
  local_targets_inv cwd opts (init cwd entries opts).
Proof. by intros e ?%elem_of_nil. Qed.

Lemma visit_local_targets item q st st' :
  local_targets_inv cwd opts st →
  queue st = item :: q →
  visit fs cwd opts item (set_queue q st) = Some st' →
  local_targets_inv cwd opts st'.
Proof.
  intros Hinv Hq Hvisit.
  assert (Hold : ∀ e, e ∈ edges st → type e = local →
            (∃ x, to e = relPath_of cwd opts x) ∧ to e ≠ [] ∧
            (maxDepth opts = None →
               to e ∈ {[relPath_of cwd opts (file item)]} ∪ visited st ∨
               ∃ i, i ∈ q ∧ file i = Path.resolve cwd [rootDir opts; to e])).
  { intros e He Hl. destruct (Hinv e He Hl) as ([x Hx] & Hne & Hd).
    split_and!; [by eexists|done|]. intros Hmax.
    destruct (Hd Hmax) as [Hv|(i & Hi & Hf)];
      [left; apply elem_of_union; by right|].
    rewrite Hq in Hi. apply elem_of_cons in Hi as [->|Hi]; [|right; eauto].
    left. rewrite Hf. unfold relPath_of in *. rewrite Hx.
    rewrite relative_resolve; [|done|by rewrite <- Hx].
    apply elem_of_union. left. by apply elem_of_singleton. }
  apply visit_cases in Hvisit as [Hin ->|Hnin Hskip ->|
    lang source deps Hnin Hex Hlang Hread Hparse ->]; simpl in *.
  - intros e He Hl. destruct (Hold e He Hl) as (Hx & Hne & Hd).
    split_and!; [done|done|]. intros Hmax. simpl.
    destruct (Hd Hmax) as [Hv|?]; [left|by right].
    apply elem_of_union in Hv as [->%elem_of_singleton|Hv]; done.
  - intros e He Hl. simpl in *. destruct (Hold e He Hl) as (Hx & Hne & Hd).
    split_and!; [done|done|]. intros Hmax.
    destruct (Hd Hmax) as [Hv|?]; [by left|by right].
  - set (relPath := relPath_of cwd opts (file item)) in *.
    match goal with
    | |- local_targets_inv _ _ (foldl _ ?s0 _) =>
        destruct (process_deps_effect fs cwd opts lang relPath (file item)
                    (depth item) deps s0) as (_ & Hvis & Hedges & Hqueue & _)
    end.
    simpl in *. intros e He Hl. rewrite Hvis, Hqueue.
    rewrite Hedges in He. apply elem_of_app in He as [He|He].
    + destruct (Hold e He Hl) as (Hx & Hne & Hd).
      split_and!; [done|done|]. intros Hmax.
      destruct (Hd Hmax) as [Hv|(i & Hi & Hf)]; [by left|].
      right. exists i. split; [|done]. apply elem_of_app. by left.
    + apply elem_of_flat_map in He as (dep & Hdep & He).
      destruct (dep_edges_local _ _ _ (depth item) _ _ He Hl) as (Hx & Hne & Hd).
      split_and!; [done|done|]. intros Hmax. right.
      exists (Build_Item (Path.resolve cwd [rootDir opts; to e])
                         (depth item + 1)).
      split; [|reflexivity].
      apply elem_of_app. right. apply elem_of_flat_map.
      exists dep. split; [done|]. by apply Hd.
Qed.

(** C4, amended: with [maxDepth] unbounded, when the loop returns the
    target of every local edge is a visited path; it is in [nodes]
    unless the loop skipped a queue item for it: an item that was
    dequeued for the file of the target while the target was not yet
    visited, the file being missing or of no recognized language at that
    moment; the target is then in no node.  A truncated traversal is not
    the only way to an edge without a node. *)
Theorem local_edge_targets (entries : list jsstring) (fuel : nat)
    (st : State) :
  maxDepth opts = None →
  loop fs cwd fuel opts (init cwd entries opts) = Returns st →
  ∀ e, e ∈ g_edges (result st) → type e = local →
    to e ∈ visited st ∧
    (to e ∈ map path (g_nodes (result st)) ∨
     ∃ item, item ∈ skipped_items fs cwd opts fuel (init cwd entries opts) ∧
             relPath_of cwd opts (file item) = to e ∧
             Path.resolve cwd [file item] =
               Path.resolve cwd [rootDir opts; to e] ∧
             (existsSync fs (file item) = false ∨
              detectLanguage (file item) = None) ∧
             to e ∉ map path (g_nodes (result st))).
Proof.
  intros Hmax Hloop.
  pose proof (scanned_files_nodes fs cwd opts fuel _ st
                (init_graph_inv fs cwd opts entries) Hloop) as Hscan.
  unfold node_paths in Hscan. simpl in Hscan.
  destruct (loop_visited fs cwd opts fuel _ st Hloop) as (Hvis & _ & Hsk).
  pose proof (loop_invariant fs cwd opts
    (λ s, graph_inv fs cwd opts s ∧ local_targets_inv cwd opts s)) as Hinv.
  apply Hinv in Hloop as [[_ Hloc] Hq].
  - intros e He Hl. simpl in *.
    destruct (Hloc e He Hl) as (_ & _ & Hd).
    destruct (Hd Hmax) as [Hin|(i & Hi & _)].
    + split; [done|].
      apply Hvis in Hin as [Hin|[Hin|(item & Hi & Hrel)]].
      * by apply elem_of_empty in Hin.
      * left. by rewrite Hscan.
      * right. exists item. destruct (Hsk item Hi) as (_ & Hns & Hmiss).
        split_and!; [done..| |done|].
        -- rewrite <- Hrel. unfold relPath_of.
           symmetry. by apply resolve_relative.
        -- rewrite Hscan, <- Hrel. done.
    + rewrite Hq in Hi. by apply elem_of_nil in Hi.
  - intros item q s s' [Hg Hl] Hqs Hvisit. split.
    + by eapply visit_graph_inv.
    + by eapply visit_local_targets.
  - split; [apply init_graph_inv|apply init_local_targets].
Qed.

End LocalTargets.

(** C4, as stated, fails: with [maxDepth] unbounded the local edge from
    [index.js] to [data.json] points to a path that is not in [nodes]. *)
Lemma local_edge_without_node_counterexample :
  maxDepth opts_p = None ∧
  ∃ g, buildGraph fs_json (str "/") 2 [str "index.js"] opts_p = Returns g ∧
       ∃ e, e ∈ g_edges g ∧ type e = local ∧ to e ∉ map path (g_nodes g).
Proof.
  split; [done|]. eexists. split; [by vm_compute|].
  exists (Build_Edge (str "index.js") (str "data.json") (str "./data.json") local).
  split_and!; [|done|]; apply (bool_decide_unpack _); by vm_compute.
Qed.

Lemma local_edge_targets_witness :
  ∃ st, loop fs_json (str "/") 2 opts_p (init (str "/") [str "index.js"] opts_p)
          = Returns st ∧
        ∀ e, e ∈ g_edges (result st) → type e = local →
          to e ∈ visited st ∧
          (to e ∈ map path (g_nodes (result st)) ∨
           ∃ item, item ∈ skipped_items fs_json (str "/") opts_p 2
                            (init (str "/") [str "index.js"] opts_p) ∧
                   relPath_of (str "/") opts_p (file item) = to e ∧
                   Path.resolve (str "/") [file item] =
                     Path.resolve (str "/") [rootDir opts_p; to e] ∧
                   (existsSync fs_json (file item) = false ∨
                    detectLanguage (file item) = None) ∧
                   to e ∉ map path (g_nodes (result st))).
Proof.
  eexists. split; [by vm_compute|].
  apply (local_edge_targets fs_json (str "/") opts_p eq_refl [str "index.js"] 2).
  - reflexivity.
  - by vm_compute.
Defined.

(** *** The arrays of specifiers have no duplicates *)

Lemma set_add_NoDup x s : NoDup s → NoDup (set_add x s).
Proof.
  intros H. unfold set_add. case_bool_decide; [done|].
  apply NoDup_app. split_and!; [done| |apply NoDup_singleton].
  by intros y Hy ->%list_elem_of_singleton.
Qed.

Lemma collect_NoDup fuel ml r body x deps deps' :
  (∀ c d d', NoDup d → body c d = Some d' → NoDup d') →
  NoDup deps → collect fuel ml r body x deps = Some deps' → NoDup deps'.
Proof.
  intros Hbody. revert x deps.
  induction fuel as [|fuel IH]; intros x deps Hnd; simpl.
  - destruct (exec ml r x) as [[y cap]|]; [done|]. by intros [= <-].
  - destruct (exec ml r x) as [[y cap]|]; [|by intros [= <-]].
    destruct cap as [c|]; [|done].
    destruct (body c deps) as [d1|] eqn:E; [|done]. simpl.
    apply IH. by eapply Hbody.
Qed.

Lemma py_import_items_NoDup ms d d' :
  NoDup d → Python.import_items ms d = Some d' → NoDup d'.
Proof.
  revert d. induction ms as [|m ms IH]; intros d Hnd; simpl.
  - by intros [= <-].
  - unfold Python.import_item.
    destruct (split_head _ _) as [piece|]; [|done]. simpl.
    apply IH. destruct (trim piece); [done|].
    destruct (test _ _); [by apply set_add_NoDup|done].
Qed.

Lemma parse_NoDup lang source deps :
  parser_parse lang source = Some deps → NoDup deps.
Proof.
  assert (Hadd : ∀ c d d', NoDup d →
            (λ c d, Some (set_add c d)) c d = Some d' → NoDup d').
  { intros c d d' Hnd [= <-]. by apply set_add_NoDup. }
  destruct lang; simpl.
  - unfold JavaScript.parse.
    destruct (JavaScript.stripComments source) as [s|]; [|done]. simpl.
    unfold JavaScript.scan.
    destruct (collect _ _ JavaScript.esImport _ _ _) as [d1|] eqn:E1; [|done].
    simpl.
    destruct (collect _ _ JavaScript.esExport _ _ _) as [d2|] eqn:E2; [|done].
    simpl.
    destruct (collect _ _ JavaScript.cjsRequire _ _ _) as [d3|] eqn:E3; [|done].
    simpl. intros E4.
    apply collect_NoDup in E1; [|done|constructor].
    apply collect_NoDup in E2; [|done|done].
    apply collect_NoDup in E3; [|done|done].
    by apply collect_NoDup in E4.
  - unfold Python.parse.
    destruct (Python.stripComments source) as [s|]; [|done]. simpl.
    unfold Python.scan.
    destruct (collect _ _ Python.fromPattern _ _ _) as [d1|] eqn:E1; [|done].
    simpl. intros E2.
    apply collect_NoDup in E1; [| |constructor].
    + apply collect_NoDup in E2; [done| |done].
      intros c d d' Hnd. apply py_import_items_NoDup. done.
    + intros c d d' Hnd. unfold Python.from_body. intros [= <-].
      destruct (trim c); [done|by apply set_add_NoDup].
Qed.

(** *** Unresolved imports *)

Section Unresolved.

Variable fs : FileSystem.
Variable cwd : jsstring.
Variable opts : Options.

Lemma unresolved_count lang relPath file_ dep deps :
  NoDup deps → dep ∈ deps →
  dep_unresolved fs cwd opts lang relPath file_ dep =
    [Build_UnresolvedImport relPath dep] →
  length (filter (λ u, u = Build_UnresolvedImport relPath dep)
            (flat_map (dep_unresolved fs cwd opts lang relPath file_) deps)) = 1.
Proof.
  intros Hnd Hin Hdep.
  assert (Hother : ∀ ds, dep ∉ ds →
    filter (λ u, u = Build_UnresolvedImport relPath dep)
      (flat_map (dep_unresolved fs cwd opts lang relPath file_) ds) = []).
  { induction ds as [|d ds IH]; [done|]. rewrite not_elem_of_cons.
    intros [Hne Hds]. simpl. rewrite filter_app, IH, app_nil_r by done.
    unfold dep_unresolved.
    destruct (parser_classify lang d); try done.
    destruct (dep_resolved _ _ _ _ _); [done|].
    rewrite filter_cons_False; [done|]. intros [= ->]. done. }
  induction deps as [|d ds IH]; [by apply elem_of_nil in Hin|].
  apply NoDup_cons in Hnd as [Hd Hnd]. simpl. rewrite filter_app, length_app.
  destruct (decide (d = dep)) as [->|Hne].
  - rewrite Hother by done. rewrite Hdep.
    rewrite filter_cons_True by done. done.
  - apply elem_of_cons in Hin as [->|Hin]; [done|].
    rewrite IH by done.
    unfold dep_unresolved.
    destruct (parser_classify lang d); try done.
    destruct (dep_resolved _ _ _ _ _); [done|].
    rewrite filter_cons_False; [done|]. intros [= ->]. done.
Qed.

(** C8: the iteration that scans a file with a local specifier [dep]
    that [resolveLocal] maps to no file appends exactly one record
    [{from, specifier}] for it to [unresolved], no edge with that
    specifier, and no queue item that comes from it; the body of the
    loop over the specifiers does, for [dep], nothing but append the
    record. *)
Theorem unresolved_import_recorded (item : Item) (st : State)
    (lang : language) (source : jsstring) (deps : list jsstring)
    (dep : jsstring) :
  let relPath := relPath_of cwd opts (file item) in
  let record := Build_UnresolvedImport relPath dep in
  relPath ∉ visited st →
  existsSync fs (file item) = true →
  detectLanguage (file item) = Some lang →
  readFileSync fs (file item) = Some source →
  parser_parse lang source = Some deps →
  dep ∈ deps →
  parser_classify lang dep = local →
  resolveLocal fs cwd dep (file item) (rootDir opts) = None →
  (∀ s, process_dep fs cwd opts lang relPath (file item) (depth item) s dep =
        push_unresolved record s) ∧
  ∃ st', visit fs cwd opts item st = Some st' ∧
    length (filter (λ u, u = record) (unresolved st')) =
      S (length (filter (λ u, u = record) (unresolved st))) ∧
    (∀ e, e ∈ edges st' → specifier e = dep → e ∈ edges st) ∧
    (∀ i, i ∈ queue st' →
       i ∈ queue st ∨
       ∃ dep', dep' ∈ deps ∧ dep' ≠ dep ∧
               i ∈ dep_pushes fs cwd opts lang (file item) (depth item) dep').
Proof.
  intros relPath record Hnv Hex Hlang Hread Hparse Hin Hlocal Hres.
  subst record. split.
  { intros s. unfold process_dep. by rewrite Hlocal, Hres. }
  eexists. split.
  { unfold visit. fold (relPath_of cwd opts (file item)). fold relPath.
    rewrite bool_decide_eq_false_2 by done. rewrite Hex, Hlang. simpl.
    unfold scan_file. rewrite Hread. simpl. rewrite Hparse. simpl. done. }
  match goal with
  | |- context [foldl _ ?s0 deps] =>
      destruct (process_deps_effect fs cwd opts lang relPath (file item)
                  (depth item) deps s0) as (_ & _ & Hedges & Hqueue & Hunres)
  end.
  simpl in Hedges, Hqueue, Hunres.
  assert (dep_resolved fs cwd opts (file item) dep = None) as Hnone.
  { unfold dep_resolved. by rewrite Hres. }
  split_and!.
  - rewrite Hunres, filter_app, length_app.
    rewrite unresolved_count; [lia|by eapply parse_NoDup|done|].
    unfold dep_unresolved. by rewrite Hlocal, Hnone.
  - rewrite Hedges. intros e [He|He]%elem_of_app Hs; [done|].
    apply elem_of_flat_map in He as (d & Hd & He).
    pose proof He as He'. apply dep_edges_from in He' as [_ Hspec].
    assert (d = dep) as -> by congruence.
    unfold dep_edges in He. rewrite Hlocal, Hnone in He.
    by apply elem_of_nil in He.
  - rewrite Hqueue. intros i [Hi|Hi]%elem_of_app; [by left|].
    apply elem_of_flat_map in Hi as (d & Hd & Hi). right. exists d.
    split_and!; [done| |done]. intros ->.
    unfold dep_pushes in Hi. rewrite Hlocal, Hnone in Hi.
    by apply elem_of_nil in Hi.
Qed.

End Unresolved.

Lemma unresolved_import_recorded_witness :
  ∃ st', visit fs_missing (str "/") opts_p
           (Build_Item (str "/p/index.js") 0) (init (str "/") [] opts_p)
         = Some st' ∧
         unresolved st' =
           [Build_UnresolvedImport (str "index.js") (str "./missing")] ∧
         edges st' = [] ∧ queue st' = [].
Proof.
  destruct (unresolved_import_recorded fs_missing (str "/") opts_p
              (Build_Item (str "/p/index.js") 0) (init (str "/") [] opts_p)
              javascript (str "const x = require('./missing');")
              [str "./missing"] (str "./missing"))
    as (_ & st' & Hv & _);
    try first [by vm_compute | apply (bool_decide_unpack _); by vm_compute].
  exists st'. split; [done|].
    assert (visit fs_missing (str "/") opts_p
              (Build_Item (str "/p/index.js") 0) (init (str "/") [] opts_p)
            = Some (push_unresolved
                      (Build_UnresolvedImport (str "index.js") (str "./missing"))
                      (set_node (str "index.js")
                         (Build_Node (str "index.js") javascript 1)
                         (add_visited (str "index.js")
                            (init (str "/") [] opts_p))))) as Hv'
    by (by vm_compute).
  rewrite Hv in Hv'. injection Hv' as ->. done.
Defined.

(** *** Termination *)

Section Termination.

Variable fs : FileSystem.
Variable cwd : jsstring.
Variable opts : Options.

Lemma visit_scans item st lang source deps :
  relPath_of cwd opts (file item) ∉ visited st →
  existsSync fs (file item) = true →
  detectLanguage (file item) = Some lang →
  readFileSync fs (file item) = Some source →
  parser_parse lang source = Some deps →
  visit fs cwd opts item st =
  Some (foldl (process_dep fs cwd opts lang (relPath_of cwd opts (file item))
                 (file item) (depth item))
          (set_node (relPath_of cwd opts (file item))
             (Build_Node (relPath_of cwd opts (file item)) lang (length deps))
             (add_visited (relPath_of cwd opts (file item)) st))
          deps).
Proof.
  intros Hnv Hex Hlang Hread Hparse.
  unfold visit. fold (relPath_of cwd opts (file item)).
  rewrite bool_decide_eq_false_2 by done. rewrite Hex, Hlang. simpl.
  unfold scan_file. rewrite Hread. simpl. by rewrite Hparse.
Qed.

Lemma terminates_empty st : queue st = [] → terminates fs cwd opts st.
Proof.
  intros Hq. exists 0. intros fuel' _.
  destruct fuel'; simpl; rewrite Hq; done.
Qed.

Lemma terminates_step item q st :
  queue st = item :: q →
  (∀ st', visit fs cwd opts item (set_queue q st) = Some st' →
          terminates fs cwd opts st') →
  terminates fs cwd opts st.
Proof.
  intros Hq Hnext.
  destruct (visit fs cwd opts item (set_queue q st)) as [st'|] eqn:Hv.
  - destruct (Hnext st' eq_refl) as [fuel Hfuel]. exists (S fuel).
    intros [|fuel'] Hle; [lia|]. simpl. rewrite Hq, Hv.
    apply Hfuel. lia.
  - exists 1. intros [|fuel'] Hle; [lia|]. simpl. by rewrite Hq, Hv.
Qed.

Lemma visit_visited item st st' :
  visit fs cwd opts item st = Some st' →
  visited st ⊆ visited st' ∧
  relPath_of cwd opts (file item) ∈ visited st'.
Proof.
  intros [Hin ->|Hnin Hskip ->|lang source deps Hnin Hex Hl Hr Hp ->]%visit_cases.
  - done.
  - simpl. split; [apply union_subseteq_r|].
    apply elem_of_union. left. by apply elem_of_singleton.
  - match goal with
    | |- context [foldl _ ?s0 deps] =>
        destruct (process_deps_effect fs cwd opts lang
                    (relPath_of cwd opts (file item)) (file item)
                    (depth item) deps s0) as (_ & -> & _)
    end.
    simpl. split; [apply union_subseteq_r|].
    apply elem_of_union. left. by apply elem_of_singleton.
Qed.

Section Finite.

Variable universe : gset jsstring.
Hypothesis finite :
  ∀ f, existsSync fs f = true → relPath_of cwd opts f ∈ universe.

Lemma loop_terminates_queue n :
  (∀ st, size (universe ∖ visited st) < n → terminates fs cwd opts st) →
  ∀ m st, length (queue st) ≤ m → size (universe ∖ visited st) ≤ n →
          terminates fs cwd opts st.
Proof.
  intros IHn. induction m as [|m IHm]; intros st Hm Hn.
  { apply terminates_empty. destruct (queue st); [done|simpl in Hm; lia]. }
  destruct (queue st) as [|item q] eqn:Hq; [by apply terminates_empty|].
  simpl in Hm. apply (terminates_step item q st Hq). intros st' Hvisit.
  apply visit_cases in Hvisit as [Hin ->|Hnin Hskip ->|
    lang source deps Hnin Hex Hl Hr Hp ->]; simpl in *.
  - apply IHm; simpl; [lia|done].
  - apply IHm; simpl; [lia|].
    etrans; [|exact Hn]. apply subseteq_size.
    apply difference_mono_l, union_subseteq_r.
  - apply IHn.
    match goal with
    | |- context [foldl _ ?s0 deps] =>
        destruct (process_deps_effect fs cwd opts lang
                    (relPath_of cwd opts (file item)) (file item)
                    (depth item) deps s0) as (_ & -> & _)
    end.
    simpl. eapply Nat.lt_le_trans; [|exact Hn].
    apply subset_size. apply (finite _) in Hex.
    set (p := relPath_of cwd opts (file item)) in *.
    split.
    + apply difference_mono_l, union_subseteq_r.
    + intros Hsub. assert (p ∈ universe ∖ visited st) as Hp'
        by (apply elem_of_difference; done).
      apply Hsub, elem_of_difference in Hp' as [_ Hp'].
      apply Hp', elem_of_union. left. by apply elem_of_singleton.
Qed.

Lemma loop_terminates st : terminates fs cwd opts st.
Proof.
  assert (∀ n st, size (universe ∖ visited st) ≤ n → terminates fs cwd opts st)
    as H.
  { induction n as [n IH] using lt_wf_ind. intros s Hs.
    apply (loop_terminates_queue n) with (m := length (queue s)); [|done|done].
    intros s' Hs'. apply (IH (size (universe ∖ visited s'))); [done|lia]. }
  by eapply H.
Qed.

End Finite.

(** The scans of a run: distinct paths of reachable files, which are the
    paths of the nodes. *)
Variable entries : list jsstring.

Local Abbreviation queue_reachable := (queue_reachable fs cwd opts entries).

Lemma init_queue_reachable : queue_reachable (init cwd entries opts).
Proof.
  intros i (e & -> & He)%list_elem_of_fmap. simpl.
  by apply (reach_entry fs cwd opts entries e).
Qed.

Lemma dep_pushes_resolved lang file_ depth_ dep i :
  i ∈ dep_pushes fs cwd opts lang file_ depth_ dep →
  ∃ r, parser_classify lang dep = local ∧
       dep_resolved fs cwd opts file_ dep = Some r ∧
       depth_lt depth_ (maxDepth opts) = true ∧
       i = Build_Item (Path.resolve cwd [rootDir opts; r]) (depth_ + 1).
Proof.
  unfold dep_pushes.
  destruct (parser_classify lang dep); try by intros ?%elem_of_nil.
  destruct (dep_resolved _ _ _ _ _) as [r|]; [|by intros ?%elem_of_nil].
  destruct (depth_lt _ _); [|by intros ?%elem_of_nil].
  intros ->%list_elem_of_singleton. by exists r.
Qed.

Lemma visit_queue_reachable item q st st' :
  queue_reachable st → queue st = item :: q →
  visit fs cwd opts item (set_queue q st) = Some st' →
  queue_reachable st'.
Proof.
  intros Hinv Hq Hvisit.
  assert (reachable fs cwd opts entries (file item)) as Hitem.
  { apply Hinv. rewrite Hq. apply elem_of_cons. by left. }
  assert (∀ i, i ∈ q → reachable fs cwd opts entries (file i)) as Hrest.
  { intros i Hi. apply Hinv. rewrite Hq. apply elem_of_cons. by right. }
  apply visit_cases in Hvisit as [Hin ->|Hnin Hskip ->|
    lang source deps Hnin Hex Hl Hr Hp ->]; try done.
  intros i. 
  match goal with
  | |- context [foldl _ ?s0 deps] =>
      destruct (process_deps_effect fs cwd opts lang
                  (relPath_of cwd opts (file item)) (file item)
                  (depth item) deps s0) as (_ & _ & _ & -> & _)
  end.
  simpl. intros [Hi|Hi]%elem_of_app; [by apply Hrest|].
  apply elem_of_flat_map in Hi as (dep & Hdep & Hi).
  apply dep_pushes_resolved in Hi as (r & Hloc & Hres & _ & ->). simpl.
  by eapply reach_import.
Qed.

Lemma scanned_files_distinct fuel st :
  queue_reachable st →
  NoDup (scanned_files fs cwd opts fuel st) ∧
  ∀ p, p ∈ scanned_files fs cwd opts fuel st →
       (p ∉ visited st) ∧
       ∃ f, reachable fs cwd opts entries f ∧ relPath_of cwd opts f = p.
Proof.
  revert st. induction fuel as [|fuel IH]; intros st Hreach; simpl.
  { destruct (queue st);
      (split; [apply NoDup_nil_2|by intros p ?%elem_of_nil]). }
  destruct (queue st) as [|item q] eqn:Hq.
  { split; [apply NoDup_nil_2|by intros p ?%elem_of_nil]. }
  assert (reachable fs cwd opts entries (file item)) as Hitem.
  { apply Hreach. rewrite Hq. apply elem_of_cons. by left. }
  set (p0 := relPath_of cwd opts (file item)).
  assert (Hhead : scans fs cwd opts item (set_queue q st) = true →
                  p0 ∉ visited st).
  { unfold scans. simpl. fold p0. intros H.
    apply andb_true_iff in H as [H _]. apply andb_true_iff in H as [H _].
    apply negb_true_iff, bool_decide_eq_false in H. done. }
  destruct (visit fs cwd opts item (set_queue q st)) as [st'|] eqn:Hv.
  2: { rewrite app_nil_r. destruct (scans _ _ _ _ _) eqn:Hs.
       - split; [apply NoDup_singleton|].
         intros p ->%list_elem_of_singleton. split; [by apply Hhead|].
         by exists (file item).
       - split; [apply NoDup_nil_2|by intros p ?%elem_of_nil]. }
  destruct (IH st') as [Hnd Hrest]; [by eapply visit_queue_reachable|].
  apply visit_visited in Hv as [Hsub Hp0]. simpl in Hsub. fold p0 in Hp0.
  assert (Htail : ∀ p, p ∈ scanned_files fs cwd opts fuel st' →
            (p ∉ visited st) ∧
            ∃ f, reachable fs cwd opts entries f ∧ relPath_of cwd opts f = p).
  { intros p Hp. destruct (Hrest p Hp) as [Hnv Hf]. split; [|done].
    intros Hin. apply Hnv, Hsub, Hin. }
  destruct (scans _ _ _ _ _) eqn:Hs; simpl; [|done].
  split.
  - apply NoDup_cons. split; [|done].
    intros Hin. by apply Hrest in Hin as [Hnv _].
  - intros p [->|Hp]%elem_of_cons; [|by apply Htail].
    split; [by apply Hhead|]. by exists (file item).
Qed.

(** The queue grows only in an iteration that scans a file not visited
    before, and only by the local specifiers of that file that resolve. *)
Lemma visit_queue_growth item st st' :
  visit fs cwd opts item st = Some st' →
  ∃ pushes, queue st' = queue st ++ pushes ∧
    ∀ i, i ∈ pushes →
      (relPath_of cwd opts (file item) ∉ visited st) ∧
      ∃ lang dep r,
        detectLanguage (file item) = Some lang ∧
        parser_classify lang dep = local ∧
        resolveLocal fs cwd dep (file item) (rootDir opts) = Some r ∧
        r ≠ [] ∧
        i = Build_Item (Path.resolve cwd [rootDir opts; r]) (depth item + 1).
Proof.
  intros [Hin ->|Hnin Hskip ->|lang source deps Hnin Hex Hl Hr Hp ->]%visit_cases.
  - exists []. split; [by rewrite app_nil_r|by intros i ?%elem_of_nil].
  - exists []. split; [by rewrite app_nil_r|by intros i ?%elem_of_nil].
  - match goal with
    | |- context [foldl _ ?s0 deps] =>
        destruct (process_deps_effect fs cwd opts lang
                    (relPath_of cwd opts (file item)) (file item)
                    (depth item) deps s0) as (_ & _ & _ & -> & _)
    end.
    eexists. split; [done|]. intros i Hi. split; [done|].
    apply elem_of_flat_map in Hi as (dep & Hdep & Hi).
    apply dep_pushes_resolved in Hi as (r & Hloc & Hres & _ & ->).
    exists lang, dep, r. split_and!; try done.
    + unfold dep_resolved in Hres.
      destruct (resolveLocal _ _ _ _ _) as [r'|]; [|done].
      destruct (truthy r'); [|done]. congruence.
    + unfold dep_resolved in Hres.
      destruct (resolveLocal _ _ _ _ _) as [r'|]; [|done].
      destruct (truthy r') eqn:Ht; [|done]. injection Hres as <-.
      by intros ->.
Qed.

(** The items an iteration adds to the queue come from the text of the
    file of the item: the file exists, was not visited, is read and
    parsed, and every item added is the target of a local specifier of
    that text that resolves, one level deeper and within the bound. *)
Lemma visit_queue_pushes item st st' :
  visit fs cwd opts item st = Some st' →
  ∃ pushes, queue st' = queue st ++ pushes ∧
    ∀ i, i ∈ pushes →
      (relPath_of cwd opts (file item) ∉ visited st) ∧
      ∃ lang source deps dep r,
        existsSync fs (file item) = true ∧
        detectLanguage (file item) = Some lang ∧
        readFileSync fs (file item) = Some source ∧
        parser_parse lang source = Some deps ∧
        dep ∈ deps ∧
        parser_classify lang dep = local ∧
        resolveLocal fs cwd dep (file item) (rootDir opts) = Some r ∧
        r ≠ [] ∧
        depth_lt (depth item) (maxDepth opts) = true ∧
        i = Build_Item (Path.resolve cwd [rootDir opts; r]) (depth item + 1).
Proof.
  intros [Hin ->|Hnin Hskip ->|lang source deps Hnin Hex Hl Hr Hp ->]%visit_cases.
  - exists []. split; [by rewrite app_nil_r|by intros i ?%elem_of_nil].
  - exists []. split; [by rewrite app_nil_r|by intros i ?%elem_of_nil].
  - match goal with
    | |- context [foldl _ ?s0 deps] =>
        destruct (process_deps_effect fs cwd opts lang
                    (relPath_of cwd opts (file item)) (file item)
                    (depth item) deps s0) as (_ & _ & _ & -> & _)
    end.
    eexists. split; [done|]. intros i Hi. split; [done|].
    apply elem_of_flat_map in Hi as (dep & Hdep & Hi).
    apply dep_pushes_resolved in Hi as (r & Hloc & Hres & Hlt & ->).
    exists lang, source, deps, dep, r. split_and!; try done.
    + unfold dep_resolved in Hres.
      destruct (resolveLocal _ _ _ _ _) as [r'|]; [|done].
      destruct (truthy r'); [|done]. congruence.
    + unfold dep_resolved in Hres.
      destruct (resolveLocal _ _ _ _ _) as [r'|]; [|done].
      destruct (truthy r') eqn:Ht; [|done]. injection Hres as <-.
      by intros ->.
Qed.

(** Nothing but a read that fails makes an iteration throw. *)
Lemma visit_is_Some item st :
  (∀ f, existsSync fs f = true → is_Some (detectLanguage f) →
        is_Some (readFileSync fs f)) →
  is_Some (visit fs cwd opts item st).
Proof.
  intros Hread. unfold visit.
  case_bool_decide; [by eexists|].
  destruct (existsSync fs (file item)) eqn:Hex; [|by eexists]. simpl.
  destruct (detectLanguage (file item)) as [lang|] eqn:Hl; [|by eexists].
  destruct (Hread (file item) Hex) as [source Hs]; [by rewrite Hl|].
  unfold scan_file. rewrite Hs. simpl.
  assert (is_Some (parser_parse lang source)) as [deps ->]; [|by eexists].
  destruct lang; simpl.
  - unfold JavaScript.parse.
    destruct (js_stripComments_total source) as [stripped ->]. simpl.
    apply js_scan_total.
  - unfold Python.parse.
    destruct (py_stripComments_total source) as [stripped ->]. simpl.
    apply py_scan_total.
Qed.

Lemma loop_not_Throws fuel st :
  (∀ f, existsSync fs f = true → is_Some (detectLanguage f) →
        is_Some (readFileSync fs f)) →
  loop fs cwd fuel opts st ≠ Throws.
Proof.
  intros Hread. revert st. induction fuel as [|fuel IH]; intros st; simpl.
  - by destruct (queue st).
  - destruct (queue st) as [|item q]; [done|].
    destruct (visit_is_Some item (set_queue q st) Hread) as [st' ->].
    apply IH.
Qed.

End Termination.

(** C1, amended: on a file system with finitely many files [buildGraph]
    terminates: some amount of fuel is enough, for every entry list and
    every options.  The files scanned are distinct and reachable from the
    entries, so that their number is bounded by the number of distinct
    reachable paths and by the size of the visited set, and they are the
    nodes of the result.  An iteration adds items to the queue only when
    the file of its item was not visited, exists and has a language; each
    item added is the target of a specifier that is in the list parsed
    from the text read from that file, is local and resolves, and the
    depth of the item is below the bound.  Whether the target was
    visited is not looked at.  When every file that is scanned can be
    read, the call returns a graph. *)
Theorem buildGraph_terminates (fs : FileSystem) (cwd : jsstring)
    (opts : Options) (entries : list jsstring) (universe : list jsstring) :
  (∀ f, existsSync fs f = true → relPath_of cwd opts f ∈ universe) →
  (∃ fuel, ∀ fuel', fuel ≤ fuel' →
     buildGraph fs cwd fuel' entries opts = buildGraph fs cwd fuel entries opts ∧
     buildGraph fs cwd fuel entries opts ≠ OutOfFuel) ∧
  (∀ fuel,
     let scanned := scanned_files fs cwd opts fuel (init cwd entries opts) in
     NoDup scanned ∧
     (∀ p, p ∈ scanned →
           ∃ f, reachable fs cwd opts entries f ∧ relPath_of cwd opts f = p) ∧
     (∀ paths, (∀ f, reachable fs cwd opts entries f →
                     relPath_of cwd opts f ∈ paths) →
               length scanned ≤ length paths) ∧
     (∀ st, loop fs cwd fuel opts (init cwd entries opts) = Returns st →
            map path (g_nodes (result st)) = scanned ∧
            length scanned ≤ size (visited st))) ∧
  (∀ item st st', visit fs cwd opts item st = Some st' →
     ∃ pushes, queue st' = queue st ++ pushes ∧
       ∀ i, i ∈ pushes →
         (relPath_of cwd opts (file item) ∉ visited st) ∧
         ∃ lang source deps dep r,
           existsSync fs (file item) = true ∧
           detectLanguage (file item) = Some lang ∧
           readFileSync fs (file item) = Some source ∧
           parser_parse lang source = Some deps ∧
           dep ∈ deps ∧
           parser_classify lang dep = local ∧
           resolveLocal fs cwd dep (file item) (rootDir opts) = Some r ∧
           r ≠ [] ∧
           depth_lt (depth item) (maxDepth opts) = true ∧
           i = Build_Item (Path.resolve cwd [rootDir opts; r]) (depth item + 1)) ∧
  ((∀ f, existsSync fs f = true → is_Some (detectLanguage f) →
         is_Some (readFileSync fs f)) →
   ∃ fuel g, buildGraph fs cwd fuel entries opts = Returns g).
Proof.
  intros Hfin.
  assert (Hterm : ∃ fuel, ∀ fuel', fuel ≤ fuel' →
     buildGraph fs cwd fuel' entries opts = buildGraph fs cwd fuel entries opts ∧
     buildGraph fs cwd fuel entries opts ≠ OutOfFuel).
  { destruct (loop_terminates fs cwd opts (list_to_set universe))
      with (st := init cwd entries opts) as [fuel Hfuel].
    { intros f Hf. apply elem_of_list_to_set. by apply Hfin. }
    exists fuel. intros fuel' Hle. destruct (Hfuel fuel' Hle) as [Heq Hne].
    unfold buildGraph. rewrite Heq. split; [done|].
    by destruct (loop fs cwd fuel opts (init cwd entries opts)). }
  split_and!; [exact Hterm| | |
    intros Hread; destruct Hterm as [fuel Hfuel];
    destruct (Hfuel fuel (Nat.le_refl _)) as [_ Hne];
    pose proof (loop_not_Throws fs cwd opts fuel (init cwd entries opts) Hread)
      as Hnt;
    exists fuel; unfold buildGraph in *;
    destruct (loop fs cwd fuel opts (init cwd entries opts)); [by eexists|done|done]].
  - intros fuel scanned.
    destruct (scanned_files_distinct fs cwd opts entries fuel
                (init cwd entries opts) (init_queue_reachable fs cwd opts entries))
      as [Hnd Hall].
    fold scanned in Hnd, Hall. split_and!; [done| | |].
    + intros p Hp. by apply Hall.
    + intros paths Hpaths. apply submseteq_length, NoDup_submseteq; [done|].
      intros p Hp. destruct (Hall p Hp) as [_ (f & Hf & <-)]. by apply Hpaths.
    + intros st Hloop.
      pose proof (scanned_files_nodes fs cwd opts fuel _ st
                    (init_graph_inv fs cwd opts entries) Hloop) as Hnodes.
      simpl in Hnodes. fold scanned in Hnodes. split; [done|].
      apply (loop_invariant fs cwd opts (graph_inv fs cwd opts)) in Hloop
        as [[Hnd' Hn _ _] _].
      * rewrite <- Hnodes. rewrite <- (size_list_to_set (C:=gset jsstring)) by done.
        apply subseteq_size. intros p Hp%elem_of_list_to_set.
        apply list_elem_of_fmap in Hp as (n & -> & Hnn). by apply Hn.
      * intros item q s s' Hinv _ Hvisit. by eapply visit_graph_inv.
      * apply init_graph_inv.
  - apply visit_queue_pushes.
Qed.

(** C1, as stated, fails in its last part: the queue also grows by
    specifiers of files that are visited.  On the cycle of [a.js] and
    [b.js] the scan of [b.js] queues [a.js], visited in the first
    iteration; the loop takes it from the queue a second time. *)
Lemma queue_grows_by_visited_file_counterexample :
  ∃ st1 st2 st3,
    queue (init (str "/") [str "a.js"] opts_p)
      = [Build_Item (str "/p/a.js") 0] ∧
    visit fs_cycle (str "/") opts_p (Build_Item (str "/p/a.js") 0)
          (set_queue [] (init (str "/") [str "a.js"] opts_p)) = Some st1 ∧
    queue st1 = [Build_Item (str "/p/b.js") 1] ∧
    visit fs_cycle (str "/") opts_p (Build_Item (str "/p/b.js") 1)
          (set_queue [] st1) = Some st2 ∧
    relPath_of (str "/") opts_p (str "/p/a.js") ∈ visited st1 ∧
    queue st2 = [Build_Item (str "/p/a.js") 2] ∧
    loop fs_cycle (str "/") 3 opts_p (init (str "/") [str "a.js"] opts_p)
      = Returns st3 ∧
    dequeued fs_cycle (str "/") opts_p 3 (init (str "/") [str "a.js"] opts_p)
      = [Build_Item (str "/p/a.js") 0; Build_Item (str "/p/b.js") 1;
         Build_Item (str "/p/a.js") 2].
Proof.
  eexists _, _, _.
  split; [by vm_compute|]. split; [by vm_compute|].
  split; [by vm_compute|]. split; [by vm_compute|].
  split; [apply (bool_decide_unpack _); by vm_compute|].
  split; [by vm_compute|]. split; by vm_compute.
Qed.

Lemma fs_of_exists files dirs f :
  existsSync (fs_of files dirs) f = true → f ∈ files.*1 ++ dirs.
Proof.
  simpl. intros [H|H]%orb_true_iff; apply bool_decide_eq_true in H;
    apply elem_of_app; auto.
Qed.

Lemma buildGraph_terminates_witness :
  ∃ fuel, buildGraph fs_chain (str "/") fuel [str "a.js"] opts_depth1
          ≠ OutOfFuel.
Proof.
  destruct (buildGraph_terminates fs_chain (str "/") opts_depth1 [str "a.js"]
              [str "a.js"; str "b.js"; str "c.js"; []]) as [[fuel H] _].
  - intros f Hf. apply fs_of_exists in Hf. simpl in Hf.
    repeat (apply elem_of_cons in Hf as [->|Hf]);
      [apply (bool_decide_unpack _); by vm_compute ..|].
    by apply elem_of_nil in Hf.
  - exists fuel. by apply (H fuel).
Defined.

(** *** The depth bound on a chain of three files *)

Section Chain.

Variable fs : FileSystem.
Variable cwd : jsstring.
Variable opts : Options.
Hypothesis cwd_absolute : Path.isAbsolute cwd = true.

(** C5: let the entry A hold one specifier, local and resolved to the
    path [rb] of B, and let B, the file queued for [rb], hold one
    specifier, local and resolved to the path [rc] of a third file C.
    With [maxDepth = 1] the nodes are exactly A and B, in this order,
    C is not a node, and the edges are A→B and B→C. *)
Theorem depth_bound_chain (ea : jsstring) (la lb : language)
    (srca srcb da db rb rc : jsstring) :
  let fa := entry_file cwd opts ea in
  let fb := Path.resolve cwd [rootDir opts; rb] in
  let ra := relPath_of cwd opts fa in
  maxDepth opts = Some 1 →
  existsSync fs fa = true → detectLanguage fa = Some la →
  readFileSync fs fa = Some srca → parser_parse la srca = Some [da] →
  parser_classify la da = local →
  resolveLocal fs cwd da fa (rootDir opts) = Some rb → rb ≠ [] →
  existsSync fs fb = true → detectLanguage fb = Some lb →
  readFileSync fs fb = Some srcb → parser_parse lb srcb = Some [db] →
  parser_classify lb db = local →
  resolveLocal fs cwd db fb (rootDir opts) = Some rc → rc ≠ [] →
  ra ≠ rb → rc ≠ ra → rc ≠ rb →
  ∀ fuel, 2 ≤ fuel →
    ∃ g, buildGraph fs cwd fuel [ea] opts = Returns g ∧
         g_nodes g = [Build_Node ra la 1; Build_Node rb lb 1] ∧
         (rc ∉ map path (g_nodes g)) ∧
         g_edges g = [Build_Edge ra rb da local; Build_Edge rb rc db local].
Proof.
  intros fa fb ra Hmax Hexa Hla Hra Hpa Hca Hres_a Hrb Hexb Hlb Hrdb Hpb Hcb
    Hres_b Hrc Hab Hca' Hcb' fuel Hfuel.
  assert (relPath_of cwd opts fb = rb) as Hrel_b.
  { destruct (resolveLocal_relative fs cwd _ _ _ _ Hres_a) as [x Hx].
    unfold fb, relPath_of. rewrite Hx. apply relative_resolve; [done|].
    by rewrite <- Hx. }
  assert (truthy rb = true) as Htb.
  { unfold truthy. by rewrite bool_decide_eq_false_2. }
  assert (truthy rc = true) as Htc.
  { unfold truthy. by rewrite bool_decide_eq_false_2. }
  destruct fuel as [|[|fuel]]; [lia|lia|].
  unfold buildGraph.
  set (st0 := init cwd [ea] opts).
  set (st1 :=
    push_queue (Build_Item fb 1)
      (push_edge (Build_Edge ra rb da local)
         (set_node ra (Build_Node ra la 1)
            (add_visited ra (set_queue [] st0))))).
  set (st2 :=
    push_edge (Build_Edge rb rc db local)
      (set_node rb (Build_Node rb lb 1)
         (add_visited rb (set_queue [] st1)))).
  assert (visit fs cwd opts (Build_Item fa 0) (set_queue [] st0) = Some st1)
    as Hv1.
  { rewrite (visit_scans fs cwd opts _ _ la srca [da]);
      [|first [done | simpl; set_solver] ..].
    simpl. unfold process_dep. fold ra.
    rewrite Hca, Hres_a, Htb, Hmax. done. }
  assert (visit fs cwd opts (Build_Item fb 1) (set_queue [] st1) = Some st2)
    as Hv2.
  { rewrite (visit_scans fs cwd opts _ _ lb srcb [db]);
      [|first [done | simpl; rewrite Hrel_b; set_solver] ..].
    simpl. unfold process_dep. rewrite Hrel_b.
    rewrite Hcb, Hres_b, Htc, Hmax. done. }
  assert (loop fs cwd (S (S fuel)) opts st0 = Returns st2) as ->.
  { change (loop fs cwd (S (S fuel)) opts st0) with
      (match visit fs cwd opts (Build_Item fa 0) (set_queue [] st0) with
       | Some st' => loop fs cwd (S fuel) opts st'
       | None => Throws
       end).
    rewrite Hv1.
    change (loop fs cwd (S fuel) opts st1) with
      (match visit fs cwd opts (Build_Item fb 1) (set_queue [] st1) with
       | Some st' => loop fs cwd fuel opts st'
       | None => Throws
       end).
    rewrite Hv2. by destruct fuel. }
  eexists. split; [done|]. simpl.
  rewrite !bool_decide_eq_false_2 by done.
  split_and!; [done| |done].
  simpl. rewrite !not_elem_of_cons. split_and!; [done|done|].
  by intros ?%elem_of_nil.
Qed.

End Chain.

Lemma depth_bound_chain_witness :
  ∃ g, buildGraph fs_chain (str "/") 2 [str "a.js"] opts_depth1 = Returns g ∧
       map path (g_nodes g) = [str "a.js"; str "b.js"] ∧
       g_edges g = [Build_Edge (str "a.js") (str "b.js") (str "./b") local;
                    Build_Edge (str "b.js") (str "c.js") (str "./c") local].
Proof.
  destruct (depth_bound_chain fs_chain (str "/") opts_depth1 eq_refl
              (str "a.js") javascript javascript
              (str "const b = require('./b');")
              (str "const c = require('./c');")
              (str "./b") (str "./c") (str "b.js") (str "c.js"))
    with (fuel := 2) as (g & Hg & Hn & _ & He); try (by vm_compute).
  exists g. split; [done|]. rewrite Hn, He. split; by vm_compute.
Defined.

(** *** Decoys in strings and comments *)

(** C2 fails on the code.  A [require] call written inside a string
    literal is extracted; a string that ends in [from] makes the pattern
    of [import] run on into the next statement, so that a junk specifier
    is extracted and the real import after the string is lost; a quote
    in a regular-expression literal hides the start of a comment, whose
    [require] call is then extracted; and the Python scanner extracts an
    [import] line that lies inside a string. *)
Theorem decoys_are_extracted :
  JavaScript.parse js_string_decoy = Some [str "fake"] ∧
  JavaScript.parse js_swallowed_import =
    Some [str ";" ++ newline ++ str "import real from "] ∧
  JavaScript.parse js_comment_decoy = Some [str "fake"] ∧
  Python.parse py_string_decoy = Some [str "fake"].
Proof. split_and!; by vm_compute. Qed.

(** *** The tests of the repository, run on the embedding *)

Example test_es_module_imports :
  JavaScript.parse
    (str "import foo from 'foo';" ++ newline ++
     str "import { bar } from 'bar';" ++ newline ++
     str "import * as baz from './baz';")
  = Some [str "foo"; str "bar"; str "./baz"].
Proof. by vm_compute. Qed.

Example test_commonjs_require :
  JavaScript.parse
    (str "const fs = require('fs');" ++ newline ++
     str "const path = require('path');" ++ newline ++
     str "const local = require('./lib/util');")
  = Some [str "fs"; str "path"; str "./lib/util"].
Proof. by vm_compute. Qed.

Example test_dynamic_imports :
  JavaScript.parse
    (str "const mod = await import('./dynamic');" ++ newline ++
     str "import('lazy-module').then(m => m.default);")
  = Some [str "./dynamic"; str "lazy-module"].
Proof. by vm_compute. Qed.

Example test_re_exports :
  JavaScript.parse
    (str "export { default } from './base';" ++ newline ++
     str "export * from './utils';")
  = Some [str "./base"; str "./utils"].
Proof. by vm_compute. Qed.

Example test_js_ignores_comments :
  JavaScript.parse
    (str "// import fake from 'fake';" ++ newline ++
     str "/* import also from 'also-fake'; */" ++ newline ++
     str "import real from 'real';")
  = Some [str "real"].
Proof. by vm_compute. Qed.

Example test_js_ignores_imports_inside_strings :
  JavaScript.parse
    (str "const s = " ++ [dquote] ++ str "import fake from 'fake'" ++ [dquote]
     ++ str ";" ++ newline ++ str "import real from 'real';")
  = Some [str "real"].
Proof. by vm_compute. Qed.

Example test_template_literals :
  JavaScript.parse
    (str "const s = `some template`;" ++ newline ++ str "import a from 'a';")
  = Some [str "a"].
Proof. by vm_compute. Qed.

Example test_js_classify :
  map JavaScript.classify
    [str "./local"; str "../parent"; str "/absolute"; str "fs";
     str "node:path"; str "express"; str "@scope/pkg"]
  = [local; local; local; builtin; builtin; external; external].
Proof. by vm_compute. Qed.

Example test_python_imports :
  Python.parse
    (str "import os" ++ newline ++ str "import sys" ++ newline ++
     str "import json" ++ newline)
  = Some [str "os"; str "sys"; str "json"].
Proof. by vm_compute. Qed.

Example test_python_from_imports :
  Python.parse
    (str "from pathlib import Path" ++ newline ++
     str "from collections import defaultdict" ++ newline ++
     str "from .local import helper" ++ newline)
  = Some [str "pathlib"; str "collections"; str ".local"].
Proof. by vm_compute. Qed.

Example test_python_multi_module :
  Python.parse (str "import os, sys, json")
  = Some [str "os"; str "sys"; str "json"].
Proof. by vm_compute. Qed.

Example test_python_aliasing :
  Python.parse
    (str "import numpy as np" ++ newline ++
     str "from datetime import datetime as dt" ++ newline)
  = Some [str "datetime"; str "numpy"].
Proof. by vm_compute. Qed.

Example test_python_ignores_comments :
  Python.parse (str "# import fake" ++ newline ++ str "import real" ++ newline)
  = Some [str "real"].
Proof. by vm_compute. Qed.

Example test_python_ignores_docstrings :
  Python.parse
    ([dquote; dquote; dquote] ++ newline ++ str "import fake_in_docstring"
     ++ newline ++ [dquote; dquote; dquote] ++ newline ++ str "import real"
     ++ newline)
  = Some [str "real"].
Proof. by vm_compute. Qed.

Example test_python_relative_imports :
  Python.parse
    (str "from . import sibling" ++ newline ++
     str "from .. import parent" ++ newline ++
     str "from ...deep import something" ++ newline)
  = Some [str "."; str ".."; str "...deep"].
Proof. by vm_compute. Qed.

Example test_python_classify :
  map Python.classify
    [str "os"; str "sys"; str "pathlib"; str ".local"; str "..parent";
     str "numpy"; str "requests"]
  = [builtin; builtin; builtin; local; local; external; external].
Proof. by vm_compute. Qed.

Example test_resolve_with_extension :
  resolveLocal fs_resolve (str "/") (str "./b") (str "/p/src/a.js") (str "/p")
  = Some (str "src/b.js").
Proof. by vm_compute. Qed.

Example test_resolve_index_file :
  resolveLocal fs_resolve (str "/") (str "./lib") (str "/p/src/a.js") (str "/p")
  = Some (str "src/lib/index.js").
Proof. by vm_compute. Qed.

Example test_resolve_unresolvable :
  resolveLocal fs_resolve (str "/") (str "./nonexistent") (str "/p/src/a.js")
    (str "/p")
  = None.
Proof. by vm_compute. Qed.

Example test_simple_graph :
  ∃ g, buildGraph fs_simple (str "/") 5 [str "index.js"] opts_p = Returns g ∧
       map path (g_nodes g) = [str "index.js"; str "a.js"; str "b.js"] ∧
       length (g_edges g) = 3 ∧ g_externals g = [].
Proof. eexists. split; [by vm_compute|]. by vm_compute. Qed.

Example test_external_dependencies :
  ∃ g, buildGraph fs_external (str "/") 5 [str "index.js"] opts_p = Returns g ∧
       g_externals g = [str "express"] ∧ g_builtins g = [str "fs"] ∧
       g_edges g = [].
Proof. eexists. split; [by vm_compute|]. by vm_compute. Qed.

Example test_include_external :
  ∃ g, buildGraph fs_external (str "/") 5 [str "index.js"] opts_external
         = Returns g ∧
       g_edges g = [Build_Edge (str "index.js") (str "[ext] express")
                      (str "express") external].
Proof. eexists. split; [by vm_compute|]. by vm_compute. Qed.

Example test_circular_dependencies :
  ∃ g, buildGraph fs_cycle (str "/") 5 [str "a.js"] opts_p = Returns g ∧
       map path (g_nodes g) = [str "a.js"; str "b.js"] ∧
       g_edges g = [Build_Edge (str "a.js") (str "b.js") (str "./b") local;
                    Build_Edge (str "b.js") (str "a.js") (str "./a") local].
Proof. eexists. split; [by vm_compute|]. by vm_compute. Qed.

Example test_tracks_unresolved :
  ∃ g, buildGraph fs_missing (str "/") 5 [str "index.js"] opts_p = Returns g ∧
       g_unresolved g =
         [Build_UnresolvedImport (str "index.js") (str "./missing")].
Proof. eexists. split; [by vm_compute|]. by vm_compute. Qed.

Example test_python_files :
  ∃ g, buildGraph fs_python (str "/") 5 [str "main.py"] opts_p = Returns g ∧
       map path (g_nodes g) = [str "main.py"] ∧ g_builtins g = [str "os"] ∧
       g_unresolved g = [Build_UnresolvedImport (str "main.py") (str ".utils")].
Proof. eexists. split; [by vm_compute|]. by vm_compute. Qed.

(** *** The fuel of the model is never what stops a loop *)

Section Fuel.

Context {A : Type}.

Lemma aligned_refl x : aligned x x.
Proof. by split. Qed.

Lemma aligned_trans x y z : aligned x y → aligned y z → aligned x z.
Proof. unfold aligned. lia. Qed.

Lemma rep_loop_local
    (m : pos → option jsstring → (pos → option jsstring → option A) → option A)
    greedy fuel :
  local_matcher m →
  ∀ min max x0 x cap k k',
    (∀ y c, aligned x0 y → k y c = k' y c) → aligned x0 x →
    rep_loop m k greedy fuel min max x cap =
    rep_loop m k' greedy fuel min max x cap.
Proof.
  intros Hm. induction fuel as [|fuel IH]; intros min max x0 x cap k k' Hk Hx.
  - simpl. destruct max as [[|]|]; by apply Hk.
  - assert (Hkx : k x cap = k' x cap) by (by apply Hk).
    assert (Hd : m x cap (λ y cap1,
        if Nat.eqb min 0 && Nat.eqb (p_idx y) (p_idx x) then None
        else rep_loop m k greedy fuel (Nat.pred min) (Nat.pred <$> max) y cap1)
      = m x cap (λ y cap1,
        if Nat.eqb min 0 && Nat.eqb (p_idx y) (p_idx x) then None
        else rep_loop m k' greedy fuel (Nat.pred min) (Nat.pred <$> max) y cap1)).
    { apply Hm. intros y c Hy. destruct (_ && _); [done|].
      apply (IH _ _ x0); [done|]. by eapply aligned_trans. }
    simpl. destruct max as [[|mx]|]; [done| |]; rewrite Hd, Hkx; done.
Qed.

Lemma rmatch_local ml r :
  local_matcher (λ x cap k, rmatch (A:=A) ml r x cap k).
Proof.
  induction r as [|f|a IHa b IHb|a IHa b IHb|min max greedy a IHa|a IHa| | |];
    intros x cap k k' Hk; simpl.
  - apply Hk, aligned_refl.
  - destruct (p_rest x) as [|c t] eqn:Hx; [done|]. destruct (f c); [|done].
    apply Hk. unfold aligned. simpl. rewrite Hx. simpl. lia.
  - apply IHa. intros y c Hy. apply IHb. intros z c' Hz.
    apply Hk. by eapply aligned_trans.
  - by rewrite (IHa x cap k k'), (IHb x cap k k').
  - apply (rep_loop_local _ _ _ IHa _ _ x); [done|apply aligned_refl].
  - apply IHa. intros y c Hy. by apply Hk.
  - destruct (at_bol ml x); [|done]. apply Hk, aligned_refl.
  - destruct (at_eol ml x); [|done]. apply Hk, aligned_refl.
  - destruct (xorb _ _); [|done]. apply Hk, aligned_refl.
Qed.

Lemma rep_loop_unfold
    (m : pos → option jsstring → (pos → option jsstring → option A) → option A)
    k greedy fuel min max x cap :
  max ≠ Some 0 →
  rep_loop m k greedy (S fuel) min max x cap =
  let d := λ y cap1,
    if Nat.eqb min 0 && Nat.eqb (p_idx y) (p_idx x) then None
    else rep_loop m k greedy fuel (Nat.pred min) (Nat.pred <$> max) y cap1 in
  if negb (Nat.eqb min 0) then m x cap d
  else if greedy then or_else (m x cap d) (k x cap)
  else or_else (k x cap) (m x cap d).
Proof. by destruct max as [[|]|]. Qed.

Lemma rep_loop_exhausted n c
    (m : pos → option jsstring → (pos → option jsstring → option A) → option A)
    k greedy fuel max x cap :
  local_matcher m → advances n c m → p_rest x = [] →
  rep_loop m k greedy fuel 0 max x cap = k x cap.
Proof.
  intros Hloc Hadv Hx. destruct fuel as [|fuel]; [by destruct max as [[|]|]|].
  destruct (decide (max = Some 0)) as [->|Hmax]; [done|].
  rewrite rep_loop_unfold by done. cbn zeta.
  assert (m x cap (λ y cap1,
        if Nat.eqb 0 0 && Nat.eqb (p_idx y) (p_idx x) then None
        else rep_loop m k greedy fuel (Nat.pred 0) (Nat.pred <$> max) y cap1)
      = None) as ->.
  { rewrite (Hloc x cap _ (λ _ _, None)).
    - destruct (m x cap (λ _ _, None)) as [v|] eqn:E; [|done].
      by apply Hadv in E as (? & ? & ? & _).
    - intros y c0 [Hy1 Hy2]. rewrite Hx in Hy1, Hy2. simpl in *.
      assert (p_idx y = p_idx x) as -> by lia. by rewrite Nat.eqb_refl. }
  simpl. destruct greedy; [done|]. by destruct (k x cap).
Qed.

(** Any fuel from [min] plus the number of code units left on gives
    RepeatMatcher the same result. *)
Lemma rep_loop_fuel n c
    (m : pos → option jsstring → (pos → option jsstring → option A) → option A)
    k greedy :
  local_matcher m → advances n c m →
  ∀ f1 f2 min max x cap,
    min + length (p_rest x) ≤ f1 → min + length (p_rest x) ≤ f2 →
    rep_loop m k greedy f1 min max x cap =
    rep_loop m k greedy f2 min max x cap.
Proof.
  intros Hloc Hadv.
  induction f1 as [|f1 IH]; intros f2 min max x cap H1 H2.
  { assert (min = 0) as -> by lia.
    assert (p_rest x = []) as Hx by (destruct (p_rest x); [done|simpl in *; lia]).
    by rewrite !(rep_loop_exhausted n c). }
  destruct f2 as [|f2].
  { assert (min = 0) as -> by lia.
    assert (p_rest x = []) as Hx by (destruct (p_rest x); [done|simpl in *; lia]).
    by rewrite !(rep_loop_exhausted n c). }
  destruct (decide (max = Some 0)) as [->|Hmax]; [done|].
  rewrite !rep_loop_unfold by done. cbn zeta.
  assert (m x cap (λ y cap1,
        if Nat.eqb min 0 && Nat.eqb (p_idx y) (p_idx x) then None
        else rep_loop m k greedy f1 (Nat.pred min) (Nat.pred <$> max) y cap1)
      = m x cap (λ y cap1,
        if Nat.eqb min 0 && Nat.eqb (p_idx y) (p_idx x) then None
        else rep_loop m k greedy f2 (Nat.pred min) (Nat.pred <$> max) y cap1))
    as ->; [|done].
  apply Hloc. intros y c0 [Hy1 Hy2].
  destruct (Nat.eqb_spec min 0) as [->|Hmin]; simpl.
  - destruct (Nat.eqb_spec (p_idx y) (p_idx x)) as [|Hne]; [done|].
    apply IH; simpl in *; lia.
  - apply IH; lia.
Qed.

(** The fuel [rmatch] gives to a quantifier is such a fuel. *)
Lemma rmatch_rep_fuel ml min max greedy a x cap k extra :
  rmatch (A:=A) ml (Rep min max greedy a) x cap k =
  rep_loop (λ y cap' k', rmatch ml a y cap' k') k greedy
    (min + length (p_rest x) + extra) min max x cap.
Proof.
  simpl. apply (rep_loop_fuel (minlen a) (captures a));
    [apply rmatch_local|apply rmatch_advances|lia|lia].
Qed.

End Fuel.

Lemma js_strip_loop_fuel f1 f2 s result :
  length s ≤ f1 → length s ≤ f2 →
  JavaScript.strip_loop f1 s result = JavaScript.strip_loop f2 s result.
Proof.
  revert f2 s result. induction f1 as [|f1 IH]; intros f2 s result H1 H2.
  { destruct s; [by destruct f2|simpl in H1; lia]. }
  destruct s as [|c t]; [by destruct f2|].
  destruct f2 as [|f2]; [simpl in H2; lia|]. simpl.
  pose proof (js_strip_step_length c t) as Hs.
  destruct (JavaScript.strip_step c t) as [o r]. simpl in *.
  apply IH; lia.
Qed.

Lemma py_strip_loop_fuel f1 f2 s result :
  length s ≤ f1 → length s ≤ f2 →
  Python.strip_loop f1 s result = Python.strip_loop f2 s result.
Proof.
  revert f2 s result. induction f1 as [|f1 IH]; intros f2 s result H1 H2.
  { destruct s; [by destruct f2|simpl in H1; lia]. }
  destruct s as [|c t]; [by destruct f2|].
  destruct f2 as [|f2]; [simpl in H2; lia|]. simpl.
  pose proof (py_strip_step_length c t) as Hs.
  destruct (Python.strip_step c t) as [o r]. simpl in *.
  apply IH; lia.
Qed.

Lemma collect_fuel ml r body f1 f2 x deps :
  0 < minlen r →
  length (p_rest x) ≤ f1 → length (p_rest x) ≤ f2 →
  collect f1 ml r body x deps = collect f2 ml r body x deps.
Proof.
  intros Hmin. revert f2 x deps.
  induction f1 as [|f1 IH]; intros f2 x deps H1 H2.
  { destruct f2; simpl; destruct (exec ml r x) as [[y cap]|] eqn:E; try done.
    apply exec_from_advances in E as [Hl _]. lia. }
  destruct f2 as [|f2]; simpl.
  { destruct (exec ml r x) as [[y cap]|] eqn:E; [|done].
    apply exec_from_advances in E as [Hl _]. lia. }
  destruct (exec ml r x) as [[y cap]|] eqn:E; [|done].
  apply exec_from_advances in E as [Hl _].
  destruct cap as [c|]; [|done].
  destruct (body c deps) as [deps'|]; [|done]. simpl.
  apply IH; lia.
Qed.

(** *** What the JavaScript scanner does remove

    After text without slash, quote or backquote a comment is removed
    whole: what it holds has no part in the result of [parse]. *)

Lemma js_strip_plain pre rest acc f :
  Forall plain_char pre →
  JavaScript.strip_loop (length pre + f) (pre ++ rest) acc =
  JavaScript.strip_loop f rest (acc ++ pre).
Proof.
  revert acc. induction pre as [|c pre IH]; intros acc HF.
  - by rewrite app_nil_r.
  - inversion HF as [|? ? (H1 & H2 & H3 & H4) HF']; subst.
    change (JavaScript.strip_loop (length (c :: pre) + f) ((c :: pre) ++ rest) acc)
      with (let (o, r) := JavaScript.strip_step c (pre ++ rest) in
            JavaScript.strip_loop (length pre + f) r (acc ++ o)).
    unfold JavaScript.strip_step.
    destruct (N.eqb_spec c (ch "/")) as [|_]; [done|].
    destruct (N.eqb_spec c (ch "`")) as [|_]; [done|].
    destruct (N.eqb_spec c dquote) as [|_]; [done|].
    destruct (N.eqb_spec c (ch "'")) as [|_]; [done|].
    simpl. rewrite IH by done. by rewrite <- app_assoc.
Qed.

Lemma js_skip_line_comment c post :
  10%N ∉ c → JavaScript.skip_line (c ++ newline ++ post) = newline ++ post.
Proof.
  induction c as [|a c IH]; [done|]. rewrite not_elem_of_cons. intros [Ha Hc].
  simpl. destruct (N.eqb_spec a (ch "010")) as [->|_]; [done|]. by apply IH.
Qed.

Lemma js_skip_block_comment c post :
  has_close c = false →
  JavaScript.skip_block (c ++ str "*/" ++ post) = str "*/" ++ post.
Proof.
  induction c as [|a c IH]; [done|]. intros Hc.
  change (JavaScript.skip_block ((a :: c) ++ str "*/" ++ post)) with
    (match c ++ str "*/" ++ post with
     | d :: _ => if N.eqb a (ch "*") && N.eqb d (ch "/")
                 then a :: c ++ str "*/" ++ post
                 else JavaScript.skip_block (c ++ str "*/" ++ post)
     | [] => JavaScript.skip_block (c ++ str "*/" ++ post)
     end).
  destruct c as [|b c].
  - change ([] ++ str "*/" ++ post) with (ch "*" :: ch "/" :: post).
    cbv iota beta. change (N.eqb (ch "*") (ch "/")) with false.
    rewrite andb_false_r. reflexivity.
  - change (has_close (a :: b :: c)) with
      ((N.eqb a (ch "*") && N.eqb b (ch "/")) || has_close (b :: c)) in Hc.
    apply orb_false_iff in Hc as [Hab Hc].
    change ((b :: c) ++ str "*/" ++ post) with (b :: (c ++ str "*/" ++ post)).
    cbv iota beta. rewrite Hab. by apply IH.
Qed.

(** X15: the JavaScript scanner ignores line comments.  After text
    without slash, quote and backquote, a comment that starts with [//]
    and runs to the end of its line has no part in the result of
    [parse]. *)
Lemma js_line_comment_ignored pre c post :
  Forall plain_char pre → 10%N ∉ c →
  JavaScript.parse (pre ++ str "//" ++ c ++ newline ++ post) =
  JavaScript.parse (pre ++ newline ++ post).
Proof.
  intros Hpre Hc. unfold JavaScript.parse, JavaScript.stripComments.
  set (s1 := pre ++ str "//" ++ c ++ newline ++ post).
  set (s2 := pre ++ newline ++ post).
  set (F := length pre + S (length (str "//" ++ c ++ newline ++ post))).
  rewrite (js_strip_loop_fuel (length s1) F s1) by
    (unfold s1, F; rewrite ?length_app; simpl; lia).
  rewrite (js_strip_loop_fuel (length s2) (length pre + length (newline ++ post)) s2)
    by (unfold s2; rewrite ?length_app; simpl; lia).
  unfold s1, s2, F. rewrite !js_strip_plain by done.
  change (JavaScript.strip_loop (S (length (str "//" ++ c ++ newline ++ post)))
            (str "//" ++ c ++ newline ++ post) ([] ++ pre))
    with (JavaScript.strip_loop (length (str "//" ++ c ++ newline ++ post))
            (JavaScript.skip_line (c ++ newline ++ post)) (([] ++ pre) ++ [])).
  rewrite js_skip_line_comment by done. rewrite app_nil_r.
  f_equal. apply js_strip_loop_fuel; rewrite ?length_app; simpl; lia.
Qed.

Lemma js_line_comment_ignored_witness :
  JavaScript.parse (str "var x = 1; " ++ str "//" ++ str " require('fake')" ++
                    newline ++ str "require('real')") = Some [str "real"].
Proof.
  rewrite (js_line_comment_ignored (str "var x = 1; ") (str " require('fake')")
             (str "require('real')")).
  - by vm_compute.
  - apply (bool_decide_unpack _). by vm_compute.
  - apply (bool_decide_unpack _). by vm_compute.
Defined.

(** X16: the JavaScript scanner ignores block comments.  After text
    without slash, quote and backquote, a comment between [/*] and the
    first [*/] has no part in the result of [parse]: the text parses as
    if the comment were not there. *)
Lemma js_block_comment_ignored pre c post :
  Forall plain_char pre → has_close c = false →
  JavaScript.parse (pre ++ str "/*" ++ c ++ str "*/" ++ post) =
  JavaScript.parse (pre ++ post).
Proof.
  intros Hpre Hc. unfold JavaScript.parse, JavaScript.stripComments.
  set (s1 := pre ++ str "/*" ++ c ++ str "*/" ++ post).
  set (s2 := pre ++ post).
  set (F := length pre + S (length (str "/*" ++ c ++ str "*/" ++ post))).
  rewrite (js_strip_loop_fuel (length s1) F s1) by
    (unfold s1, F; rewrite ?length_app; simpl; lia).
  rewrite (js_strip_loop_fuel (length s2) (length pre + length post) s2)
    by (unfold s2; rewrite ?length_app; simpl; lia).
  unfold s1, s2, F. rewrite !js_strip_plain by done.
  change (JavaScript.strip_loop (S (length (str "/*" ++ c ++ str "*/" ++ post)))
            (str "/*" ++ c ++ str "*/" ++ post) ([] ++ pre))
    with (JavaScript.strip_loop (length (str "/*" ++ c ++ str "*/" ++ post))
            (drop 2 (JavaScript.skip_block (c ++ str "*/" ++ post)))
            (([] ++ pre) ++ [])).
  rewrite js_skip_block_comment by done. rewrite app_nil_r.
  change (drop 2 (str "*/" ++ post)) with post.
  f_equal. apply js_strip_loop_fuel; rewrite ?length_app; simpl; lia.
Qed.

Lemma js_block_comment_ignored_witness :
  JavaScript.parse (str "var x = 1; " ++ str "/*" ++ str " require('fake') " ++
                    str "*/" ++ str " require('real')") = Some [str "real"].
Proof.
  rewrite (js_block_comment_ignored (str "var x = 1; ") (str " require('fake') ")
             (str " require('real')")).
  - by vm_compute.
  - apply (bool_decide_unpack _). by vm_compute.
  - by vm_compute.
Defined.

(** *** The graph as the sum of the scans *)

Section Scans.

Variable fs : FileSystem.
Variable cwd : jsstring.
Variable opts : Options.

Lemma elem_of_set_add d x s : d ∈ set_add x s ↔ d ∈ s ∨ d = x.
Proof.
  unfold set_add. case_bool_decide as Hx.
  - split; [by left|]. by intros [?| ->].
  - rewrite elem_of_app, list_elem_of_singleton. done.
Qed.

Lemma process_dep_names lang relPath file_ depth_ st dep :
  let st' := process_dep fs cwd opts lang relPath file_ depth_ st dep in
  (∀ d, d ∈ externals st' ↔
        d ∈ externals st ∨ (d = dep ∧ parser_classify lang dep = external)) ∧
  (∀ d, d ∈ builtins st' ↔
        d ∈ builtins st ∨ (d = dep ∧ parser_classify lang dep = builtin)) ∧
  (NoDup (externals st) → NoDup (externals st')) ∧
  (NoDup (builtins st) → NoDup (builtins st')).
Proof.
  unfold process_dep. cbv zeta.
  destruct (parser_classify lang dep) eqn:Hc.
  - destruct (resolveLocal _ _ _ _ _) as [r|];
      [destruct (truthy r); [destruct (depth_lt _ _)|]|]; simpl;
      (split_and!; try done; intros d; split; auto; by intros [?|[_ [=]]]).
  - destruct (includeBuiltin opts); simpl.
    all: split_and!; try done; try apply set_add_NoDup.
    all: intros d; rewrite ?elem_of_set_add; first [tauto | intuition congruence].
  - destruct (includeExternal opts); simpl.
    all: split_and!; try done; try apply set_add_NoDup.
    all: intros d; rewrite ?elem_of_set_add; first [tauto | intuition congruence].
Qed.

Lemma process_deps_names lang relPath file_ depth_ deps st :
  let st' := foldl (process_dep fs cwd opts lang relPath file_ depth_) st deps in
  (∀ d, d ∈ externals st' ↔
        d ∈ externals st ∨ (d ∈ deps ∧ parser_classify lang d = external)) ∧
  (∀ d, d ∈ builtins st' ↔
        d ∈ builtins st ∨ (d ∈ deps ∧ parser_classify lang d = builtin)) ∧
  (NoDup (externals st) → NoDup (externals st')) ∧
  (NoDup (builtins st) → NoDup (builtins st')).
Proof.
  revert st. induction deps as [|dep deps IH]; intros st; cbn [foldl].
  - split_and!; try done; intros d; split; auto;
      by intros [?|[?%elem_of_nil _]].
  - destruct (IH (process_dep fs cwd opts lang relPath file_ depth_ st dep))
      as (He & Hb & Hne & Hnb).
    destruct (process_dep_names lang relPath file_ depth_ st dep)
      as (He1 & Hb1 & Hne1 & Hnb1).
    split_and!; auto.
    + intros d. rewrite He, He1, elem_of_cons. first [tauto | intuition congruence].
    + intros d. rewrite Hb, Hb1, elem_of_cons. first [tauto | intuition congruence].
Qed.

Lemma init_scans_inv entries :
  scans_inv fs cwd opts [] (init cwd entries opts).
Proof.
  split; simpl; try done; try apply NoDup_nil_2.
  - by intros s ?%elem_of_nil.
  - intros d. split; [by intros ?%elem_of_nil|].
    by intros (s & ?%elem_of_nil & _).
  - intros d. split; [by intros ?%elem_of_nil|].
    by intros (s & ?%elem_of_nil & _).
Qed.

Lemma found_snoc scans s t d :
  found (scans ++ [s]) t d ↔
  found scans t d ∨ (d ∈ s_deps s ∧ parser_classify (s_lang s) d = t).
Proof.
  unfold found. split.
  - intros (s' & [Hs| ->%list_elem_of_singleton]%elem_of_app & Hd & Hc);
      [left; by exists s'|by right].
  - intros [(s' & Hs & Hd & Hc)|[Hd Hc]].
    + exists s'. split; [apply elem_of_app; by left|done].
    + exists s. split; [apply elem_of_app; right; by apply list_elem_of_singleton|done].
Qed.

Lemma flat_map_snoc {A B} (f : A → list B) l x :
  flat_map f (l ++ [x]) = flat_map f l ++ f x.
Proof. rewrite flat_map_app. simpl. by rewrite app_nil_r. Qed.

Lemma visit_scans_inv item q scans st st' :
  graph_inv fs cwd opts st →
  scans_inv fs cwd opts scans st →
  visit fs cwd opts item (set_queue q st) = Some st' →
  ∃ scans', scans_inv fs cwd opts scans' st'.
Proof.
  intros [_ Hn _ _] [Hval Hnodes Hvis Hedges Hunres Hext Hblt Hne Hnb] Hvisit.
  apply visit_cases in Hvisit as [Hin ->|Hnin Hskip ->|
    lang source deps Hnin Hex Hlang Hread Hparse ->]; simpl in *.
  - exists scans. by split.
  - exists scans. split; simpl; try done.
    intros s Hs. apply elem_of_union. right. by apply Hvis.
  - set (relPath := relPath_of cwd opts (file item)) in *.
    set (node := Build_Node relPath lang (length deps)).
    set (st0 := set_node relPath node (add_visited relPath (set_queue q st))).
    destruct (process_deps_effect fs cwd opts lang relPath (file item)
                (depth item) deps st0) as (Hnodes' & Hvis' & Hedges' & _ & Hunres').
    destruct (process_deps_names lang relPath (file item) (depth item) deps st0)
      as (Hext' & Hblt' & Hne' & Hnb').
    assert (relPath ∉ map path (nodes st)) as Hfresh.
    { intros (n & Hp & Hnn)%list_elem_of_fmap.
      destruct (Hn n Hnn) as [Hnv _]. rewrite <- Hp in Hnv. done. }
    exists (scans ++ [Build_Scan (file item) lang deps]).
    split.
    + apply Forall_app. split; [done|]. apply Forall_singleton.
      split_and!; simpl; try done. by exists source.
    + rewrite Hnodes'. unfold st0. simpl. rewrite map_set_fresh by done.
      by rewrite map_app, Hnodes.
    + rewrite Hvis'. unfold st0. simpl.
      intros s [Hs| ->%list_elem_of_singleton]%elem_of_app.
      * apply elem_of_union. right. by apply Hvis.
      * apply elem_of_union. left. by apply elem_of_singleton.
    + rewrite Hedges'. unfold st0. simpl. by rewrite flat_map_snoc, Hedges.
    + rewrite Hunres'. unfold st0. simpl. by rewrite flat_map_snoc, Hunres.
    + intros d. rewrite Hext', found_snoc. unfold st0. simpl. by rewrite Hext.
    + intros d. rewrite Hblt', found_snoc. unfold st0. simpl. by rewrite Hblt.
    + by apply Hne'.
    + by apply Hnb'.
Qed.

(** When the loop returns, its state is the sum of what the scans
    contributed, in their order. *)
Lemma loop_scans entries fuel st :
  loop fs cwd fuel opts (init cwd entries opts) = Returns st →
  ∃ scans, scans_inv fs cwd opts scans st.
Proof.
  intros Hloop.
  apply (loop_invariant fs cwd opts
           (λ st, graph_inv fs cwd opts st ∧ ∃ scans, scans_inv fs cwd opts scans st))
    in Hloop as [[_ Hs] _]; [done| |].
  - intros item q st0 st1 [Hinv [scans Hs]] _ Hvisit. split.
    + by eapply visit_graph_inv.
    + by eapply visit_scans_inv.
  - split; [apply init_graph_inv|]. exists []. apply init_scans_inv.
Qed.

Lemma buildGraph_Returns fuel entries g :
  buildGraph fs cwd fuel entries opts = Returns g →
  ∃ st, loop fs cwd fuel opts (init cwd entries opts) = Returns st ∧
        g = result st.
Proof.
  unfold buildGraph.
  destruct (loop fs cwd fuel opts (init cwd entries opts)) as [st| |]; [|done..].
  intros [= <-]. by exists st.
Qed.

End Scans.

(** *** The sorted summaries *)

Lemma str_ltb_irrefl a : str_ltb a a = false.
Proof.
  induction a as [|x a IH]; [done|]. simpl. by rewrite N.ltb_irrefl.
Qed.

Lemma str_ltb_trans a b c :
  str_ltb a b = true → str_ltb b c = true → str_ltb a c = true.
Proof.
  revert b c. induction a as [|x a IH]; intros [|y b] [|z c]; simpl; try done.
  destruct (N.ltb_spec x y), (N.ltb_spec y x), (N.ltb_spec y z),
    (N.ltb_spec z y), (N.ltb_spec x z), (N.ltb_spec z x);
    try done; try lia.
  apply IH.
Qed.

Lemma str_ltb_total a b : str_ltb a b = false → a ≠ b → str_ltb b a = true.
Proof.
  revert b. induction a as [|x a IH]; intros [|y b]; simpl; try done.
  destruct (N.ltb_spec x y), (N.ltb_spec y x); try done; try lia.
  intros Hab Hne. apply IH; [done|].
  intros ->. apply Hne. f_equal. lia.
Qed.

Lemma elem_of_insert_sorted d x l : d ∈ insert_sorted x l ↔ d = x ∨ d ∈ l.
Proof.
  induction l as [|y l IH]; simpl.
  - rewrite list_elem_of_singleton, elem_of_nil. first [tauto | intuition congruence].
  - destruct (str_ltb x y).
    + by rewrite elem_of_cons.
    + rewrite !elem_of_cons, IH. first [tauto | intuition congruence].
Qed.

Lemma elem_of_sort d l : d ∈ sort l ↔ d ∈ l.
Proof.
  induction l as [|x l IH]; [done|]. unfold sort in *. simpl.
  by rewrite elem_of_insert_sorted, elem_of_cons, IH.
Qed.

Lemma insert_sorted_sorted x l :
  x ∉ l → StronglySorted str_lt l → StronglySorted str_lt (insert_sorted x l).
Proof.
  induction l as [|y l IH]; intros Hx Hl; simpl.
  - by repeat constructor.
  - apply not_elem_of_cons in Hx as [Hxy Hx].
    apply StronglySorted_inv in Hl as [Hl Hy].
    destruct (str_ltb x y) eqn:Hlt.
    + constructor; [by constructor|].
      constructor; [done|].
      eapply Forall_impl; [done|]. intros z Hz. by eapply str_ltb_trans.
    + constructor; [by apply IH|].
      apply Forall_forall. intros z [->|Hz]%elem_of_insert_sorted.
      * by apply str_ltb_total.
      * by eapply (proj1 (Forall_forall _ _)) in Hy.
Qed.

Lemma sort_sorted l : NoDup l → StronglySorted str_lt (sort l).
Proof.
  induction 1 as [|x l Hx Hl IH]; [constructor|].
  unfold sort in *. simpl. apply insert_sorted_sorted; [|done].
  by rewrite (elem_of_sort x l).
Qed.

(** X1: the graph returned is the sum of what the files scanned
    contribute, in the order of the scans.  There is a list of scans, each
    of a file that exists, has a recognized language and parses to the
    specifiers of the scan, with distinct root-relative paths, such that
    the nodes are the scans' nodes (path, language, number of distinct
    specifiers), the edges and the unresolved imports are the
    concatenation of the scans' edges and unresolved imports, and the
    external and builtin summaries hold exactly the specifiers of these
    classes found in the scans, whatever the flags. *)
Theorem graph_sum_of_scans (fs : FileSystem) (cwd : jsstring) (opts : Options)
    (fuel : nat) (entries : list jsstring) (g : Graph) :
  buildGraph fs cwd fuel entries opts = Returns g →
  ∃ scans,
    Forall (valid_scan fs) scans ∧
    NoDup (map (scan_path cwd opts) scans) ∧
    g_nodes g = map (scan_node cwd opts) scans ∧
    g_edges g = flat_map (scan_edges fs cwd opts) scans ∧
    g_unresolved g = flat_map (scan_unresolved fs cwd opts) scans ∧
    (∀ d, d ∈ g_externals g ↔ found scans external d) ∧
    (∀ d, d ∈ g_builtins g ↔ found scans builtin d).
Proof.
  intros (st & Hloop & ->)%buildGraph_Returns.
  pose proof (loop_invariant fs cwd opts (graph_inv fs cwd opts)
                (λ item q st0 st1 Hinv _ Hv,
                   visit_graph_inv fs cwd opts item q st0 st1 Hinv Hv)
                fuel _ st (init_graph_inv fs cwd opts entries) Hloop)
    as [[Hnd _ _ _] _].
  apply loop_scans in Hloop as [scans [Hval Hn _ He Hu Hx Hb _ _]].
  exists scans. simpl. split_and!; try done.
  - unfold node_paths in Hnd. rewrite Hn, map_map in Hnd. done.
  - intros d. by rewrite elem_of_sort.
  - intros d. by rewrite elem_of_sort.
Qed.

Lemma graph_sum_of_scans_witness :
  ∃ g, buildGraph fs_simple (str "/") 5 [str "index.js"] opts_p = Returns g ∧
       ∃ scans, g_nodes g = map (scan_node (str "/") opts_p) scans ∧
                g_edges g = flat_map (scan_edges fs_simple (str "/") opts_p) scans.
Proof.
  eexists. split; [by vm_compute|].
  destruct (graph_sum_of_scans fs_simple (str "/") opts_p 5 [str "index.js"] _
              ltac:(by vm_compute)) as (scans & _ & _ & Hn & He & _).
  by exists scans.
Defined.

(** X2: what an edge of the graph says.  It starts at a node.  A local
    edge goes to the path, not empty, that [resolveLocal] returned for its
    specifier from a file that has the path of the start node, a specifier
    that the language of this file classifies as local.  An external edge
    exists only with [includeExternal], goes to the specifier prefixed
    with [[ext] ], and its specifier is in the external summary; a builtin
    edge likewise with [includeBuiltin] and [[builtin] ]. *)
Theorem edges_by_type (fs : FileSystem) (cwd : jsstring) (opts : Options)
    (fuel : nat) (entries : list jsstring) (g : Graph) (e : Edge) :
  buildGraph fs cwd fuel entries opts = Returns g →
  e ∈ g_edges g →
  from e ∈ map path (g_nodes g) ∧
  match type e with
  | local =>
      to e ≠ [] ∧
      ∃ f lang, relPath_of cwd opts f = from e ∧
                detectLanguage f = Some lang ∧
                parser_classify lang (specifier e) = local ∧
                resolveLocal fs cwd (specifier e) f (rootDir opts) = Some (to e)
  | external =>
      includeExternal opts = true ∧
      to e = str "[ext] " ++ specifier e ∧
      specifier e ∈ g_externals g
  | builtin =>
      includeBuiltin opts = true ∧
      to e = str "[builtin] " ++ specifier e ∧
      specifier e ∈ g_builtins g
  end.
Proof.
  intros (st & Hloop & ->)%buildGraph_Returns.
  apply loop_scans in Hloop as [scans [Hval Hn _ He Hu Hx Hb _ _]].
  simpl. rewrite He. intros (s & Hs & Hee)%elem_of_flat_map.
  apply elem_of_flat_map in Hee as (dep & Hdep & Hee).
  pose proof (proj1 (Forall_forall _ _) Hval s Hs) as (Hex & Hlang & _).
  split.
  { rewrite Hn, map_map. apply list_elem_of_fmap. exists s. split; [|done].
    apply dep_edges_from in Hee as [-> _]. done. }
  unfold dep_edges in Hee.
  destruct (parser_classify (s_lang s) dep) eqn:Hc.
  - unfold dep_resolved in Hee.
    destruct (resolveLocal fs cwd dep (s_file s) (rootDir opts)) as [r|] eqn:Hr;
      [|by apply elem_of_nil in Hee].
    destruct (truthy r) eqn:Ht; [|by apply elem_of_nil in Hee].
    apply list_elem_of_singleton in Hee as ->. simpl. split.
    + unfold truthy in Ht. apply negb_true_iff in Ht.
      by apply bool_decide_eq_false in Ht.
    + by exists (s_file s), (s_lang s).
  - destruct (includeBuiltin opts); [|by apply elem_of_nil in Hee].
    apply list_elem_of_singleton in Hee as ->. simpl. split_and!; try done.
    rewrite elem_of_sort. apply Hb. by exists s.
  - destruct (includeExternal opts); [|by apply elem_of_nil in Hee].
    apply list_elem_of_singleton in Hee as ->. simpl. split_and!; try done.
    rewrite elem_of_sort. apply Hx. by exists s.
Qed.

Lemma edges_by_type_witness :
  ∃ g, buildGraph fs_external (str "/") 1 [str "index.js"] opts_flags
         = Returns g ∧
       ∀ e, e ∈ g_edges g → from e ∈ map path (g_nodes g).
Proof.
  eexists. split; [by vm_compute|].
  intros e He.
  apply (edges_by_type fs_external (str "/") opts_flags 1 [str "index.js"] _ e
           ltac:(by vm_compute) He).
Defined.

(** X3: the external and builtin summaries of the graph are sorted in
    strictly increasing order of code units, so that no name is listed
    twice. *)
Theorem summaries_sorted (fs : FileSystem) (cwd : jsstring) (opts : Options)
    (fuel : nat) (entries : list jsstring) (g : Graph) :
  buildGraph fs cwd fuel entries opts = Returns g →
  StronglySorted str_lt (g_externals g) ∧ NoDup (g_externals g) ∧
  StronglySorted str_lt (g_builtins g) ∧ NoDup (g_builtins g).
Proof.
  intros (st & Hloop & ->)%buildGraph_Returns.
  apply loop_scans in Hloop as [scans [_ _ _ _ _ _ _ Hne Hnb]].
  simpl.
  assert (∀ l, StronglySorted str_lt l → NoDup l) as Hnodup.
  { induction 1 as [|x l Hl IH Hx]; constructor; [|done].
    intros Hin. eapply (proj1 (Forall_forall _ _)) in Hx; [|done].
    unfold str_lt in Hx. by rewrite str_ltb_irrefl in Hx. }
  split_and!; auto using sort_sorted.
Qed.

Lemma summaries_sorted_witness :
  ∃ g, buildGraph fs_external (str "/") 1 [str "index.js"] opts_flags
         = Returns g ∧
       NoDup (g_externals g) ∧ NoDup (g_builtins g).
Proof.
  eexists. split; [by vm_compute|].
  destruct (summaries_sorted fs_external (str "/") opts_flags 1 [str "index.js"] _
              ltac:(by vm_compute)) as (_ & He & _ & Hb).
  by split.
Defined.

(** *** The flags add edges and nothing else *)

Section Flags.

Variable fs : FileSystem.
Variable cwd : jsstring.
Variable opts : Options.

Lemma process_dep_flags lang relPath file_ depth_ st st' dep :
  same_but_edges st st' →
  same_but_edges
    (process_dep fs cwd opts lang relPath file_ depth_ st dep)
    (process_dep fs cwd (without_flags opts) lang relPath file_ depth_ st' dep).
Proof.
  intros (Hn & Hx & Hb & Hu & Hq & Hv & He).
  unfold process_dep, same_but_edges. cbv zeta.
  change (rootDir (without_flags opts)) with (rootDir opts).
  change (maxDepth (without_flags opts)) with (maxDepth opts).
  change (includeExternal (without_flags opts)) with false.
  change (includeBuiltin (without_flags opts)) with false.
  destruct (parser_classify lang dep).
  - destruct (resolveLocal _ _ _ _ _) as [r|];
      [destruct (truthy r); [destruct (depth_lt _ _)|]|]; simpl;
      rewrite ?filter_app, ?Hn, ?Hx, ?Hb, ?Hu, ?Hq, ?Hv, ?He; done.
  - destruct (includeBuiltin opts); simpl;
      rewrite ?filter_app, ?Hn, ?Hx, ?Hb, ?Hu, ?Hq, ?Hv, ?He;
      split_and!; try done.
    by rewrite app_nil_r.
  - destruct (includeExternal opts); simpl;
      rewrite ?filter_app, ?Hn, ?Hx, ?Hb, ?Hu, ?Hq, ?Hv, ?He;
      split_and!; try done.
    by rewrite app_nil_r.
Qed.

Lemma process_deps_flags lang relPath file_ depth_ deps st st' :
  same_but_edges st st' →
  same_but_edges
    (foldl (process_dep fs cwd opts lang relPath file_ depth_) st deps)
    (foldl (process_dep fs cwd (without_flags opts) lang relPath file_ depth_)
           st' deps).
Proof.
  revert st st'. induction deps as [|dep deps IH]; intros st st' H; [done|].
  cbn [foldl]. apply IH. by apply process_dep_flags.
Qed.

Lemma visit_flags item st st' s1 :
  same_but_edges st st' →
  visit fs cwd opts item st = Some s1 →
  ∃ s1', visit fs cwd (without_flags opts) item st' = Some s1' ∧
         same_but_edges s1 s1'.
Proof.
  intros Hsame. pose proof Hsame as (Hn & Hx & Hb & Hu & Hq & Hv & He).
  unfold visit.
  change (rootDir (without_flags opts)) with (rootDir opts). rewrite Hv.
  case_bool_decide as Hin.
  { intros [= <-]. by exists st'. }
  assert (same_but_edges
            (add_visited (Path.relative cwd (rootDir opts) (file item)) st)
            (add_visited (Path.relative cwd (rootDir opts) (file item)) st'))
    as Hsame1.
  { unfold same_but_edges. simpl. by rewrite Hn, Hx, Hb, Hu, Hq, Hv, He. }
  destruct (existsSync fs (file item)); simpl.
  2: { intros [= <-]. by eexists. }
  destruct (detectLanguage (file item)) as [lang|].
  2: { intros [= <-]. by eexists. }
  unfold scan_file.
  destruct (readFileSync fs (file item)) as [source|]; [|done]. simpl.
  destruct (parser_parse lang source) as [deps|]; [|done]. simpl.
  intros [= <-]. eexists. split; [done|].
  apply process_deps_flags.
  unfold same_but_edges. simpl. by rewrite Hn, Hx, Hb, Hu, Hq, Hv, He.
Qed.

Lemma loop_flags fuel st st' s1 :
  same_but_edges st st' →
  loop fs cwd fuel opts st = Returns s1 →
  ∃ s1', loop fs cwd fuel (without_flags opts) st' = Returns s1' ∧
         same_but_edges s1 s1'.
Proof.
  revert st st'. induction fuel as [|fuel IH]; intros st st' Hsame; simpl.
  - pose proof Hsame as (_ & _ & _ & _ & -> & _).
    destruct (queue st); [|done]. intros [= <-]. by exists st'.
  - pose proof Hsame as (Hn & Hx & Hb & Hu & Hq & Hv & He). rewrite Hq.
    destruct (queue st) as [|item q] eqn:Hqq.
    { intros [= <-]. by exists st'. }
    destruct (visit fs cwd opts item (set_queue q st)) as [s2|] eqn:Hvisit;
      [|done].
    eapply (visit_flags item _ (set_queue q st')) in Hvisit as (s2' & -> & Hs2).
    + by apply IH.
    + unfold same_but_edges. simpl. by rewrite Hn, Hx, Hb, Hu, Hv, He.
Qed.

End Flags.

(** X4: the flags [includeExternal] and [includeBuiltin] add edges and
    change nothing else.  When [buildGraph] returns a graph, it also
    returns one with both flags off, with the same nodes, external and
    builtin summaries and unresolved imports, and its edges are the local
    edges of the first graph, in the same order. *)
Theorem flags_only_add_edges (fs : FileSystem) (cwd : jsstring)
    (opts : Options) (fuel : nat) (entries : list jsstring) (g : Graph) :
  buildGraph fs cwd fuel entries opts = Returns g →
  ∃ g', buildGraph fs cwd fuel entries (without_flags opts) = Returns g' ∧
        g_nodes g' = g_nodes g ∧
        g_externals g' = g_externals g ∧
        g_builtins g' = g_builtins g ∧
        g_unresolved g' = g_unresolved g ∧
        g_edges g' = filter (λ e, type e = local) (g_edges g).
Proof.
  intros (st & Hloop & ->)%buildGraph_Returns.
  eapply (loop_flags fs cwd opts fuel _ (init cwd entries (without_flags opts)))
    in Hloop as (st' & Hloop' & Hn & Hx & Hb & Hu & Hq & Hv & He).
  - exists (result st'). unfold buildGraph. rewrite Hloop'.
    split; [done|]. simpl. by rewrite Hn, Hx, Hb, Hu, He.
  - by split_and!.
Qed.

Lemma flags_only_add_edges_witness :
  ∃ g g', buildGraph fs_external (str "/") 1 [str "index.js"] opts_flags
            = Returns g ∧
          buildGraph fs_external (str "/") 1 [str "index.js"]
            (without_flags opts_flags) = Returns g' ∧
          g_nodes g' = g_nodes g ∧ length (g_edges g) = 2 ∧ g_edges g' = [].
Proof.
  eexists.
  destruct (flags_only_add_edges fs_external (str "/") opts_flags 1
              [str "index.js"] _ ltac:(by vm_compute))
    as (g' & Hg' & Hn & _ & _ & _ & He).
  exists g'. split_and!; [by vm_compute|done|done|by vm_compute|].
  rewrite He. by vm_compute.
Defined.

(** *** Entries that are not scanned *)

Section NotScanned.

Variable fs : FileSystem.
Variable cwd : jsstring.
Variable opts : Options.

Lemma loop_not_scanned q : ∀ fuel st,
  queue st = q → length q ≤ fuel →
  Forall (λ i, not_scanned fs (file i)) q →
  ∃ st', loop fs cwd fuel opts st = Returns st' ∧
         nodes st' = nodes st ∧ edges st' = edges st ∧
         externals st' = externals st ∧ builtins st' = builtins st ∧
         unresolved st' = unresolved st.
Proof.
  induction q as [|item q IH]; intros fuel st Hq Hlen Hall.
  - exists st. destruct fuel; simpl; by rewrite Hq.
  - destruct fuel as [|fuel]; [simpl in Hlen; lia|].
    apply Forall_cons in Hall as [Hitem Hall].
    simpl. rewrite Hq.
    assert (∃ s1, visit fs cwd opts item (set_queue q st) = Some s1 ∧
                  queue s1 = q ∧ nodes s1 = nodes st ∧ edges s1 = edges st ∧
                  externals s1 = externals st ∧ builtins s1 = builtins st ∧
                  unresolved s1 = unresolved st) as (s1 & -> & Hq1 & Hs1).
    { unfold visit. case_bool_decide; [by eexists|].
      destruct Hitem as [->| ->]; simpl; [by eexists|].
      destruct (existsSync fs (file item)); simpl; by eexists. }
    destruct (IH fuel s1 Hq1 ltac:(simpl in Hlen; lia) Hall)
      as (st' & -> & Hst').
    exists st'. split; [done|].
    destruct Hs1 as (-> & -> & -> & -> & ->) in Hst'. done.
Qed.

End NotScanned.

(** X5: entries that are not scanned give the empty graph.  When the
    file of every entry is missing or has an extension of no language,
    [buildGraph] returns after one iteration for each entry, and the graph
    has no nodes, no edges, no external and builtin names and no
    unresolved imports. *)
Theorem buildGraph_entries_not_scanned (fs : FileSystem) (cwd : jsstring)
    (opts : Options) (entries : list jsstring) (fuel : nat) :
  Forall (λ e, not_scanned fs (entry_file cwd opts e)) entries →
  length entries ≤ fuel →
  buildGraph fs cwd fuel entries opts = Returns empty_graph.
Proof.
  intros Hall Hlen. unfold buildGraph.
  destruct (loop_not_scanned fs cwd opts (queue (init cwd entries opts)) fuel
              (init cwd entries opts) eq_refl)
    as (st' & -> & Hn & He & Hx & Hb & Hu).
  - simpl. by rewrite length_map.
  - simpl. apply Forall_map. simpl. done.
  - unfold result, empty_graph. by rewrite Hn, He, Hx, Hb, Hu.
Qed.

Lemma buildGraph_entries_not_scanned_witness :
  buildGraph fs_json (str "/") 2 [str "data.json"; str "nothing.js"] opts_p
  = Returns empty_graph.
Proof.
  apply buildGraph_entries_not_scanned; [|simpl; lia].
  apply Forall_cons. split; [right; by vm_compute|].
  apply Forall_cons. split; [left; by vm_compute|]. apply Forall_nil_2.
Defined.

(** *** The depth of the files scanned *)

Lemma elem_of_map_set key node m n :
  n ∈ map_set key node m → n = node ∨ n ∈ m.
Proof.
  induction m as [|a m IH]; simpl.
  - intros ->%list_elem_of_singleton. by left.
  - case_bool_decide.
    + rewrite !elem_of_cons. first [tauto | intuition congruence].
    + rewrite !elem_of_cons. first [tauto | intuition congruence].
Qed.

Lemma map_set_paths key node m p :
  path node = key →
  p ∈ map path (map_set key node m) ↔ p = key ∨ p ∈ map path m.
Proof.
  intros Hk. induction m as [|a m IH]; simpl.
  - rewrite list_elem_of_singleton, elem_of_nil, Hk. first [tauto | intuition congruence].
  - case_bool_decide as Ha; simpl.
    + rewrite !elem_of_cons, Hk, Ha. first [tauto | intuition congruence].
    + rewrite !elem_of_cons, IH. first [tauto | intuition congruence].
Qed.

Section Depth.

Variable fs : FileSystem.
Variable cwd : jsstring.
Variable opts : Options.
Variable entries : list jsstring.

Lemma init_depth_inv : depth_inv fs cwd opts entries (init cwd entries opts).
Proof.
  split; simpl; [|by intros n ?%elem_of_nil].
  intros i (e & -> & He)%list_elem_of_fmap. simpl. split.
  - destruct (maxDepth opts); simpl; [lia|done].
  - by apply reach_in_entry.
Qed.

Lemma visit_depth_inv item q st st' :
  depth_inv fs cwd opts entries st →
  queue st = item :: q →
  visit fs cwd opts item (set_queue q st) = Some st' →
  depth_inv fs cwd opts entries st'.
Proof.
  intros [Hq Hn] Hqueue Hvisit.
  assert (within (maxDepth opts) (depth item) ∧
          reachable_in fs cwd opts entries (depth item) (file item))
    as [Hwi Hri].
  { apply Hq. rewrite Hqueue. apply elem_of_cons. by left. }
  assert (∀ i, i ∈ q → within (maxDepth opts) (depth i) ∧
                       reachable_in fs cwd opts entries (depth i) (file i))
    as Hq'.
  { intros i Hi. apply Hq. rewrite Hqueue. apply elem_of_cons. by right. }
  apply visit_cases in Hvisit as [Hin ->|Hnin Hskip ->|
    lang source deps Hnin Hex Hlang Hread Hparse ->]; simpl in *.
  - by split.
  - by split.
  - set (relPath := relPath_of cwd opts (file item)) in *.
    set (node := Build_Node relPath lang (length deps)).
    destruct (process_deps_effect fs cwd opts lang relPath (file item)
                (depth item) deps
                (set_node relPath node (add_visited relPath (set_queue q st))))
      as (Hnodes & _ & _ & Hqueue' & _).
    simpl in *. split.
    + rewrite Hqueue'. intros i [Hi|Hi]%elem_of_app; [by apply Hq'|].
      apply elem_of_flat_map in Hi as (dep & Hdep & Hi).
      apply dep_pushes_resolved in Hi as (r & Hc & Hr & Hlt & ->). simpl. split.
      * unfold depth_lt in Hlt. destruct (maxDepth opts) as [m|]; simpl; [|done].
        apply Nat.ltb_lt in Hlt. lia.
      * replace (depth item + 1) with (S (depth item)) by lia.
        by eapply reach_in_import.
    + rewrite Hnodes. intros n [->|Hnn]%elem_of_map_set; [|by apply Hn].
      by exists (file item), (depth item).
Qed.

End Depth.

(** X6: [maxDepth] bounds the distance of every node from the entries.
    Every node of the graph is the root-relative path of a file that
    exists, has the language of the node, and is reached from an entry
    along a number of local imports that resolve, and this number is at
    most [maxDepth] when a bound is given; with the bound 0 every node is
    the path of an entry. *)
Theorem nodes_within_depth (fs : FileSystem) (cwd : jsstring) (opts : Options)
    (entries : list jsstring) (fuel : nat) (g : Graph) :
  buildGraph fs cwd fuel entries opts = Returns g →
  (∀ n, n ∈ g_nodes g →
     ∃ f d, within (maxDepth opts) d ∧
            reachable_in fs cwd opts entries d f ∧
            relPath_of cwd opts f = path n ∧
            existsSync fs f = true ∧
            detectLanguage f = Some (language_ n)) ∧
  (maxDepth opts = Some 0 →
   ∀ n, n ∈ g_nodes g →
     ∃ e, e ∈ entries ∧ path n = relPath_of cwd opts (entry_file cwd opts e)).
Proof.
  intros (st & Hloop & ->)%buildGraph_Returns.
  apply (loop_invariant fs cwd opts (depth_inv fs cwd opts entries)) in Hloop
    as [[_ Hn] _].
  - split; [done|]. intros Hm n Hnn. simpl in Hnn.
    destruct (Hn n Hnn) as (f & d & Hw & Hr & Hp & _).
    rewrite Hm in Hw. simpl in Hw. assert (d = 0) as -> by lia.
    inversion Hr as [e He|]; subst. by exists e.
  - intros item q st0 st1 Hinv Hq Hv. by eapply visit_depth_inv.
  - apply init_depth_inv.
Qed.

Lemma nodes_within_depth_witness :
  ∃ g, buildGraph fs_chain (str "/") 3 [str "a.js"] opts_depth0 = Returns g ∧
       ∀ n, n ∈ g_nodes g →
         ∃ e, e ∈ [str "a.js"] ∧
              path n = relPath_of (str "/") opts_depth0
                         (entry_file (str "/") opts_depth0 e).
Proof.
  eexists. split; [by vm_compute|].
  apply (nodes_within_depth fs_chain (str "/") opts_depth0 [str "a.js"] 3 _
           ltac:(by vm_compute)).
  reflexivity.
Defined.

(** *** A traversal without a bound reaches every file *)

Section Traversal.

Variable fs : FileSystem.
Variable cwd : jsstring.
Variable opts : Options.
Variable entries : list jsstring.
Hypothesis cwd_absolute : Path.isAbsolute cwd = true.
Hypothesis unbounded : maxDepth opts = None.
Hypothesis entries_normalized :
  ∀ e, e ∈ entries → Path.isAbsolute e = true → normalized cwd e.

Lemma relPath_of_inj f f' :
  normalized cwd f → normalized cwd f' →
  relPath_of cwd opts f = relPath_of cwd opts f' → f = f'.
Proof.
  unfold normalized, relPath_of. intros Hf Hf' Heq.
  rewrite <- Hf, <- Hf'.
  rewrite <- (resolve_relative cwd cwd_absolute (rootDir opts) f).
  rewrite <- (resolve_relative cwd cwd_absolute (rootDir opts) f').
  by rewrite Heq.
Qed.

Lemma entry_file_normalized e :
  e ∈ entries → normalized cwd (entry_file cwd opts e).
Proof.
  intros He. unfold entry_file.
  destruct (Path.isAbsolute e) eqn:Ha; [by apply entries_normalized|].
  by apply resolve_idem.
Qed.

Lemma pending_mono st st' f :
  visited st ⊆ visited st' →
  (∀ i, i ∈ queue st →
        i ∈ queue st' ∨ relPath_of cwd opts (file i) ∈ visited st') →
  pending cwd opts st f → pending cwd opts st' f.
Proof.
  intros Hv Hq [Hf|(i & Hi & <-)].
  - left. by apply Hv.
  - destruct (Hq i Hi) as [?|?]; [right; by exists i|by left].
Qed.

Lemma expanded_mono st st' f :
  visited st ⊆ visited st' →
  (∀ i, i ∈ queue st →
        i ∈ queue st' ∨ relPath_of cwd opts (file i) ∈ visited st') →
  (∀ p, p ∈ node_paths st → p ∈ node_paths st') →
  expanded fs cwd opts st f → expanded fs cwd opts st' f.
Proof.
  intros Hv Hq Hn [Hf|[Hnode Hdeps]]; [by left|right].
  split; [by apply Hn|].
  intros lang source deps dep r H1 H2 H3 H4 H5 H6.
  eapply pending_mono; [done|done|]. by eapply Hdeps.
Qed.

Lemma traversal_inv_mono st st' :
  visited st ⊆ visited st' →
  (∀ i, i ∈ queue st →
        i ∈ queue st' ∨ relPath_of cwd opts (file i) ∈ visited st') →
  (∀ p, p ∈ node_paths st → p ∈ node_paths st') →
  (∀ i, i ∈ queue st' → normalized cwd (file i)) →
  (∀ p, p ∈ visited st' → p ∉ visited st →
        ∃ f, normalized cwd f ∧ relPath_of cwd opts f = p ∧
             expanded fs cwd opts st' f) →
  traversal_inv fs cwd opts entries st →
  traversal_inv fs cwd opts entries st'.
Proof.
  intros Hv Hq Hn Hq' Hnew [Hnorm Hent Hvis]. split; [done| |].
  - intros e He. eapply pending_mono; [done|done|]. by apply Hent.
  - intros p Hp. destruct (decide (p ∈ visited st)) as [Hin|Hnin].
    + destruct (Hvis p Hin) as (f & Hf & Hfp & Hex). exists f.
      split_and!; [done|done|]. by eapply expanded_mono.
    + by apply Hnew.
Qed.

Lemma init_traversal_inv :
  traversal_inv fs cwd opts entries (init cwd entries opts).
Proof.
  split; simpl.
  - intros i (e & -> & He)%list_elem_of_fmap. simpl.
    by apply entry_file_normalized.
  - intros e He. right. exists (Build_Item (entry_file cwd opts e) 0).
    split; [|done]. apply list_elem_of_fmap. by exists e.
  - by intros p ?%elem_of_empty.
Qed.

Lemma visit_traversal_inv item q st st' :
  traversal_inv fs cwd opts entries st →
  queue st = item :: q →
  visit fs cwd opts item (set_queue q st) = Some st' →
  traversal_inv fs cwd opts entries st'.
Proof.
  intros Hinv Hqueue Hvisit. pose proof Hinv as [Hnorm _ _].
  assert (normalized cwd (file item)) as Hitem.
  { apply Hnorm. rewrite Hqueue. apply elem_of_cons. by left. }
  assert (∀ i, i ∈ q → normalized cwd (file i)) as Hnq.
  { intros i Hi. apply Hnorm. rewrite Hqueue. apply elem_of_cons. by right. }
  apply visit_cases in Hvisit as [Hin ->|Hnin Hskip ->|
    lang source deps Hnin Hex Hlang Hread Hparse ->]; simpl in *.
  - apply (traversal_inv_mono st); simpl; try done.
    intros i. rewrite Hqueue. intros [->|Hi]%elem_of_cons; [by right|by left].
  - apply (traversal_inv_mono st); simpl; try done.
    + apply union_subseteq_r.
    + intros i. rewrite Hqueue. intros [->|Hi]%elem_of_cons; [|by left].
      right. apply elem_of_union. left. by apply elem_of_singleton.
    + intros p [->%elem_of_singleton|Hp]%elem_of_union; [|done]. intros _.
      exists (file item). split_and!; [done|done|]. by left.
  - set (relPath := relPath_of cwd opts (file item)) in *.
    set (node := Build_Node relPath lang (length deps)).
    destruct (process_deps_effect fs cwd opts lang relPath (file item)
                (depth item) deps
                (set_node relPath node (add_visited relPath (set_queue q st))))
      as (Hnodes & Hvis & _ & Hqueue' & _).
    simpl in *.
    apply (traversal_inv_mono st).
    + rewrite Hvis. apply union_subseteq_r.
    + rewrite Hvis, Hqueue', Hqueue.
      intros i [->|Hi]%elem_of_cons.
      * right. apply elem_of_union. left. by apply elem_of_singleton.
      * left. apply elem_of_app. by left.
    + unfold node_paths. rewrite Hnodes. intros p Hp.
      apply map_set_paths; [done|]. by right.
    + rewrite Hqueue'. intros i [Hi|Hi]%elem_of_app; [by apply Hnq|].
      apply elem_of_flat_map in Hi as (dep & Hdep & Hi).
      apply dep_pushes_resolved in Hi as (r & _ & _ & _ & ->). simpl.
      by apply resolve_idem.
    + rewrite Hvis.
      intros p [->%elem_of_singleton|Hp]%elem_of_union; [|done]. intros _.
      exists (file item). split_and!; [done|done|]. right. split.
      * unfold node_paths. rewrite Hnodes. apply map_set_paths; [done|].
        by left.
      * intros lang' source' deps' dep r Hl' Hr' Hp' Hdep Hc Hres.
        rewrite Hlang in Hl'. injection Hl' as <-.
        rewrite Hread in Hr'. injection Hr' as <-.
        rewrite Hparse in Hp'. injection Hp' as <-.
        right. exists (Build_Item (Path.resolve cwd [rootDir opts; r])
                                  (depth item + 1)).
        split; [|done]. rewrite Hqueue'. apply elem_of_app. right.
        apply elem_of_flat_map. exists dep. split; [done|].
        unfold dep_pushes. rewrite Hc, Hres, unbounded. simpl.
        by apply list_elem_of_singleton.
    + done.
Qed.

Lemma reachable_visited st f :
  traversal_inv fs cwd opts entries st → queue st = [] →
  reachable fs cwd opts entries f →
  normalized cwd f ∧ relPath_of cwd opts f ∈ visited st ∧
  expanded fs cwd opts st f.
Proof.
  intros [Hnorm Hent Hvis] Hq.
  assert (∀ f, pending cwd opts st f → relPath_of cwd opts f ∈ visited st)
    as Hpend.
  { intros f0 [?|(i & Hi & _)]; [done|]. rewrite Hq in Hi.
    by apply elem_of_nil in Hi. }
  assert (∀ f, normalized cwd f → relPath_of cwd opts f ∈ visited st →
               expanded fs cwd opts st f) as Hexp.
  { intros f0 Hf0 Hv0. destruct (Hvis _ Hv0) as (f1 & Hf1 & Heq & He1).
    by rewrite <- (relPath_of_inj f1 f0 Hf1 Hf0 Heq). }
  induction 1 as [e He|f lang source deps dep r Hreach IH Hex Hl Hr Hp Hd Hc Hres].
  - pose proof (entry_file_normalized e He) as Hn.
    pose proof (Hpend _ (Hent e He)) as Hv. auto.
  - destruct IH as (Hnf & Hvf & [[Hne|Hne]|[_ Hdeps]]).
    + by rewrite Hex in Hne.
    + by rewrite Hl in Hne.
    + assert (normalized cwd (Path.resolve cwd [rootDir opts; r])) as Hn
        by by apply resolve_idem.
      pose proof (Hpend _ (Hdeps lang source deps dep r Hl Hr Hp Hd Hc Hres)).
      auto.
Qed.

End Traversal.

(** X7: without a bound on the depth the traversal is complete.  When
    the working directory is absolute and the absolute entries are in
    normal form, every file that is reachable from the entries along
    local imports that resolve, exists and has a recognized language has
    a node in the graph. *)
Theorem traversal_complete (fs : FileSystem) (cwd : jsstring) (opts : Options)
    (entries : list jsstring) (fuel : nat) (g : Graph) :
  Path.isAbsolute cwd = true →
  maxDepth opts = None →
  (∀ e, e ∈ entries → Path.isAbsolute e = true → normalized cwd e) →
  buildGraph fs cwd fuel entries opts = Returns g →
  ∀ f, reachable fs cwd opts entries f →
       existsSync fs f = true → is_Some (detectLanguage f) →
       relPath_of cwd opts f ∈ map path (g_nodes g).
Proof.
  intros Hc Hm He (st & Hloop & ->)%buildGraph_Returns f Hreach Hex [lang Hl].
  apply (loop_invariant fs cwd opts (traversal_inv fs cwd opts entries)) in Hloop
    as [Hinv Hq].
  - destruct (reachable_visited fs cwd opts entries Hc He st f Hinv Hq Hreach)
      as (_ & _ & [[Hne|Hne]|[Hnode _]]).
    + by rewrite Hex in Hne.
    + by rewrite Hl in Hne.
    + done.
  - intros item q st0 st1 Hinv Hq Hv. by eapply visit_traversal_inv.
  - by apply init_traversal_inv.
Qed.

Lemma traversal_complete_witness :
  ∃ g, buildGraph fs_chain (str "/") 3 [str "a.js"] opts_p = Returns g ∧
       relPath_of (str "/") opts_p (str "/p/c.js") ∈ map path (g_nodes g).
Proof.
  eexists. split; [by vm_compute|].
  apply (traversal_complete fs_chain (str "/") opts_p [str "a.js"] 3);
    try first [by vm_compute | by eexists; vm_compute].
  - intros e ->%list_elem_of_singleton. by vm_compute.
  - change (str "/p/c.js") with
      (Path.resolve (str "/") [rootDir opts_p; str "c.js"]).
    eapply (reach_import fs_chain (str "/") opts_p [str "a.js"]
              (str "/p/b.js") javascript _ _ (str "./c"));
      try first [by vm_compute | apply (bool_decide_unpack _); by vm_compute].
    change (str "/p/b.js") with
      (Path.resolve (str "/") [rootDir opts_p; str "b.js"]).
    eapply (reach_import fs_chain (str "/") opts_p [str "a.js"]
              (str "/p/a.js") javascript _ _ (str "./b"));
      try first [by vm_compute | apply (bool_decide_unpack _); by vm_compute].
    change (str "/p/a.js") with (entry_file (str "/") opts_p (str "a.js")).
    apply reach_entry. by apply list_elem_of_singleton.
Defined.

(** *** Extensions and languages *)

Section Extensions.

Import Path.

Lemma take_while_app_all f s t :
  Forall (λ c, f c = true) s → take_while f (s ++ t) = s ++ take_while f t.
Proof.
  induction 1 as [|c s Hc _ IH]; [done|]. simpl. by rewrite Hc, IH.
Qed.

Lemma drop_while_app_all f s t :
  Forall (λ c, f c = true) s → drop_while f (s ++ t) = drop_while f t.
Proof.
  induction 1 as [|c s Hc _ IH]; [done|]. simpl. by rewrite Hc, IH.
Qed.

Lemma not_sep_rev a : sep ∉ a → Forall (λ c, not_sep c = true) (rev a).
Proof.
  intros Ha. apply Forall_rev, Forall_forall. intros c Hc.
  unfold not_sep. apply negb_true_iff, N.eqb_neq. by intros ->.
Qed.

Lemma not_dot_rev a : ch "." ∉ a → Forall (λ c, not_dot c = true) (rev a).
Proof.
  intros Ha. apply Forall_rev, Forall_forall. intros c Hc.
  unfold not_dot. apply negb_true_iff, N.eqb_neq. by intros ->.
Qed.

Lemma take_while_segment_start pre :
  segment_start pre → take_while not_sep (rev pre) = [].
Proof.
  intros [->|Hl]; [done|].
  destruct pre as [|c pre] using rev_ind; [done|].
  rewrite last_snoc in Hl. injection Hl as ->.
  rewrite rev_app_distr. change (rev [sep] ++ rev pre) with (sep :: rev pre).
  cbn [take_while]. by change (not_sep sep) with false.
Qed.

Lemma rev_nonempty {A} (l : list A) : l ≠ [] → rev l ≠ [].
Proof.
  intros Hl E. apply Hl. by rewrite <- (rev_involutive l), E.
Qed.

(** The extension of a path whose last segment is [a.e]: [.e] when [a]
    is not empty, none when it is. *)
Lemma extname_segment pre a e :
  segment_start pre → a ≠ [] → sep ∉ a → e ≠ [] → ch "." ∉ e → sep ∉ e →
  extname (pre ++ a ++ ch "." :: e) = ch "." :: e.
Proof.
  intros Hpre Ha Hsa He Hde Hse. unfold extname, basename_rev.
  rewrite !rev_app_distr. simpl. rewrite <- !app_assoc. simpl.
  pose proof (rev_nonempty e He) as Hre.
  pose proof (rev_nonempty a Ha) as Hra.
  pose proof (not_sep_rev e Hse) as Hsre.
  pose proof (not_dot_rev e Hde) as Hdre.
  pose proof (not_sep_rev a Hsa) as Hsra.
  remember (rev e) as re0 eqn:Ere.
  destruct re0 as [|c re]; [done|].
  assert (drop_while is_sep ((c :: re) ++ ch "." :: rev a ++ rev pre) =
          (c :: re) ++ ch "." :: rev a ++ rev pre) as ->.
  { simpl. apply Forall_cons in Hsre as [Hc _].
    unfold not_sep in Hc. unfold is_sep. apply negb_true_iff in Hc.
    by rewrite Hc. }
  rewrite take_while_app_all by done.
  change (take_while not_sep (ch "." :: rev a ++ rev pre)) with
    (ch "." :: take_while not_sep (rev a ++ rev pre)).
  rewrite take_while_app_all by done.
  rewrite take_while_segment_start by done. rewrite app_nil_r.
  rewrite drop_while_app_all by done.
  change (drop_while not_dot (ch "." :: rev a)) with (ch "." :: rev a).
  destruct (rev a) as [|r0 ra]; [done|].
  rewrite bool_decide_eq_false_2.
  - rewrite take_while_app_all by done.
    change (take_while not_dot (ch "." :: r0 :: ra)) with (@nil N).
    by rewrite app_nil_r, Ere, rev_involutive.
  - intros E. apply (f_equal length) in E. rewrite length_app in E.
    simpl in E. change (length (str "..")) with 2 in E. lia.
Qed.

Lemma extname_hidden pre e :
  segment_start pre → ch "." ∉ e → sep ∉ e →
  extname (pre ++ ch "." :: e) = [].
Proof.
  intros Hpre Hde Hse. unfold extname, basename_rev.
  rewrite !rev_app_distr. simpl. rewrite <- !app_assoc. simpl.
  pose proof (not_sep_rev e Hse) as Hsre.
  pose proof (not_dot_rev e Hde) as Hdre.
  assert (drop_while is_sep (rev e ++ ch "." :: rev pre) =
          rev e ++ ch "." :: rev pre) as ->.
  { destruct (rev e) as [|c re]; [done|].
    simpl. apply Forall_cons in Hsre as [Hc _].
    unfold not_sep in Hc. unfold is_sep. apply negb_true_iff in Hc.
    by rewrite Hc. }
  rewrite take_while_app_all by done.
  change (take_while not_sep (ch "." :: rev pre)) with
    (ch "." :: take_while not_sep (rev pre)).
  rewrite take_while_segment_start by done.
  rewrite drop_while_app_all by done. done.
Qed.

Lemma extensions_disjoint ext :
  ext ∈ EXTENSIONS javascript → ext ∈ EXTENSIONS python → False.
Proof.
  intros Hj ->%list_elem_of_singleton. revert Hj.
  apply (bool_decide_unpack _). by vm_compute.
Qed.

Lemma detectLanguage_extname p lang :
  detectLanguage p = Some lang ↔ toLowerCase (extname p) ∈ EXTENSIONS lang.
Proof.
  unfold detectLanguage.
  case_bool_decide as Hj; [|case_bool_decide as Hp].
  - split; [by intros [= <-]|]. intros H. destruct lang; [done|].
    by destruct (extensions_disjoint _ Hj H).
  - split; [by intros [= <-]|]. intros H. by destruct lang.
  - split; [done|]. intros H. by destruct lang.
Qed.

Lemma extensions_shape lang ext :
  ext ∈ EXTENSIONS lang →
  toLowerCase ext = ext ∧
  ∃ e, ext = ch "." :: e ∧ e ≠ [] ∧ (ch "." ∉ e) ∧ (sep ∉ e).
Proof.
  intros H.
  assert (Forall (λ ext, toLowerCase ext = ext ∧
                         ext = ch "." :: drop 1 ext ∧ drop 1 ext ≠ [] ∧
                         (ch "." ∉ drop 1 ext) ∧ (sep ∉ drop 1 ext))
                 (EXTENSIONS lang)) as HF.
  { destruct lang; apply (bool_decide_unpack _); by vm_compute. }
  eapply (proj1 (Forall_forall _ _)) in HF as (Hlow & He & ? & ? & ?); [|done].
  split; [done|]. by exists (drop 1 ext).
Qed.

End Extensions.

(** X8: the language of a file is decided by the letters after the last
    dot of its last segment, whatever their case: a path that ends with a
    segment [a.e], where [a] is not empty and [e] has no dot, has the
    language [lang] exactly when the lower case of [.e] is one of the
    extensions of [lang]; a segment that starts with its only dot, such as
    a file named [.js], has no language. *)
Theorem detectLanguage_by_extension (pre a e : jsstring) (lang : language) :
  segment_start pre → Path.sep ∉ a → ch "." ∉ e → Path.sep ∉ e →
  (a ≠ [] → e ≠ [] →
   (detectLanguage (pre ++ a ++ ch "." :: e) = Some lang ↔
    toLowerCase (ch "." :: e) ∈ EXTENSIONS lang)) ∧
  detectLanguage (pre ++ ch "." :: e) = None.
Proof.
  intros Hpre Hsa Hde Hse. split.
  - intros Ha He. rewrite detectLanguage_extname.
    by rewrite extname_segment.
  - destruct (detectLanguage (pre ++ ch "." :: e)) as [l|] eqn:E; [|done].
    apply detectLanguage_extname in E. rewrite extname_hidden in E by done.
    exfalso. revert E. destruct l; apply (bool_decide_unpack _); by vm_compute.
Qed.

Lemma detectLanguage_by_extension_witness :
  detectLanguage (str "/p/src/" ++ str "App" ++ ch "." :: str "TSX")
    = Some javascript ∧
  detectLanguage (str "/p/src/" ++ ch "." :: str "js") = None.
Proof.
  assert (segment_start (str "/p/src/")) as Hpre by (by right).
  assert (Path.sep ∉ str "App") as Hsa
    by (apply (bool_decide_unpack _); by vm_compute).
  assert (ch "." ∉ str "TSX") as Hde
    by (apply (bool_decide_unpack _); by vm_compute).
  assert (Path.sep ∉ str "TSX") as Hse
    by (apply (bool_decide_unpack _); by vm_compute).
  assert (ch "." ∉ str "js") as Hde'
    by (apply (bool_decide_unpack _); by vm_compute).
  assert (Path.sep ∉ str "js") as Hse'
    by (apply (bool_decide_unpack _); by vm_compute).
  split.
  - apply (detectLanguage_by_extension (str "/p/src/") (str "App") (str "TSX")
             javascript Hpre Hsa Hde Hse); [done|done|].
    apply (bool_decide_unpack _). by vm_compute.
  - apply (detectLanguage_by_extension (str "/p/src/") (str "App") (str "js")
             javascript Hpre Hsa Hde' Hse').
Defined.

(** *** The file found by the resolver *)

Section FoundFile.

Import Path.

Variable cwd : jsstring.
Hypothesis cwd_absolute : isAbsolute cwd = true.

Lemma resolve_decompose args :
  ∃ l, Forall clean l ∧ resolve cwd args = sep :: join_segments l.
Proof.
  destruct (resolve_shape cwd args cwd_absolute) as (p0 & _ & -> & _).
  eexists. split; [apply norm_segments_clean|done].
Qed.

Lemma join_segments_cons a l :
  l ≠ [] → join_segments (a :: l) = a ++ sep :: join_segments l.
Proof. by destruct l. Qed.

Lemma join_segments_snoc l a :
  l ≠ [] → join_segments (l ++ [a]) = join_segments l ++ sep :: a.
Proof.
  induction l as [|b l IH]; [done|]. intros _.
  destruct (decide (l = [])) as [->|Hl]; [done|].
  rewrite <- app_comm_cons, !join_segments_cons, IH, <- app_assoc; try done.
  by destruct l.
Qed.

Lemma join_segments_last_app l a e :
  join_segments (l ++ [a]) ++ e = join_segments (l ++ [a ++ e]).
Proof.
  destruct (decide (l = [])) as [->|Hl]; [done|].
  rewrite !join_segments_snoc by done. by rewrite <- app_assoc.
Qed.

Lemma clean_ext a ext : (a = [] ∨ clean a) → ext_like ext → clean (a ++ ext).
Proof.
  intros Ha [Hlen Hsep].
  assert (sep ∉ a) as Hsa.
  { destruct Ha as [->|(_ & _ & _ & ?)]; [apply not_elem_of_nil|done]. }
  unfold clean. split_and!.
  - intros E. apply (f_equal length) in E. rewrite length_app in E.
    simpl in E. lia.
  - intros E. apply (f_equal length) in E. rewrite length_app in E.
    change (length (str ".")) with 1 in E. lia.
  - intros E. apply (f_equal length) in E. rewrite length_app in E.
    change (length (str "..")) with 2 in E. lia.
  - rewrite elem_of_app. by intros [?|?].
Qed.

(** A path in normal form followed by an extension is in normal form. *)
Lemma normalized_ext l ext :
  Forall clean l → ext_like ext →
  ∃ l', Forall clean l' ∧ (sep :: join_segments l) ++ ext = sep :: join_segments l'.
Proof.
  intros Hl Hext. destruct l as [|a l] using rev_ind.
  - exists [ext]. split; [|done]. apply Forall_singleton.
    apply (clean_ext [] ext); [by left|done].
  - apply Forall_app in Hl as [Hl Ha]. rewrite Forall_singleton in Ha.
    exists (l ++ [a ++ ext]). split.
    + apply Forall_app. split; [done|]. apply Forall_singleton.
      apply clean_ext; [by right|done].
    + rewrite <- app_comm_cons. by rewrite join_segments_last_app.
Qed.

(** [path.join] of a path in normal form and a segment. *)
Lemma join_normalized l idx :
  Forall clean l → clean idx →
  join [sep :: join_segments l; idx] = sep :: join_segments (l ++ [idx]).
Proof.
  intros Hl Hidx. pose proof Hidx as (Hne & _ & _ & Hsep).
  unfold join.
  rewrite filter_cons_True by done. rewrite filter_cons_True by done.
  rewrite filter_nil.
  change (join_segments [sep :: join_segments l; idx]) with
    (sep :: (join_segments l ++ sep :: idx)).
  unfold normalize.
  change (isAbsolute (sep :: join_segments l ++ sep :: idx)) with true.
  cbn [negb].
  assert (last (sep :: join_segments l ++ sep :: idx) ≠ Some sep) as Hlast.
  { destruct idx as [|c idx _] using rev_ind; [done|].
    replace (sep :: join_segments l ++ sep :: idx ++ [c]) with
      ((sep :: join_segments l ++ sep :: idx) ++ [c])
      by (simpl; by rewrite <- app_assoc).
    rewrite last_snoc.
    intros [= ->]. apply Hsep. apply elem_of_app. right.
    by apply list_elem_of_singleton. }
  rewrite (bool_decide_eq_false_2 _ Hlast).
  assert (norm_segments false (sep :: join_segments l ++ sep :: idx) =
          l ++ [idx]) as Hnorm.
  { unfold norm_segments.
    change (split_on sep (sep :: join_segments l ++ sep :: idx)) with
      ([] :: split_on sep (join_segments l ++ sep :: idx)).
    rewrite split_on_app, (split_on_nosep sep idx) by done.
    cbn [foldl]. rewrite norm_step_empty, foldl_app.
    destruct (decide (l = [])) as [->|Hnil].
    - simpl. by rewrite norm_step_clean.
    - rewrite split_on_join; [|done|by apply clean_dotdot_free].
      rewrite (norm_push false [] l) by done. cbn [foldl].
      rewrite norm_step_clean by done.
      rewrite app_nil_r. simpl. by rewrite rev_involutive. }
  unfold normalizeString. rewrite Hnorm.
  destruct (join_segments (l ++ [idx])) as [|c n] eqn:E.
  - exfalso. destruct (decide (l = [])) as [->|Hnil]; [done|].
    rewrite join_segments_snoc in E by done. by destruct (join_segments l).
  - by rewrite app_nil_r.
Qed.

Lemma relative_not_absolute root x : isAbsolute (relative cwd root x) = false.
Proof.
  destruct (resolve_shape cwd [x] cwd_absolute) as (px & _ & _ & Hsx).
  unfold relative. rewrite Hsx.
  destruct (strip_common _ _) as [f t] eqn:E.
  apply strip_common_spec in E as (c & _ & Ht & _).
  pose proof (norm_segments_clean (px ++ [sep])) as Hc. rewrite Ht in Hc.
  apply Forall_app in Hc as [_ Hc].
  destruct f as [|f0 f]; simpl.
  - by apply join_segments_head.
  - by destruct (replicate (length f) (str "..") ++ t).
Qed.

End FoundFile.

Lemma extensions_ext_like lang ext : ext ∈ EXTENSIONS lang → ext_like ext.
Proof.
  intros H.
  assert (Forall ext_like (EXTENSIONS lang)) as HF.
  { destruct lang; apply (bool_decide_unpack _); by vm_compute. }
  by eapply (proj1 (Forall_forall _ _)) in HF.
Qed.

Lemma index_clean lang ext : ext ∈ EXTENSIONS lang → clean (str "index" ++ ext).
Proof.
  intros H.
  assert (Forall (λ ext, clean (str "index" ++ ext)) (EXTENSIONS lang)) as HF.
  { destruct lang; apply (bool_decide_unpack _); by vm_compute. }
  by eapply (proj1 (Forall_forall _ _)) in HF.
Qed.

Section ResolverFacts.

Variable fs : FileSystem.
Variable cwd : jsstring.
Hypothesis cwd_absolute : Path.isAbsolute cwd = true.

(** The three ways [resolveLocal] finds a file [x]. *)
Lemma resolveLocal_cases specifier fromFile rootDir r :
  resolveLocal fs cwd specifier fromFile rootDir = Some r →
  let target := target_of cwd specifier fromFile in
  ∃ x, existsSync fs x = true ∧ r = Path.relative cwd rootDir x ∧
       (x = target ∧ regular fs target = true ∨
        regular fs target = false ∧
        ∃ lang ext, detectLanguage fromFile = Some lang ∧
                    ext ∈ EXTENSIONS lang ∧
                    (x = target ++ ext ∨
                     x = Path.join [target; str "index" ++ ext])).
Proof.
  unfold resolveLocal, target_of. cbv zeta.
  set (target := Path.resolve cwd [Path.dirname fromFile; specifier]).
  destruct (regular fs target) eqn:Hreg.
  { intros [= <-]. exists target. split_and!; [|done|by left].
    unfold regular in Hreg. by apply andb_true_iff in Hreg as [? _]. }
  destruct (detectLanguage fromFile) as [lang|]; [|by destruct (_ && _)].
  assert (∀ exts r, try_extensions fs cwd rootDir target exts = Some r →
            ∃ ext, ext ∈ exts ∧ existsSync fs (target ++ ext) = true ∧
                   r = Path.relative cwd rootDir (target ++ ext)) as Hext.
  { induction exts as [|ext exts IH]; intros r0; cbn [try_extensions]; [done|].
    destruct (regular fs (target ++ ext)) eqn:Hr.
    - intros [= <-]. exists ext. split_and!; [by left| |done].
      unfold regular in Hr. by apply andb_true_iff in Hr as [? _].
    - intros (ext' & ? & ?)%IH. exists ext'. split; [by right|done]. }
  assert (∀ exts r, try_index fs cwd rootDir target exts = Some r →
            ∃ ext, ext ∈ exts ∧
                   existsSync fs (Path.join [target; str "index" ++ ext]) = true ∧
                   r = Path.relative cwd rootDir
                         (Path.join [target; str "index" ++ ext])) as Hidx.
  { induction exts as [|ext exts IH]; intros r0; cbn [try_index]; [done|].
    destruct (existsSync fs (Path.join [target; str "index" ++ ext])) eqn:Hr.
    - intros [= <-]. exists ext. split_and!; [by left|done|done].
    - intros (ext' & ? & ?)%IH. exists ext'. split; [by right|done]. }
  destruct (try_extensions fs cwd rootDir target (EXTENSIONS lang)) as [r1|]
    eqn:E1.
  { intros [= <-]. apply Hext in E1 as (ext & Hin & Hex & ->).
    exists (target ++ ext). split_and!; [done|done|]. right. split; [done|].
    exists lang, ext. auto. }
  destruct (existsSync fs target && isDirectory fs target); [|done].
  intros E2. apply Hidx in E2 as (ext & Hin & Hex & ->).
  exists (Path.join [target; str "index" ++ ext]).
  split_and!; [done|done|]. right. split; [done|]. exists lang, ext. auto.
Qed.

End ResolverFacts.

(** X9: the resolver and the queue agree on the file.  When the working
    directory is absolute, a result of [resolveLocal] is the path,
    relative to the root and never absolute, of a path that exists and is
    in normal form, and resolving the result against the root, as the
    builder does before it queues the file, gives that path back. *)
Theorem resolveLocal_found_file (fs : FileSystem)
    (cwd specifier fromFile rootDir r : jsstring) :
  Path.isAbsolute cwd = true →
  resolveLocal fs cwd specifier fromFile rootDir = Some r →
  Path.isAbsolute r = false ∧
  ∃ x, existsSync fs x = true ∧ normalized cwd x ∧
       r = Path.relative cwd rootDir x ∧
       Path.resolve cwd [rootDir; r] = x.
Proof.
  intros Hc Hres.
  apply resolveLocal_cases in Hres as (x & Hex & -> & Hx).
  split; [by apply relative_not_absolute|].
  assert (normalized cwd x) as Hnorm.
  { unfold normalized, target_of in *.
    destruct (resolve_decompose cwd Hc [Path.dirname fromFile; specifier])
      as (l & Hl & Ht).
    destruct Hx as [[-> _]|(_ & lang & ext & _ & Hin & [->| ->])].
    - by apply resolve_idem.
    - rewrite Ht.
      destruct (normalized_ext l ext Hl (extensions_ext_like lang ext Hin))
        as (l' & Hl' & ->).
      by apply resolve_normalized.
    - rewrite Ht, join_normalized; [|done|by eapply index_clean].
      apply resolve_normalized; [done|]. apply Forall_app. split; [done|].
      apply Forall_singleton. by eapply index_clean. }
  exists x. split_and!; [done|done|done|].
  rewrite resolve_relative by done. done.
Qed.

Lemma resolveLocal_found_file_witness :
  Path.resolve (str "/")
    [str "/p"; str "src/lib/index.js"] = str "/p/src/lib/index.js".
Proof.
  destruct (resolveLocal_found_file fs_resolve (str "/") (str "./lib")
              (str "/p/src/a.js") (str "/p") (str "src/lib/index.js")
              ltac:(by vm_compute) ltac:(by vm_compute))
    as (_ & x & _ & _ & Hr & <-).
  done.
Defined.

(** X10: a fallback of the resolver keeps the language.  When the target
    of a specifier is not itself a regular file and is not the root
    directory, the file that [resolveLocal] finds, by adding an extension
    or as an index file of the directory, has the language of the
    importing file. *)
Theorem resolveLocal_keeps_language (fs : FileSystem)
    (cwd specifier fromFile rootDir r : jsstring) :
  Path.isAbsolute cwd = true →
  resolveLocal fs cwd specifier fromFile rootDir = Some r →
  regular fs (target_of cwd specifier fromFile) = false →
  target_of cwd specifier fromFile ≠ [Path.sep] →
  ∃ x lang, existsSync fs x = true ∧ r = Path.relative cwd rootDir x ∧
            detectLanguage fromFile = Some lang ∧
            detectLanguage x = Some lang.
Proof.
  intros Hc Hres Hreg Hroot.
  apply resolveLocal_cases in Hres as (x & Hex & -> & Hx).
  destruct Hx as [[_ Hreg']|(_ & lang & ext & Hlang & Hin & Hx)];
    [by rewrite Hreg in Hreg'|].
  exists x, lang. split_and!; [done|done|done|].
  destruct (extensions_shape lang ext Hin) as (Hlow & e & -> & He & Hde & Hse).
  unfold target_of in *.
  destruct (resolve_decompose cwd Hc [Path.dirname fromFile; specifier])
    as (l & Hl & Ht).
  rewrite Ht in Hx, Hroot.
  apply detectLanguage_extname.
  destruct Hx as [->| ->].
  - destruct l as [|a l _] using rev_ind; [done|].
    apply Forall_app in Hl as [_ Ha]. rewrite Forall_singleton in Ha.
    destruct Ha as (Ha & _ & _ & Hsa).
    assert (∃ pre, segment_start pre ∧
                   Path.sep :: Path.join_segments (l ++ [a]) = pre ++ a)
      as (pre & Hpre & ->).
    { destruct (decide (l = [])) as [->|Hnil].
      - exists [Path.sep]. split; [by right|done].
      - exists (Path.sep :: Path.join_segments l ++ [Path.sep]). split.
        + right. by rewrite app_comm_cons, last_snoc.
        + rewrite join_segments_snoc by done.
          by rewrite <- app_comm_cons, <- app_assoc. }
    rewrite <- app_assoc, extname_segment by done. by rewrite Hlow.
  - rewrite join_normalized; [|done|by eapply index_clean].
    assert (∃ pre, segment_start pre ∧
                   Path.sep :: Path.join_segments (l ++ [str "index" ++ ch "." :: e]) =
                   pre ++ str "index" ++ ch "." :: e)
      as (pre & Hpre & ->).
    { destruct (decide (l = [])) as [->|Hnil].
      - exists [Path.sep]. split; [by right|done].
      - exists (Path.sep :: Path.join_segments l ++ [Path.sep]). split.
        + right. by rewrite app_comm_cons, last_snoc.
        + rewrite join_segments_snoc by done.
          by rewrite <- app_comm_cons, <- app_assoc. }
    rewrite extname_segment; try done.
    + by rewrite Hlow.
    + apply (bool_decide_unpack _). by vm_compute.
Qed.

Lemma resolveLocal_keeps_language_witness :
  ∃ x lang, existsSync fs_resolve x = true ∧
            str "src/b.js" = Path.relative (str "/") (str "/p") x ∧
            detectLanguage (str "/p/src/a.js") = Some lang ∧
            detectLanguage x = Some lang.
Proof.
  apply (resolveLocal_keeps_language fs_resolve (str "/") (str "./b")
           (str "/p/src/a.js") (str "/p") (str "src/b.js"));
    try by vm_compute.
Defined.

(** *** What a capture holds *)

Section Captures.

Context {A : Type}.

Lemma consumed_refl P x : consumed P 0 x x.
Proof. exists []. split_and!; simpl; [done|lia|done|lia]. Qed.

Lemma consumed_trans P n n' x y z :
  consumed P n x y → consumed P n' y z → consumed P (n + n') x z.
Proof.
  intros (s & Hs & Hi & HP & Hn) (s' & Hs' & Hi' & HP' & Hn').
  exists (s ++ s'). rewrite length_app. split_and!; [|lia| |lia].
  - by rewrite Hs, Hs', app_assoc.
  - by apply Forall_app.
Qed.

Lemma consumed_weaken P n n' x y : n' ≤ n → consumed P n x y → consumed P n' x y.
Proof.
  intros Hle (s & Hs & Hi & HP & Hn). exists s. split_and!; [done..|lia].
Qed.

Lemma rep_loop_consumes P n
    (m : pos → option jsstring → (pos → option jsstring → option A) → option A)
    greedy fuel :
  consumes P n m →
  ∀ min max x cap k v,
    min ≤ fuel →
    rep_loop m k greedy fuel min max x cap = Some v →
    ∃ y, k y cap = Some v ∧ consumed P (rep_min min max * n) x y.
Proof.
  intros Hm. induction fuel as [|fuel IH]; intros min max x cap k v Hle Hv.
  - assert (min = 0) as -> by lia.
    assert (k x cap = Some v) as Hk by (by destruct max as [[|]|]).
    exists x. split; [done|]. eapply consumed_weaken; [|apply consumed_refl].
    destruct max; simpl; lia.
  - destruct (decide (max = Some 0)) as [->|Hmax].
    { exists x. simpl in Hv. split; [done|].
      eapply consumed_weaken; [|apply consumed_refl]. simpl. lia. }
    assert (Hstop : k x cap = Some v → min = 0 →
      ∃ y', k y' cap = Some v ∧ consumed P (rep_min min max * n) x y').
    { intros Hk ->. exists x. split; [done|].
      eapply consumed_weaken; [|apply consumed_refl]. destruct max; simpl; lia. }
    assert (Hiter : ∀ w, m x cap (λ y cap1,
        if Nat.eqb min 0 && Nat.eqb (p_idx y) (p_idx x) then None
        else rep_loop m k greedy fuel (Nat.pred min) (Nat.pred <$> max) y cap1)
        = Some w → w = v →
      ∃ y', k y' cap = Some v ∧ consumed P (rep_min min max * n) x y').
    { intros w Hw ->. apply Hm in Hw as (y & Hd & Hxy).
      destruct (Nat.eqb min 0 && Nat.eqb (p_idx y) (p_idx x)); [done|].
      apply IH in Hd as (y' & Hk & Hyy'); [|lia].
      exists y'. split; [done|].
      eapply consumed_weaken; [|by eapply consumed_trans].
      destruct (decide (min = 0)) as [->|Hmin].
      - destruct max; simpl in *; lia.
      - rewrite (rep_min_succ min max) by done. simpl. lia. }
    assert (rep_loop m k greedy (S fuel) min max x cap =
      let d := λ y cap1,
        if Nat.eqb min 0 && Nat.eqb (p_idx y) (p_idx x) then None
        else rep_loop m k greedy fuel (Nat.pred min) (Nat.pred <$> max) y cap1 in
      if negb (Nat.eqb min 0) then m x cap d
      else if greedy then or_else (m x cap d) (k x cap)
      else or_else (k x cap) (m x cap d)) as Heq.
    { destruct max as [[|]|]; done. }
    rewrite Heq in Hv. clear Heq. simpl in Hv.
    destruct (Nat.eqb_spec min 0) as [Hz|Hnz]; simpl in Hv.
    + destruct greedy.
      * destruct (m x cap _) as [w|] eqn:E; simpl in Hv.
        -- injection Hv as ->. by apply (Hiter v).
        -- by apply Hstop.
      * destruct (k x cap) as [w|] eqn:E; simpl in Hv.
        -- injection Hv as ->. by apply Hstop.
        -- by apply (Hiter v).
    + by apply (Hiter v).
Qed.

Lemma rmatch_consumes P ml r :
  all_cls P r → consumes P (minlen r) (λ x cap k, rmatch (A:=A) ml r x cap k).
Proof.
  induction r as [|f|a IHa b IHb|a IHa b IHb|min max greedy a IHa|a IHa| | |];
    intros Hr x cap k v Hv; simpl in Hv, Hr.
  - exists x. split; [done|]. apply consumed_refl.
  - destruct (p_rest x) as [|c t] eqn:Hx; [done|].
    destruct (f c) eqn:Hf; [|done].
    eexists. split; [done|]. exists [c]. simpl.
    split_and!; [done|lia| |lia]. apply Forall_singleton. by apply Hr.
  - destruct Hr as [Ha Hb].
    apply (IHa Ha) in Hv as (y & Hv & Hxy).
    apply (IHb Hb) in Hv as (z & Hv & Hyz).
    exists z. split; [done|]. simpl. by eapply consumed_trans.
  - destruct Hr as [Ha Hb].
    destruct (rmatch ml a x cap k) as [w|] eqn:E; simpl in Hv.
    + injection Hv as ->. apply (IHa Ha) in E as (y & Hv & Hxy).
      exists y. split; [done|]. eapply consumed_weaken; [|done]. simpl. lia.
    + apply (IHb Hb) in Hv as (y & Hv & Hxy).
      exists y. split; [done|]. eapply consumed_weaken; [|done]. simpl. lia.
  - apply (rep_loop_consumes P (minlen a) _ _ _ (IHa Hr)) in Hv; [done|lia].
  - done.
  - destruct (at_bol ml x); [|done]. exists x. split; [done|]. apply consumed_refl.
  - destruct (at_eol ml x); [|done]. exists x. split; [done|]. apply consumed_refl.
  - destruct (xorb _ _); [|done]. exists x. split; [done|]. apply consumed_refl.
Qed.

Lemma nocapb_all_cls r : nocapb r = true → all_cls (λ _, True) r.
Proof.
  induction r; simpl; try done.
  - intros [? ?]%andb_true_iff. auto.
  - intros [? ?]%andb_true_iff. auto.
Qed.

Lemma nocapb_cap_ok P n r : nocapb r = true → cap_ok P n r.
Proof.
  induction r; simpl; try done.
  - intros [? ?]%andb_true_iff. auto.
  - intros [? ?]%andb_true_iff. auto.
Qed.

Lemma cap_ok_seqs P n l : Forall (cap_ok P n) l → cap_ok P n (seqs l).
Proof.
  induction 1 as [|r l Hr Hl IH]; [done|].
  destruct l as [|r' l]; [done|]. by split.
Qed.

(** A capture set by a pattern whose groups match code units of [P]
    holds code units of [P]. *)
Lemma rmatch_capture P n ml r :
  cap_ok P n r →
  ∀ x cap (k : pos → option jsstring → option A) v,
    capture_inv P n cap → rmatch ml r x cap k = Some v →
    ∃ y cap', capture_inv P n cap' ∧ k y cap' = Some v.
Proof.
  induction r as [|f|a IHa b IHb|a IHa b IHb|min max greedy a IHa|a IHa| | |];
    intros Hr x cap k v Hcap Hv; simpl in Hv, Hr.
  - by exists x, cap.
  - destruct (p_rest x) as [|c t]; [done|]. destruct (f c); [|done].
    by eexists _, cap.
  - destruct Hr as [Ha Hb].
    apply (IHa Ha) in Hv as (y & cap1 & Hcap1 & Hv); [|done].
    by apply (IHb Hb) in Hv.
  - destruct Hr as [Ha Hb].
    destruct (rmatch ml a x cap k) as [w|] eqn:E; simpl in Hv.
    + injection Hv as ->. by apply (IHa Ha) in E.
    + by apply (IHb Hb) in Hv.
  - apply (rmatch_consumes (λ _, True) ml (Rep min max greedy a)) in Hv
      as (y & Hv & _); [|by apply nocapb_all_cls].
    by exists y, cap.
  - destruct Hr as [Ha Hn].
    apply (rmatch_consumes P ml a Ha) in Hv as (y & Hv & seg & Hs & Hi & HP & Hl).
    eexists _, _. split; [|done].
    intros s [= <-]. rewrite Hs, Hi.
    replace (p_idx x + length seg - p_idx x) with (length seg) by lia.
    rewrite take_app_length. split; [lia|done].
  - destruct (at_bol ml x); [|done]. by exists x, cap.
  - destruct (at_eol ml x); [|done]. by exists x, cap.
  - destruct (xorb _ _); [|done]. by exists x, cap.
Qed.

End Captures.

Lemma exec_from_match ml r rest : ∀ idx prev res,
  exec_from ml r idx prev rest = Some res →
  match_at ml r (Pos idx prev rest) = Some res ∨
  ∃ i c t, match_at ml r (Pos i (Some c) t) = Some res.
Proof.
  induction rest as [|c t IH]; intros idx prev res; simpl.
  - destruct (match_at ml r (Pos idx prev [])) eqn:E; [|done].
    intros [= <-]. by left.
  - destruct (match_at ml r (Pos idx prev (c :: t))) eqn:E.
    + intros [= <-]. by left.
    + intros [H|H]%IH; right; [by exists (S idx), c, t|done].
Qed.

Lemma exec_capture P n ml r x y c :
  cap_ok P n r → exec ml r x = Some (y, Some c) → n ≤ length c ∧ Forall P c.
Proof.
  intros Hr Hx. unfold exec in Hx.
  assert (∀ z, match_at ml r z = Some (y, Some c) → n ≤ length c ∧ Forall P c)
    as Hm.
  { intros z Hz. unfold match_at in Hz.
    apply (rmatch_capture P n ml r Hr) in Hz as (y' & cap' & Hcap & [= <- ->]);
      [by apply Hcap|done]. }
  apply exec_from_match in Hx as [Hx|(i & c0 & t & Hx)]; by eapply Hm.
Qed.

Lemma collect_Forall (Q : jsstring → Prop) (Qc : jsstring → Prop) ml r body :
  (∀ x y c, exec ml r x = Some (y, Some c) → Qc c) →
  (∀ c d d', Qc c → Forall Q d → body c d = Some d' → Forall Q d') →
  ∀ fuel x deps deps',
    Forall Q deps → collect fuel ml r body x deps = Some deps' → Forall Q deps'.
Proof.
  intros Hexec Hbody. induction fuel as [|fuel IH]; intros x deps deps' Hd; simpl.
  - destruct (exec ml r x) as [[y cap]|]; [done|]. by intros [= <-].
  - destruct (exec ml r x) as [[y [c|]]|] eqn:E; [| done |by intros [= <-]].
    destruct (body c deps) as [d1|] eqn:Eb; [|done]. simpl.
    apply IH. eapply Hbody; [|done|done]. by eapply Hexec.
Qed.

Lemma Forall_set_add (Q : jsstring → Prop) c d :
  Q c → Forall Q d → Forall Q (set_add c d).
Proof.
  intros Hc Hd. unfold set_add. case_bool_decide; [done|].
  apply Forall_app. split; [done|]. by apply Forall_singleton.
Qed.

(** *** The specifiers of the JavaScript scanner *)

Lemma js_cap_ok r0 r1 r2 :
  Forall (λ r, nocapb r = true) r0 → Forall (λ r, nocapb r = true) r2 →
  r1 = Cap (Plus JavaScript.not_quote_cls) →
  cap_ok not_quote 1 (seqs (r0 ++ r1 :: r2)).
Proof.
  intros H0 H2 ->. apply cap_ok_seqs. apply Forall_app. split.
  - eapply Forall_impl; [done|]. intros r. apply nocapb_cap_ok.
  - apply Forall_cons. split.
    + simpl. split; [|lia]. intros c Hc.
      apply negb_true_iff, orb_false_iff in Hc as [H1 H3].
      apply N.eqb_neq in H1, H3. by split.
    + eapply Forall_impl; [done|]. intros r. apply nocapb_cap_ok.
Qed.

Lemma js_patterns_cap_ok :
  Forall (cap_ok not_quote 1)
    [JavaScript.esImport; JavaScript.esExport; JavaScript.cjsRequire;
     JavaScript.dynamicImport].
Proof.
  repeat apply Forall_cons_2; [| | | |apply Forall_nil_2].
  - apply (js_cap_ok
      [JavaScript.stmt_start; Star JavaScript.space_cls; Lit "import";
       Plus JavaScript.space_cls; JavaScript.from_clause; JavaScript.quote_cls]
      _ [JavaScript.quote_cls]); [| |done];
      apply (bool_decide_unpack _); by vm_compute.
  - apply (js_cap_ok
      [JavaScript.stmt_start; Star JavaScript.space_cls; Lit "export";
       Plus JavaScript.space_cls; JavaScript.from_clause; JavaScript.quote_cls]
      _ [JavaScript.quote_cls]); [| |done];
      apply (bool_decide_unpack _); by vm_compute.
  - apply (js_cap_ok
      [Alt Bol (Cls (λ c, negb (N.eqb c (ch ".") || is_word c)));
       Lit "require"; Star JavaScript.space_cls; Chr "(";
       Star JavaScript.space_cls; JavaScript.quote_cls]
      _ [JavaScript.quote_cls; Star JavaScript.space_cls; Chr ")"]); [| |done];
      apply (bool_decide_unpack _); by vm_compute.
  - apply (js_cap_ok
      [WordB; Lit "import"; Star JavaScript.space_cls; Chr "(";
       Star JavaScript.space_cls; JavaScript.quote_cls]
      _ [JavaScript.quote_cls; Star JavaScript.space_cls; Chr ")"]); [| |done];
      apply (bool_decide_unpack _); by vm_compute.
Qed.

(** X11: the array [parse] returns for JavaScript and TypeScript holds
    each specifier once, and every specifier in it is a string that is not
    empty and holds neither a single nor a double quote. *)
Theorem js_specifiers_shape (source : jsstring) (deps : list jsstring) :
  JavaScript.parse source = Some deps →
  NoDup deps ∧ Forall (λ d, d ≠ [] ∧ Forall not_quote d) deps.
Proof.
  intros Hp. split; [by apply (parse_NoDup javascript source)|].
  unfold JavaScript.parse in Hp.
  destruct (JavaScript.stripComments source) as [stripped|]; [|done].
  simpl in Hp. unfold JavaScript.scan in Hp.
  pose proof js_patterns_cap_ok as Hok.
  apply Forall_cons in Hok as [Hok1 Hok]. apply Forall_cons in Hok as [Hok2 Hok].
  apply Forall_cons in Hok as [Hok3 Hok]. apply Forall_cons in Hok as [Hok4 _].
  assert (∀ r fuel x d d', cap_ok not_quote 1 r →
            Forall (λ d, d ≠ [] ∧ Forall not_quote d) d →
            collect fuel true r (λ c deps, Some (set_add c deps)) x d = Some d' →
            Forall (λ d, d ≠ [] ∧ Forall not_quote d) d') as Hcollect.
  { intros r fuel x d d' Hr.
    apply (collect_Forall _ (λ c, 1 ≤ length c ∧ Forall not_quote c)).
    - intros x0 y c. by apply exec_capture.
    - intros c d0 d1 [Hlen Hc] Hd0 [= <-]. apply Forall_set_add; [|done].
      split; [|done]. intros ->. simpl in Hlen. lia. }
  destruct (collect _ _ JavaScript.esImport _ _ _) as [d1|] eqn:E1; [|done].
  simpl in Hp.
  destruct (collect _ _ JavaScript.esExport _ _ _) as [d2|] eqn:E2; [|done].
  simpl in Hp.
  destruct (collect _ _ JavaScript.cjsRequire _ _ _) as [d3|] eqn:E3; [|done].
  simpl in Hp.
  apply Hcollect in E1; [|done|done].
  apply Hcollect in E2; [|done|done].
  apply Hcollect in E3; [|done|done].
  by apply Hcollect in Hp.
Qed.

Lemma js_specifiers_shape_witness :
  NoDup [str "./a"; str "b"] ∧
  Forall (λ d, d ≠ [] ∧ Forall not_quote d) [str "./a"; str "b"].
Proof.
  apply (js_specifiers_shape
           (str "import a from './a';" ++ newline ++ str "require('b')")).
  by vm_compute.
Defined.

(** *** The module names of the Python scanner *)

Lemma Forall_trim_start (P : N → Prop) s : Forall P s → Forall P (trim_start s).
Proof.
  induction 1 as [|c s Hc Hs IH]; [done|]. simpl.
  destruct (is_space c); [done|]. by constructor.
Qed.

Lemma Forall_trim (P : N → Prop) s : Forall P s → Forall P (trim s).
Proof.
  intros H. unfold trim. by apply Forall_rev, Forall_trim_start, Forall_rev,
    Forall_trim_start.
Qed.

Lemma py_fromPattern_cap_ok : cap_ok name_char 0 Python.fromPattern.
Proof.
  apply (cap_ok_seqs name_char 0
    [Bol; Star Python.blank_cls; Lit "from"; Plus Python.space_cls;
     Cap (Seq (Rep 0 (Some 3) true Python.dot_cls) (Star Python.name_cls));
     Plus Python.space_cls; Lit "import"; Python.space_cls]).
  repeat apply Forall_cons_2; try apply Forall_nil_2;
    try (apply nocapb_cap_ok; by vm_compute).
  unfold Python.dot_cls, Python.name_cls, Star. cbn [cap_ok all_cls].
  split; [|lia]. split.
  - intros c <-%N.eqb_eq. by vm_compute.
  - by intros c Hc.
Qed.

(** [/^[\w.]+$/.test(name)] holds only of names made of word characters
    and dots. *)
Lemma test_namePattern name :
  test Python.namePattern name = true → Forall name_char name.
Proof.
  unfold test. intros [res Hres]%bool_decide_eq_true.
  apply exec_from_match in Hres as [Hm|(i & c & t & Hm)].
  - change (match_at false Python.namePattern (Pos 0 None name)) with
      (rmatch false (Plus Python.name_cls) (Pos 0 None name) None
         (λ y cap', rmatch false Eol y cap' (λ y cap, Some (y, cap)))) in Hm.
    apply (rmatch_consumes name_char false (Plus Python.name_cls)) in Hm
      as (y & Hy & seg & Hs & _ & HP & _); [|by intros c Hc].
    simpl in Hy, Hs. unfold at_eol in Hy.
    destruct (p_rest y); [|done]. by rewrite Hs, app_nil_r.
  - by change (match_at false Python.namePattern (Pos i (Some c) t)) with
      (@None (pos * option jsstring)) in Hm.
Qed.

Lemma py_import_items_Forall ms : ∀ d d',
  Forall (λ d, d ≠ [] ∧ Forall name_char d) d →
  Python.import_items ms d = Some d' →
  Forall (λ d, d ≠ [] ∧ Forall name_char d) d'.
Proof.
  induction ms as [|m ms IH]; intros d d' Hd; simpl.
  - by intros [= <-].
  - destruct (Python.import_item m d) as [d1|] eqn:E; [|done]. simpl.
    apply IH. unfold Python.import_item in E.
    destruct (split_head Python.asPattern (trim m)) as [piece|]; [|done].
    simpl in E. injection E as <-.
    destruct (trim piece) as [|c name] eqn:En; [done|].
    destruct (test Python.namePattern (c :: name)) eqn:Et; [|done].
    apply Forall_set_add; [|done]. split; [done|]. by apply test_namePattern.
Qed.

(** X12: the array [parse] returns for Python holds each module name
    once, and every name in it is a string that is not empty and is made
    of word characters (ASCII letters, digits, underscore) and dots
    only. *)
Theorem py_names_shape (source : jsstring) (deps : list jsstring) :
  Python.parse source = Some deps →
  NoDup deps ∧ Forall (λ d, d ≠ [] ∧ Forall name_char d) deps.
Proof.
  intros Hp. split; [by apply (parse_NoDup python source)|].
  unfold Python.parse in Hp.
  destruct (Python.stripComments source) as [stripped|]; [|done].
  simpl in Hp. unfold Python.scan in Hp.
  destruct (collect _ _ Python.fromPattern _ _ _) as [d1|] eqn:E1; [|done].
  simpl in Hp.
  apply (collect_Forall (λ d, d ≠ [] ∧ Forall name_char d)
           (λ c, 0 ≤ length c ∧ Forall name_char c)) in E1.
  - apply (collect_Forall (λ d, d ≠ [] ∧ Forall name_char d) (λ _, True))
      in Hp; [done|done| |done].
    intros c d d' _ Hd. by apply py_import_items_Forall.
  - intros x y c. apply exec_capture. apply py_fromPattern_cap_ok.
  - intros c d d' [_ Hc] Hd. unfold Python.from_body. intros [= <-].
    destruct (trim c) as [|a m] eqn:Em; [done|].
    apply Forall_set_add; [|done]. split; [done|].
    rewrite <- Em. by apply Forall_trim.
  - done.
Qed.

Lemma py_names_shape_witness :
  NoDup [str ".utils"; str "os.path"; str "sys"] ∧
  Forall (λ d, d ≠ [] ∧ Forall name_char d)
         [str ".utils"; str "os.path"; str "sys"].
Proof.
  apply (py_names_shape
           (str "from .utils import helper" ++ newline ++
            str "import os.path as p, sys")).
  by vm_compute.
Defined.

(** *** What the Python scanner removes *)

Lemma py_strip_plain pre rest acc f :
  Forall py_plain_char pre →
  Python.strip_loop (length pre + f) (pre ++ rest) acc =
  Python.strip_loop f rest (acc ++ pre).
Proof.
  revert acc. induction pre as [|c pre IH]; intros acc HF.
  - by rewrite app_nil_r.
  - inversion HF as [|? ? (H1 & H2 & H3) HF']; subst.
    change (Python.strip_loop (length (c :: pre) + f) ((c :: pre) ++ rest) acc)
      with (let (o, r) := Python.strip_step c (pre ++ rest) in
            Python.strip_loop (length pre + f) r (acc ++ o)).
    unfold Python.strip_step.
    destruct (N.eqb_spec c dquote) as [|_]; [done|].
    destruct (N.eqb_spec c (ch "'")) as [|_]; [done|].
    destruct (N.eqb_spec c (ch "#")) as [|_]; [done|].
    simpl. rewrite IH by done. by rewrite <- app_assoc.
Qed.

Lemma py_skip_line_comment c post :
  10%N ∉ c → Python.skip_line (c ++ newline ++ post) = newline ++ post.
Proof.
  induction c as [|a c IH]; [done|]. rewrite not_elem_of_cons. intros [Ha Hc].
  simpl. destruct (N.eqb_spec a (ch "010")) as [->|_]; [done|]. by apply IH.
Qed.

Lemma take_3_app (c : jsstring) q rest :
  c ≠ [] → take 3 (c ++ q :: q :: q :: rest) = take 3 (c ++ [q; q]).
Proof.
  destruct c as [|a [|b [|d c]]]; done.
Qed.

Lemma py_skip_triple_close q c post :
  has_triple q (c ++ [q; q]) = false →
  Python.skip_triple q (c ++ [q; q; q] ++ post) = [q; q; q] ++ post.
Proof.
  induction c as [|a c IH]; intros Hc.
  - simpl. by rewrite bool_decide_eq_true_2.
  - change (has_triple q ((a :: c) ++ [q; q])) with
      (bool_decide (take 3 ((a :: c) ++ [q; q]) = [q; q; q]) ||
       has_triple q (c ++ [q; q])) in Hc.
    apply orb_false_iff in Hc as [Ha Hc].
    change (Python.skip_triple q ((a :: c) ++ [q; q; q] ++ post)) with
      (if bool_decide (take 3 ((a :: c) ++ q :: q :: q :: post) = [q; q; q])
       then (a :: c) ++ [q; q; q] ++ post
       else Python.skip_triple q (c ++ [q; q; q] ++ post)).
    rewrite take_3_app by done. rewrite Ha. by apply IH.
Qed.

(** X13: the Python scanner ignores comments.  After text without [#]
    and quotes, a comment that starts with [#] and runs to the end of its
    line has no part in the result of [parse]. *)
Theorem py_hash_comment_ignored (pre c post : jsstring) :
  Forall py_plain_char pre → 10%N ∉ c →
  Python.parse (pre ++ str "#" ++ c ++ newline ++ post) =
  Python.parse (pre ++ newline ++ post).
Proof.
  intros Hpre Hc. unfold Python.parse, Python.stripComments.
  set (s1 := pre ++ str "#" ++ c ++ newline ++ post).
  set (s2 := pre ++ newline ++ post).
  set (F := length pre + S (length (str "#" ++ c ++ newline ++ post))).
  rewrite (py_strip_loop_fuel (length s1) F s1) by
    (unfold s1, F; rewrite ?length_app; simpl; lia).
  rewrite (py_strip_loop_fuel (length s2) (length pre + length (newline ++ post)) s2)
    by (unfold s2; rewrite ?length_app; simpl; lia).
  unfold s1, s2, F. rewrite !py_strip_plain by done.
  change (Python.strip_loop (S (length (str "#" ++ c ++ newline ++ post)))
            (str "#" ++ c ++ newline ++ post) ([] ++ pre))
    with (Python.strip_loop (length (str "#" ++ c ++ newline ++ post))
            (Python.skip_line (c ++ newline ++ post)) (([] ++ pre) ++ [])).
  rewrite py_skip_line_comment by done. rewrite app_nil_r.
  f_equal. apply py_strip_loop_fuel; rewrite ?length_app; simpl; lia.
Qed.

Lemma py_hash_comment_ignored_witness :
  Python.parse (str "x = 1 " ++ str "#" ++ str " import fake" ++ newline ++
                str "import os") = Some [str "os"].
Proof.
  rewrite (py_hash_comment_ignored (str "x = 1 ") (str " import fake")
             (str "import os")).
  - by vm_compute.
  - apply (bool_decide_unpack _). by vm_compute.
  - apply (bool_decide_unpack _). by vm_compute.
Defined.

Lemma py_strip_loop_step f c t acc :
  Python.strip_loop (S f) (c :: t) acc =
  Python.strip_loop f (Python.strip_step c t).2 (acc ++ (Python.strip_step c t).1).
Proof. simpl. by destruct (Python.strip_step c t). Qed.

Lemma py_strip_step_docstring q c post :
  q = dquote ∨ q = ch "'" →
  has_triple q (c ++ [q; q]) = false →
  Python.strip_step q ([q; q] ++ c ++ [q; q; q] ++ post) =
  ([dquote; dquote], post).
Proof.
  intros Hq Hc. unfold Python.strip_step.
  assert (N.eqb q dquote || N.eqb q (ch "'") = true) as ->
    by (by destruct Hq as [-> | ->]).
  rewrite bool_decide_eq_true_2 by done. cbn [andb]. f_equal.
  change (drop 3 (q :: [q; q] ++ c ++ [q; q; q] ++ post)) with
    (c ++ [q; q; q] ++ post).
  by rewrite py_skip_triple_close.
Qed.

Lemma py_strip_step_empty_string post :
  head post ≠ Some dquote →
  Python.strip_step dquote (dquote :: post) = ([dquote; dquote], post).
Proof.
  intros Hp. unfold Python.strip_step.
  rewrite bool_decide_eq_false_2.
  - reflexivity.
  - destruct post as [|a post]; [done|]. simpl. intros [= ->]. done.
Qed.

(** X14: the Python scanner ignores docstrings.  After text without [#]
    and quotes, a string between triple quotes, single or double, counts
    as the empty string whatever it holds: [parse] returns what it returns
    when the string is replaced by two double quotes.  The text between
    the triple quotes is such that no three quotes in a row start in it,
    and the text after them does not start with a double quote. *)
Theorem py_docstring_ignored (q : N) (pre c post : jsstring) :
  Forall py_plain_char pre →
  q = dquote ∨ q = ch "'" →
  has_triple q (c ++ [q; q]) = false →
  head post ≠ Some dquote →
  Python.parse (pre ++ [q; q; q] ++ c ++ [q; q; q] ++ post) =
  Python.parse (pre ++ [dquote; dquote] ++ post).
Proof.
  intros Hpre Hq Hc Hpost. unfold Python.parse, Python.stripComments.
  set (s1 := pre ++ [q; q; q] ++ c ++ [q; q; q] ++ post).
  set (s2 := pre ++ [dquote; dquote] ++ post).
  set (n1 := length ([q; q] ++ c ++ [q; q; q] ++ post)).
  set (n2 := length (dquote :: post)).
  rewrite (py_strip_loop_fuel (length s1) (length pre + S n1) s1).
  2: done.
  2: { unfold s1, n1. rewrite !length_app. simpl. lia. }
  rewrite (py_strip_loop_fuel (length s2) (length pre + S n2) s2).
  2: done.
  2: { unfold s2, n2. rewrite !length_app. simpl. lia. }
  unfold s1, s2. rewrite !py_strip_plain by done.
  change ([q; q; q] ++ c ++ [q; q; q] ++ post) with
    (q :: [q; q] ++ c ++ [q; q; q] ++ post).
  change ([dquote; dquote] ++ post) with (dquote :: dquote :: post).
  rewrite !py_strip_loop_step.
  rewrite py_strip_step_docstring by done.
  rewrite py_strip_step_empty_string by done.
  cbn [fst snd]. f_equal.
  apply py_strip_loop_fuel; unfold n1, n2; rewrite ?length_app; simpl; lia.
Qed.

Lemma py_docstring_ignored_witness :
  Python.parse (str "x = " ++ [dquote; dquote; dquote] ++ str "import fake" ++
                [dquote; dquote; dquote] ++ newline ++ str "import os")
  = Some [str "os"].
Proof.
  rewrite (py_docstring_ignored dquote (str "x = ") (str "import fake")
             (newline ++ str "import os")).
  - by vm_compute.
  - apply (bool_decide_unpack _). by vm_compute.
  - by left.
  - by vm_compute.
  - by vm_compute.
Defined.

(** *** The JavaScript scanner only deletes *)

Lemma js_skip_line_suffix s : ∃ u, s = u ++ JavaScript.skip_line s.
Proof.
  induction s as [|c t [u Hu]]; [by exists []|]. simpl.
  destruct (N.eqb c (ch "010")); [by exists []|].
  exists (c :: u). simpl. by rewrite <- Hu.
Qed.

Lemma js_skip_block_suffix s : ∃ u, s = u ++ JavaScript.skip_block s.
Proof.
  induction s as [|c t [u Hu]]; [by exists []|].
  change (JavaScript.skip_block (c :: t)) with
    (match t with
     | d :: _ => if N.eqb c (ch "*") && N.eqb d (ch "/") then c :: t
                 else JavaScript.skip_block t
     | [] => JavaScript.skip_block t
     end).
  destruct t as [|d t].
  - exists [c]. done.
  - destruct (N.eqb c (ch "*") && N.eqb d (ch "/")); [by exists []|].
    exists (c :: u). rewrite <- app_comm_cons. by rewrite <- Hu.
Qed.

Lemma js_copy_literal_exact quote s :
  (JavaScript.copy_literal quote s).1 ++ (JavaScript.copy_literal quote s).2 = s.
Proof.
  assert (∀ n s, length s ≤ n →
    (JavaScript.copy_literal quote s).1 ++ (JavaScript.copy_literal quote s).2 = s)
    as H.
  { clear s. induction n as [|n IH]; intros s Hn.
    - destruct s; [done|simpl in Hn; lia].
    - destruct s as [|c t]; [done|]. simpl.
      destruct (N.eqb c quote); [done|].
      destruct (N.eqb c (ch "\")).
      + destruct t as [|d t']; [done|].
        specialize (IH t' ltac:(simpl in Hn; lia)).
        destruct (JavaScript.copy_literal quote t') as [o r]. simpl in *.
        by rewrite IH.
      + specialize (IH t ltac:(simpl in Hn; lia)).
        destruct (JavaScript.copy_literal quote t) as [o r]. simpl in *.
        by rewrite IH. }
  by apply (H (length s)).
Qed.

Lemma js_strip_step_sublist c t :
  ∃ u, c :: t = u ++ (JavaScript.strip_step c t).2 ∧
       (JavaScript.strip_step c t).1 `sublist_of` u.
Proof.
  unfold JavaScript.strip_step.
  destruct (_ && _).
  { cbn [fst snd]. destruct (js_skip_line_suffix (c :: t)) as [u Hu].
    exists u. split; [done|]. apply sublist_nil_l. }
  destruct (_ && _).
  { cbn [fst snd].
    destruct (js_skip_block_suffix (drop 2 (c :: t))) as [u Hu].
    exists (take 2 (c :: t) ++ u ++
            take 2 (JavaScript.skip_block (drop 2 (c :: t)))).
    split; [|apply sublist_nil_l].
    rewrite <- !app_assoc, take_drop, <- Hu. by rewrite take_drop. }
  destruct (_ || _); [|by exists [c]].
  pose proof (js_copy_literal_exact c t) as Ht.
  destruct (JavaScript.copy_literal c t) as [o r]. simpl in Ht.
  destruct r as [|d r]; simpl.
  - exists (c :: o ++ []). by rewrite <- Ht, !app_nil_r.
  - exists (c :: o ++ [d]). split; [|done].
    simpl. by rewrite <- app_assoc, <- Ht.
Qed.

Lemma js_strip_loop_sublist fuel : ∀ s acc out,
  JavaScript.strip_loop fuel s acc = Some out →
  ∃ out', out = acc ++ out' ∧ out' `sublist_of` s.
Proof.
  induction fuel as [|fuel IH]; intros s acc out.
  - destruct s; [|done]. intros [= <-]. exists []. by rewrite app_nil_r.
  - destruct s as [|c t].
    { intros [= <-]. exists []. by rewrite app_nil_r. }
    simpl. destruct (js_strip_step_sublist c t) as (u & Hu & Ho).
    destruct (JavaScript.strip_step c t) as [o r]. simpl in *.
    intros (out' & -> & Hout')%IH.
    exists (o ++ out'). split; [by rewrite app_assoc|].
    rewrite Hu. by apply sublist_app.
Qed.

(** X17: the JavaScript [stripComments] only deletes.  Its result is the
    source with some of its code units left out, the others in their
    order; so it is never longer than the source, and it has a quote only
    where the source has one. *)
Theorem js_stripComments_sublist (source stripped : jsstring) :
  JavaScript.stripComments source = Some stripped →
  stripped `sublist_of` source ∧ length stripped ≤ length source.
Proof.
  unfold JavaScript.stripComments.
  intros (out' & -> & Hs)%js_strip_loop_sublist. simpl.
  split; [done|]. by apply sublist_length.
Qed.

Lemma js_stripComments_sublist_witness :
  str "a = 1;  b = '//'; " `sublist_of` str "a = 1; /* x */ b = '//'; // y".
Proof.
  apply (js_stripComments_sublist (str "a = 1; /* x */ b = '//'; // y")).
  by vm_compute.
Defined.

(** *** A Python string that ends the text with a backslash *)

Lemma py_copy_literal_backslash q body :
  q ∉ body → ch "\" ∉ body → q ≠ ch "\" →
  Python.copy_literal q (body ++ [ch "\"]) =
  (body ++ ch "\" :: str "undefined", []).
Proof.
  intros Hq Hb Hne. induction body as [|c body IH].
  - cbn [app Python.copy_literal].
    destruct (N.eqb_spec (ch "\") q) as [E|_]; [by rewrite E in Hne|].
    by rewrite N.eqb_refl.
  - apply not_elem_of_cons in Hq as [Hcq Hq].
    apply not_elem_of_cons in Hb as [Hcb Hb].
    rewrite <- app_comm_cons. cbn [Python.copy_literal].
    destruct (N.eqb_spec c q) as [E|_]; [by rewrite E in Hcq|].
    destruct (N.eqb_spec c (ch "\")) as [E|_]; [by rewrite E in Hcb|].
    by rewrite IH.
Qed.

(** X18: a missing guard of the Python [stripComments].  When the text
    ends inside a string, after text without [#] and quotes, with a
    backslash as its last character, the string being opened by one quote
    and holding no quote of that kind and no other backslash, the result
    is the source followed by the nine letters of [undefined]: the
    character after the backslash is read beyond the end of the text. *)
Theorem py_strip_trailing_backslash (q : N) (pre body : jsstring) :
  Forall py_plain_char pre →
  q = dquote ∨ q = ch "'" →
  q ∉ body → ch "\" ∉ body →
  Python.stripComments (pre ++ q :: body ++ [ch "\"]) =
  Some (pre ++ q :: body ++ ch "\" :: str "undefined").
Proof.
  intros Hpre Hq Hqb Hbb. unfold Python.stripComments.
  rewrite (py_strip_loop_fuel _ (length pre + S (length (body ++ [ch "\"]))) _ []).
  2: done.
  2: { rewrite length_app. simpl. lia. }
  rewrite py_strip_plain by done.
  rewrite py_strip_loop_step.
  assert (Python.strip_step q (body ++ [ch "\"]) =
          (q :: body ++ ch "\" :: str "undefined", [])) as ->.
  { unfold Python.strip_step.
    rewrite bool_decide_eq_false_2.
    - rewrite andb_false_r.
      assert (N.eqb q (ch "#") = false) as -> by (by destruct Hq as [-> | ->]).
      assert (N.eqb q dquote || N.eqb q (ch "'") = true) as ->
        by (by destruct Hq as [-> | ->]).
      rewrite py_copy_literal_backslash; [|done|done|by destruct Hq as [-> | ->]].
      simpl. by rewrite app_nil_r.
    - destruct body as [|c body].
      + simpl. by intros [= E].
      + simpl. intros [= E _]. apply Hqb. rewrite E. by left. }
  cbn [fst snd]. by destruct (length (body ++ [ch "\"])).
Qed.

Lemma py_strip_trailing_backslash_witness :
  Python.stripComments (str "s = " ++ dquote :: str "abc" ++ [ch "\"]) =
  Some (str "s = " ++ dquote :: str "abc" ++ ch "\" :: str "undefined").
Proof.
  apply py_strip_trailing_backslash.
  - apply (bool_decide_unpack _). by vm_compute.
  - by left.
  - apply (bool_decide_unpack _). by vm_compute.
  - apply (bool_decide_unpack _). by vm_compute.
Defined.

(** *** Entry discovery *)

Section DiscoverProofs.

Variable js : JSValues.
Variable fs : FileSystem.

Local Abbreviation step :=
  (λ (s : list (js_value js)) v, if bool_decide (v ∈ s) then s else s ++ [v]).

Lemma elem_of_set_loop l : ∀ s v, v ∈ foldl step s l ↔ v ∈ s ∨ v ∈ l.
Proof.
  induction l as [|x l IH]; intros s v; simpl.
  - rewrite elem_of_nil. first [tauto | intuition congruence].
  - rewrite IH, elem_of_cons. case_bool_decide as Hx.
    + first [tauto | intuition congruence].
    + rewrite elem_of_app, list_elem_of_singleton. first [tauto | intuition congruence].
Qed.

Lemma NoDup_set_loop l : ∀ s, NoDup s → NoDup (foldl step s l).
Proof.
  induction l as [|x l IH]; intros s Hs; simpl; [done|].
  apply IH. case_bool_decide as Hx; [done|].
  apply NoDup_app. split_and!; [done| |apply NoDup_singleton].
  by intros y Hy ->%list_elem_of_singleton.
Qed.

Lemma set_loop_fresh l : ∀ s,
  NoDup l → (∀ v, v ∈ l → v ∉ s) → foldl step s l = s ++ l.
Proof.
  induction l as [|x l IH]; intros s Hl Hs; simpl.
  - by rewrite app_nil_r.
  - apply NoDup_cons in Hl as [Hx Hl].
    rewrite bool_decide_eq_false_2 by (apply Hs; by left).
    rewrite IH; [by rewrite <- app_assoc|done|].
    intros v Hv [Hin| ->%list_elem_of_singleton]%elem_of_app; [|done].
    by apply (Hs v); [right|].
Qed.

Lemma filter_ext_elem {B} (P Q : B → Prop)
    `{∀ x, Decision (P x)} `{∀ x, Decision (Q x)} (l : list B) :
  (∀ x, x ∈ l → (P x ↔ Q x)) → filter P l = filter Q l.
Proof.
  induction l as [|x l IH]; intros Hl; [done|].
  rewrite !filter_cons.
  assert (P x ↔ Q x) as Hx by (apply Hl; by left).
  rewrite IH by (intros y Hy; apply Hl; by right).
  destruct (decide (P x)), (decide (Q x)); first [tauto | intuition congruence].
Qed.

Lemma add_common_loop rootDir l : ∀ acc,
  NoDup l →
  foldl (add_common js fs rootDir) acc l =
  acc ++ map (js_of_string js)
           (filter (λ e, existsSync fs (Path.join [rootDir; e]) = true ∧
                         js_of_string js e ∉ acc) l).
Proof.
  induction l as [|e l IH]; intros acc Hl.
  - by rewrite app_nil_r.
  - apply NoDup_cons in Hl as [He Hl]. cbn [foldl].
    rewrite IH by done.
    destruct (decide (existsSync fs (Path.join [rootDir; e]) = true ∧
                      js_of_string js e ∉ acc)) as [[Hex Hn]|Hno].
    + assert (add_common js fs rootDir acc e = acc ++ [js_of_string js e]) as ->.
      { unfold add_common. rewrite Hex. by rewrite bool_decide_eq_false_2. }
      rewrite filter_cons, decide_True by done. cbn [map].
      rewrite <- app_assoc. cbn [app]. do 3 f_equal.
      apply filter_ext_elem. intros x Hx.
      rewrite elem_of_app, list_elem_of_singleton. split.
      * intros [? Hn']. split; [done|]. intros ?. apply Hn'. by left.
      * intros [? Hn']. split; [done|]. intros [?|Heq]; [done|].
        apply js_of_string_inj in Heq. by subst.
    + assert (add_common js fs rootDir acc e = acc) as ->.
      { unfold add_common.
        destruct (existsSync fs (Path.join [rootDir; e])) eqn:Hex; [|done].
        case_bool_decide; [done|]. by destruct Hno. }
      by rewrite filter_cons, decide_False.
Qed.

Lemma commonEntries_NoDup : NoDup commonEntries.
Proof. apply (bool_decide_unpack _). by vm_compute. Qed.

(** The closed form of [discoverEntries]: the distinct values of the
    manifest, then the common entry files that exist and are not among
    them. *)
Lemma discoverEntries_closed rootDir :
  discoverEntries js fs rootDir =
  set_of js (manifest js fs rootDir) ++
  map (js_of_string js)
      (filter (λ e, existsSync fs (Path.join [rootDir; e]) = true ∧
                    js_of_string js e ∉ manifest js fs rootDir) commonEntries).
Proof.
  unfold discoverEntries. cbv zeta.
  rewrite add_common_loop by apply commonEntries_NoDup.
  unfold set_of. rewrite foldl_app.
  apply set_loop_fresh.
  - apply NoDup_fmap_2.
    + intros a b. apply js_of_string_inj.
    + apply NoDup_filter, commonEntries_NoDup.
  - intros v (e & -> & He)%list_elem_of_fmap.
    apply list_elem_of_filter in He as [[_ Hn] _].
    rewrite elem_of_set_loop. intros [?%elem_of_nil|?]; done.
Qed.

End DiscoverProofs.

(** X19: what [discoverEntries] returns.  The result has no value twice.
    It holds exactly the values that the block on [package.json] pushed,
    whether their files exist or not, and the common entry files that
    exist under the root; the values of the manifest come first. *)
Theorem discoverEntries_result (js : JSValues) (fs : FileSystem)
    (rootDir : jsstring) :
  NoDup (discoverEntries js fs rootDir) ∧
  (∀ v, v ∈ discoverEntries js fs rootDir ↔
        v ∈ manifest js fs rootDir ∨
        ∃ e, e ∈ commonEntries ∧
             existsSync fs (Path.join [rootDir; e]) = true ∧
             v = js_of_string js e) ∧
  ∃ found, discoverEntries js fs rootDir =
           set_of js (manifest js fs rootDir) ++ found ∧
           ∀ v, v ∈ found → v ∉ manifest js fs rootDir.
Proof.
  split_and!.
  - unfold discoverEntries, set_of. apply NoDup_set_loop. constructor.
  - intros v. rewrite discoverEntries_closed, elem_of_app.
    unfold set_of. rewrite elem_of_set_loop, elem_of_nil.
    rewrite list_elem_of_fmap. split.
    + intros [[?|?]|(e & -> & He)]; [done|by left|].
      apply list_elem_of_filter in He as [[Hex _] He]. right. by exists e.
    + intros [Hv|(e & He & Hex & ->)]; [left; by right|].
      destruct (decide (js_of_string js e ∈ manifest js fs rootDir)) as [Hin|Hn].
      * left. by right.
      * right. exists e. split; [done|]. by apply list_elem_of_filter.
  - eexists. split; [apply discoverEntries_closed|].
    intros v (e & -> & He)%list_elem_of_fmap.
    by apply list_elem_of_filter in He as [[_ Hn] _].
Qed.

(** X20: no [package.json] is not an error, and neither is a bad one.
    When the file does not exist, cannot be read, is not JSON, or is the
    JSON of [null], [discoverEntries] returns the common entry files that
    exist under the root, in the order of its list, and nothing else. *)
Theorem discoverEntries_without_manifest (js : JSValues) (fs : FileSystem)
    (rootDir : jsstring) :
  let pkgPath := Path.join [rootDir; str "package.json"] in
  existsSync fs pkgPath = false ∨
  readFileSync fs pkgPath = None ∨
  (∃ text, readFileSync fs pkgPath = Some text ∧
           (JSON_parse js text = None ∨
            ∃ pkg, JSON_parse js text = Some pkg ∧
                   js_get js pkg (str "main") = None)) →
  discoverEntries js fs rootDir =
  map (js_of_string js) (existing_common fs rootDir).
Proof.
  intros pkgPath H.
  assert (manifest js fs rootDir = []) as Hm.
  { unfold manifest. fold pkgPath.
    destruct H as [->|H]; [done|].
    destruct (existsSync fs pkgPath); [|done]. unfold manifest_entries.
    destruct H as [->|(text & -> & [->|(pkg & -> & ->)])]; done. }
  rewrite discoverEntries_closed, Hm. cbn [app]. unfold set_of. cbn [foldl app].
  f_equal. unfold existing_common. apply filter_ext_elem.
  intros e _. split; [by intros [? _]|]. intros ?. split; [done|].
  apply not_elem_of_nil.
Qed.

Lemma discoverEntries_without_manifest_witness :
  discoverEntries js_manifests fs_broken (str "/p") =
  map (js_of_string js_manifests) [str "index.js"; str "main.py"].
Proof.
  rewrite (discoverEntries_without_manifest js_manifests fs_broken (str "/p")).
  - by vm_compute.
  - right. right. exists (str "{"). split; [by vm_compute|].
    left. by vm_compute.
Defined.

(** The tests of [discoverEntries] (tests/graph.test.js). *)
Example test_discover_main :
  VField (FString (str "src/index.js"))
  ∈ discoverEntries js_manifests fs_main (str "/p").
Proof. apply (bool_decide_unpack _). by vm_compute. Qed.

Example test_discover_bin :
  VField (FString (str "src/cli.js"))
  ∈ discoverEntries js_manifests fs_bin (str "/p").
Proof. apply (bool_decide_unpack _). by vm_compute. Qed.

Example test_discover_common :
  discoverEntries js_manifests fs_common (str "/p")
  = [VField (FString (str "index.js"))].
Proof. by vm_compute. Qed.

(** *** A file that cannot be read *)

(** X21: [buildGraph] does not catch a failed read.  When the file of
    the first entry exists and has a recognized extension but cannot be
    read, as a directory named like a script, the call throws, whatever
    the other entries and the options. *)
Theorem buildGraph_unreadable_entry (fs : FileSystem) (cwd : jsstring)
    (opts : Options) (e : jsstring) (entries : list jsstring) (fuel : nat) :
  existsSync fs (entry_file cwd opts e) = true →
  is_Some (detectLanguage (entry_file cwd opts e)) →
  readFileSync fs (entry_file cwd opts e) = None →
  buildGraph fs cwd (S fuel) (e :: entries) opts = Throws.
Proof.
  intros Hex [lang Hlang] Hread. unfold buildGraph.
  cbn [loop init queue map]. fold (entry_file cwd opts e).
  unfold visit. cbn [file depth visited set_queue].
  rewrite bool_decide_eq_false_2 by apply not_elem_of_empty.
  rewrite Hex, Hlang. cbn [negb]. unfold scan_file. by rewrite Hread.
Qed.

Lemma buildGraph_unreadable_entry_witness :
  buildGraph fs_directory_entry (str "/") 1 [str "a.js"; str "b.js"] opts_p
  = Throws.
Proof.
  apply buildGraph_unreadable_entry.
  - by vm_compute.
  - eexists. by vm_compute.
  - by vm_compute.
Defined.

(** *** The order of the traversal *)

Section Order.

Variable fs : FileSystem.
Variable cwd : jsstring.
Variable opts : Options.

Lemma StronglySorted_app_le (l1 l2 : list nat) :
  StronglySorted le l1 → StronglySorted le l2 →
  (∀ a b, a ∈ l1 → b ∈ l2 → a ≤ b) →
  StronglySorted le (l1 ++ l2).
Proof.
  induction 1 as [|a l1 Hl1 IH Ha]; intros Hl2 Hle; [done|].
  simpl. constructor.
  - apply IH; [done|]. intros x y Hx Hy. apply Hle; [by right|done].
  - apply Forall_app. split; [done|].
    apply Forall_forall. intros b Hb. apply Hle; [by left|done].
Qed.

Lemma StronglySorted_same (d : nat) (l : list nat) :
  Forall (λ x, x = d) l → StronglySorted le l.
Proof.
  induction 1 as [|a l -> Hl IH]; constructor; [done|].
  eapply Forall_impl; [done|]. intros x ->. done.
Qed.

Lemma visit_bfs_queue d item q st st' :
  bfs_queue d (item :: q) →
  visit fs cwd opts item (set_queue q st) = Some st' →
  d ≤ depth item ∧ bfs_queue (depth item) (queue st').
Proof.
  intros [Hsorted Hrange] Hvisit.
  apply Forall_cons in Hrange as [Hitem Hrange].
  simpl in Hsorted. apply StronglySorted_inv in Hsorted as [Hsq Hhead].
  split; [lia|].
  assert (bfs_queue (depth item) q) as Hq.
  { split; [done|]. apply Forall_forall. intros i Hi.
    eapply (proj1 (Forall_forall _ _)) in Hrange; [|done].
    eapply (proj1 (Forall_forall _ _)) in Hhead;
      [|apply list_elem_of_fmap; by exists i].
    lia. }
  apply visit_queue_growth in Hvisit as (pushes & Hqueue & Hpushes).
  simpl in Hqueue. rewrite Hqueue.
  assert (Forall (λ i, depth i = depth item + 1) pushes) as Hp.
  { apply Forall_forall. intros i Hi.
    destruct (Hpushes i Hi) as (_ & lang & dep & r & _ & _ & _ & _ & ->). done. }
  destruct Hq as [Hqs Hqr]. split.
  - rewrite map_app. apply StronglySorted_app_le; [done| |].
    + apply (StronglySorted_same (depth item + 1)).
      apply Forall_fmap. eapply Forall_impl; [done|]. intros i Hi. exact Hi.
    + intros a b (i & -> & Hi)%list_elem_of_fmap (j & -> & Hj)%list_elem_of_fmap.
      eapply (proj1 (Forall_forall _ _)) in Hqr; [|done].
      eapply (proj1 (Forall_forall _ _)) in Hp; [|done].
      simpl in *. lia.
  - apply Forall_app. split; [done|].
    eapply Forall_impl; [done|]. intros i ->. simpl. lia.
Qed.

Lemma dequeued_sorted fuel : ∀ d st,
  bfs_queue d (queue st) →
  StronglySorted le (map depth (dequeued fs cwd opts fuel st)) ∧
  Forall (λ i, d ≤ depth i) (dequeued fs cwd opts fuel st).
Proof.
  induction fuel as [|fuel IH]; intros d st Hq; simpl.
  { destruct (queue st); split; constructor. }
  destruct (queue st) as [|item q] eqn:Hqueue; [split; constructor|].
  destruct (visit fs cwd opts item (set_queue q st)) as [st'|] eqn:Hv.
  - apply (visit_bfs_queue d) in Hv as [Hd Hq']; [|done].
    destruct (IH _ _ Hq') as [Hs Hf]. split.
    + simpl. constructor; [done|]. by apply Forall_fmap.
    + constructor; [done|]. eapply Forall_impl; [done|]. simpl. lia.
  - destruct Hq as [_ Hr]. apply Forall_cons in Hr as [Hi _].
    split; simpl; repeat constructor. lia.
Qed.

End Order.

(** X22: the traversal is breadth-first.  The depths of the items that
    the loop of [buildGraph] takes from its queue never decrease from one
    iteration to the next, starting with the entries at depth 0: a file
    is dequeued only after every item of a smaller depth. *)
Theorem traversal_breadth_first (fs : FileSystem) (cwd : jsstring)
    (opts : Options) (entries : list jsstring) (fuel : nat) :
  StronglySorted le
    (map depth (dequeued fs cwd opts fuel (init cwd entries opts))).
Proof.
  apply (dequeued_sorted fs cwd opts fuel 0). simpl. split.
  - apply (StronglySorted_same 0). apply Forall_fmap, Forall_fmap.
    by apply Forall_forall.
  - apply Forall_fmap, Forall_forall. intros e _. simpl. lia.
Qed.

(** *** The identifiers of the DOT output *)

Lemma escape_quotes_head s :
  head (escape_quotes s) ≠ Some dquote.
Proof.
  destruct s as [|c s]; [done|]. unfold escape_quotes. cbn [flat_map].
  destruct (N.eqb_spec c dquote) as [->|Hc]; [done|]. simpl. by intros [= ->].
Qed.

Lemma escape_quotes_inj a : ∀ b,
  escape_quotes a = escape_quotes b → a = b.
Proof.
  induction a as [|x a IH]; intros [|y b].
  - done.
  - unfold escape_quotes. cbn [flat_map].
    by destruct (N.eqb y dquote).
  - unfold escape_quotes. cbn [flat_map].
    by destruct (N.eqb x dquote).
  - change (escape_quotes (x :: a)) with
      ((if N.eqb x dquote then [ch "\"; dquote] else [x]) ++ escape_quotes a).
    change (escape_quotes (y :: b)) with
      ((if N.eqb y dquote then [ch "\"; dquote] else [y]) ++ escape_quotes b).
    destruct (N.eqb_spec x dquote) as [->|Hx], (N.eqb_spec y dquote) as [->|Hy].
    + intros [= E]. by rewrite (IH b E).
    + intros [= _ E]. exfalso.
      apply (escape_quotes_head b). by rewrite <- E.
    + intros [= _ E]. exfalso.
      apply (escape_quotes_head a). by rewrite E.
    + intros [= -> E]. by rewrite (IH b E).
Qed.

(** X23: [dotId] is injective as a function on strings: it gives two
    strings the same text exactly when they are the same string.  This
    is about the text that [dotId] returns, a backslash being copied as
    it is, and not about the way a reader of DOT takes that text. *)
Theorem dotId_injective (a b : jsstring) : dotId a = dotId b ↔ a = b.
Proof.
  split; [|by intros ->].
  unfold dotId. intros [= E]. apply app_inj_tail in E as [E _].
  by apply escape_quotes_inj.
Qed.

(** *** The tree of a graph with cycles *)

Section TreeProofs.

Variable color : bool.
Variable g : Graph.

Local Abbreviation N_ := (tree_targets g).

Lemma render_each_ok
    (rend : jsstring → jsstring → bool → bool → TreeState → option TreeState)
    (n : nat) nextPrefix children :
  (∀ p prefix isLast isRoot st,
     p ∈ N_ → size (N_ ∖ t_visited st) ≤ n →
     ∃ st', rend p prefix isLast isRoot st = Some st' ∧
            t_visited st ⊆ t_visited st') →
  ∀ st, Forall (λ e, to e ∈ N_) children →
        size (N_ ∖ t_visited st) ≤ n →
        ∃ st', render_each rend nextPrefix children st = Some st' ∧
               t_visited st ⊆ t_visited st'.
Proof.
  intros Hrend. induction children as [|e cs IH]; intros st Hcs Hn.
  - by exists st.
  - apply Forall_cons in Hcs as [He Hcs]. cbn [render_each].
    destruct (Hrend (to e) nextPrefix (bool_decide (cs = [])) false st He Hn)
      as (st1 & -> & Hsub1). simpl.
    destruct (IH st1 Hcs) as (st2 & -> & Hsub2).
    + etrans; [|exact Hn]. apply subseteq_size. set_solver.
    + exists st2. split; [done|]. set_solver.
Qed.

Lemma children_targets p :
  Forall (λ e, to e ∈ N_) (filter (λ e, type e = local) (adj_get g p)).
Proof.
  apply Forall_forall. intros e [Hl He]%list_elem_of_filter.
  apply list_elem_of_filter in He as [_ He].
  unfold tree_targets. apply elem_of_list_to_set, list_elem_of_fmap.
  exists e. split; [done|]. by apply list_elem_of_filter.
Qed.

Lemma render_ok n : ∀ fuel p prefix isLast isRoot st,
  p ∈ N_ → size (N_ ∖ t_visited st) ≤ n → n < fuel →
  ∃ st', render color g fuel p prefix isLast isRoot st = Some st' ∧
         t_visited st ⊆ t_visited st'.
Proof.
  assert (∀ (b : bool) (s1 s2 : TreeState) (V : gset jsstring),
            t_visited s1 = V → t_visited s2 = V →
            ∃ st', Some (if b then s1 else s2) = Some st' ∧ V ⊆ t_visited st')
    as Hseen.
  { intros b s1 s2 V H1 H2. eexists. split; [done|].
    destruct b; [rewrite H1|rewrite H2]; reflexivity. }
  induction n as [|n IH]; intros fuel p prefix isLast isRoot st Hp Hn Hfuel.
  - destruct fuel as [|fuel]; [lia|]. cbn [render]. cbv zeta.
    cbn [push_line t_visited].
    rewrite bool_decide_eq_true_2; [by apply Hseen|].
    destruct (decide (p ∈ t_visited st)) as [|Hnin]; [done|].
    assert (size (N_ ∖ t_visited st) ≠ 0); [|lia].
    apply size_non_empty_iff. set_solver.
  - destruct fuel as [|fuel]; [lia|]. cbn [render]. cbv zeta.
    cbn [push_line t_visited t_lines].
    case_bool_decide as Hin; [by apply Hseen|].
    match goal with
    | |- ∃ st', render_each _ ?np ?cs ?s0 = Some st' ∧ _ =>
        destruct (render_each_ok (render color g fuel) n np cs) with (st := s0)
          as (st' & Hst' & Hsub)
    end.
    + intros p0 prefix0 l0 r0 st0 Hp0 Hn0. apply IH; [done|done|lia].
    + apply children_targets.
    + cbn [t_visited].
      assert (size (N_ ∖ ({[p]} ∪ t_visited st)) < size (N_ ∖ t_visited st));
        [|lia].
      apply subset_size. set_solver.
    + exists st'. split; [done|]. cbn [t_visited] in Hsub. set_solver.
Qed.

(** A root need not be a target. *)
Lemma render_root_ok fuel p prefix isLast isRoot st :
  size N_ + 2 ≤ fuel →
  ∃ st', render color g fuel p prefix isLast isRoot st = Some st'.
Proof.
  intros Hfuel. destruct fuel as [|fuel]; [lia|]. cbn [render]. cbv zeta.
  cbn [push_line t_visited t_lines].
  case_bool_decide as Hin; [by eexists|].
  match goal with
  | |- ∃ st', render_each _ ?np ?cs ?s0 = Some st' =>
      destruct (render_each_ok (render color g fuel) (size N_) np cs)
        with (st := s0) as (st' & Hst' & _)
  end.
  - intros p0 prefix0 l0 r0 st0 Hp0 Hn0.
    apply (render_ok (size N_)); [done|done|lia].
  - apply children_targets.
  - apply subseteq_size. set_solver.
  - by exists st'.
Qed.

Lemma render_each_mono
    (rend rend' : jsstring → jsstring → bool → bool → TreeState → option TreeState)
    nextPrefix children :
  (∀ p prefix isLast isRoot st st',
     rend p prefix isLast isRoot st = Some st' →
     rend' p prefix isLast isRoot st = Some st') →
  ∀ st st', render_each rend nextPrefix children st = Some st' →
            render_each rend' nextPrefix children st = Some st'.
Proof.
  intros Hrend. induction children as [|e cs IH]; intros st st'; [done|].
  cbn [render_each].
  destruct (rend (to e) nextPrefix (bool_decide (cs = [])) false st) as [st1|]
    eqn:E; [|done].
  rewrite (Hrend _ _ _ _ _ _ E). simpl. apply IH.
Qed.

Lemma render_mono fuel : ∀ fuel' p prefix isLast isRoot st st',
  fuel ≤ fuel' →
  render color g fuel p prefix isLast isRoot st = Some st' →
  render color g fuel' p prefix isLast isRoot st = Some st'.
Proof.
  induction fuel as [|fuel IH]; intros fuel' p prefix isLast isRoot st st' Hle;
    [done|].
  destruct fuel' as [|fuel']; [lia|]. cbn [render]. cbv zeta.
  destruct (bool_decide _); [done|].
  apply render_each_mono. intros p0 prefix0 l0 r0 st0 st1. apply IH. lia.
Qed.

Lemma render_roots_ok fuel rs : ∀ first st,
  size N_ + 2 ≤ fuel →
  ∃ st', ∀ fuel', fuel ≤ fuel' →
    render_roots color g fuel' first rs st = Some st'.
Proof.
  induction rs as [|r rs IH]; intros first st Hfuel.
  - by exists st.
  - cbn [render_roots]. cbv zeta.
    destruct (render_root_ok fuel r [] (bool_decide (rs = [])) true
                (if first then st else push_line [] st) Hfuel) as [st1 Hst1].
    destruct (IH false st1 Hfuel) as [st2 Hst2].
    exists st2. intros fuel' Hle.
    rewrite (render_mono fuel fuel' _ _ _ _ _ _ Hle Hst1). simpl.
    by apply Hst2.
Qed.

Lemma size_tree_targets : size N_ ≤ length (g_edges g).
Proof.
  unfold tree_targets.
  assert (∀ l : list jsstring, size (list_to_set (C:=gset jsstring) l) ≤ length l)
    as Hsize.
  { induction l as [|x l IHl].
    - rewrite list_to_set_nil, size_empty. simpl. lia.
    - rewrite list_to_set_cons, size_union_alt, size_singleton. cbn [length].
      assert (size (list_to_set (C:=gset jsstring) l ∖ {[x]})
              ≤ size (list_to_set (C:=gset jsstring) l))
        by (apply subseteq_size; set_solver).
      lia. }
  etrans; [apply Hsize|]. rewrite length_map. apply length_filter.
Qed.

End TreeProofs.

(** X24: [formatTree] ends on every graph, also one with cycles.  The
    recursion of [render] is never deeper than the number of edges plus
    two, whatever the edges are: with that much fuel or more the model
    returns a text, and always the same one. *)
Theorem formatTree_terminates (color : bool) (g : Graph) :
  ∃ text, ∀ fuel, length (g_edges g) + 2 ≤ fuel →
    formatTree color g fuel = Some text.
Proof.
  destruct (render_roots_ok color g (length (g_edges g) + 2) (roots g) true
              {| t_visited := ∅; t_lines := [] |}) as [st Hst].
  { pose proof (size_tree_targets g). lia. }
  eexists. intros fuel Hfuel. unfold formatTree. rewrite (Hst fuel Hfuel).
  reflexivity.
Qed.

(** The tree of two scripts that require each other: no root, so the
    first node is taken, and its second occurrence is marked. *)
Example test_tree_cycle :
  formatTree false graph_cycle 4 =
  Some (join_with newline
          [str "a.js"; corner ++ str "b.js";
           str "    " ++ corner ++ str "a.js";
           str "        (circular)"; [];
           str "2 files, 2 local deps"]).
Proof. by vm_compute. Qed.

(** *** The size of the tree *)

Section TreeSize.

Variable color : bool.
Variable g : Graph.

Lemma unexpanded_split (p : jsstring) (V : gset jsstring) :
  p ∉ V →
  length (unexpanded g V) =
  length (unexpanded g ({[p]} ∪ V)) +
  length (filter (λ e, type e = local) (adj_get g p)).
Proof.
  intros Hp. unfold unexpanded, adj_get, local_edges.
  induction (g_edges g) as [|e l IH]; [done|].
  rewrite !filter_cons.
  destruct (decide (type e = local)) as [Hl|Hl];
    destruct (decide (from e = p)) as [He|He]; rewrite ?filter_cons;
    repeat match goal with
           | |- context [decide ?P] => destruct (decide P)
           end;
    simpl; try lia; exfalso; set_solver.
Qed.

Lemma render_each_paid
    (rend : jsstring → jsstring → bool → bool → TreeState → option TreeState)
    nextPrefix children :
  (∀ p prefix isLast isRoot st st',
     rend p prefix isLast isRoot st = Some st' → paid g st st' 1) →
  ∀ st st', render_each rend nextPrefix children st = Some st' →
            paid g st st' (length children).
Proof.
  intros Hrend. induction children as [|e cs IH]; intros st st'.
  - intros [= <-]. unfold paid. simpl. lia.
  - cbn [render_each].
    destruct (rend (to e) nextPrefix (bool_decide (cs = [])) false st) as [st1|]
      eqn:E; [|done].
    simpl. intros H. apply IH in H. apply Hrend in E.
    unfold paid in *. simpl. lia.
Qed.

Lemma render_paid fuel : ∀ p prefix isLast isRoot st st',
  render color g fuel p prefix isLast isRoot st = Some st' → paid g st st' 1.
Proof.
  induction fuel as [|fuel IH]; intros p prefix isLast isRoot st st'; [done|].
  cbn [render]. cbv zeta. cbn [push_line t_visited t_lines].
  case_bool_decide as Hin.
  - intros [= <-]. unfold paid.
    destruct (adj_has g p); cbn [push_line t_visited t_lines];
      rewrite !length_app; simpl; lia.
  - intros H. apply (render_each_paid _ _ _ (IH)) in H.
    unfold paid in *. cbn [t_visited t_lines] in H.
    rewrite length_app in H. simpl in H.
    rewrite (unexpanded_split p (t_visited st) Hin). lia.
Qed.

Lemma render_roots_paid fuel rs : ∀ first st st',
  render_roots color g fuel first rs st = Some st' →
  length (t_lines st') + 2 * length (unexpanded g (t_visited st')) ≤
  length (t_lines st) + 3 * length rs +
  2 * length (unexpanded g (t_visited st)).
Proof.
  induction rs as [|r rs IH]; intros first st st'.
  - intros [= <-]. simpl. lia.
  - cbn [render_roots]. cbv zeta.
    destruct (render color g fuel r [] (bool_decide (rs = [])) true
                (if first then st else push_line [] st)) as [st1|] eqn:E;
      [|done].
    simpl. intros H. apply IH in H. apply render_paid in E. unfold paid in E.
    destruct first; cbn [push_line t_visited t_lines] in E;
      rewrite ?length_app in E; simpl in *; lia.
Qed.

End TreeSize.

(** X25: the array [lines] of [formatTree] is linear in the size of the
    graph: when [formatTree] returns, its text is the join of the array
    [lines], and that array has at most three elements for each root, two
    for each local edge and four of summary. *)
Theorem formatTree_linear (color : bool) (g : Graph) (fuel : nat)
    (text : jsstring) :
  formatTree color g fuel = Some text →
  ∃ lines, tree_lines color g fuel = Some lines ∧
           text = join_with newline lines ∧
           length lines ≤
           3 * length (roots g) + 2 * length (local_edges g) + 4.
Proof.
  unfold formatTree, tree_lines.
  destruct (render_roots color g fuel true (roots g) _) as [st|] eqn:E; [|done].
  simpl. intros [= <-]. eexists. split; [done|]. split; [done|].
  apply render_roots_paid in E. cbn [t_visited t_lines length] in E.
  assert (length (unexpanded g ∅) ≤ length (local_edges g)) as Hu
    by apply length_filter.
  assert (length (summary color g) ≤ 4) as Hs.
  { unfold summary. rewrite !length_app.
    destruct (g_externals g), (g_unresolved g); simpl; lia. }
  rewrite length_app. lia.
Qed.

Lemma formatTree_linear_witness :
  ∃ lines, tree_lines false graph_cycle 4 = Some lines ∧
           join_with newline
             [str "a.js"; corner ++ str "b.js";
              str "    " ++ corner ++ str "a.js";
              str "        (circular)"; [];
              str "2 files, 2 local deps"] = join_with newline lines ∧
           length lines ≤
           3 * length (roots graph_cycle) +
           2 * length (local_edges graph_cycle) + 4.
Proof.
  apply (formatTree_linear false graph_cycle 4). by vm_compute.
Defined.

(** *** The files within the depth bound *)

Section Levels.

Variable fs : FileSystem.
Variable cwd : jsstring.
Variable opts : Options.
Variable entries : list jsstring.
Hypothesis cwd_absolute : Path.isAbsolute cwd = true.
Hypothesis entries_normalized :
  ∀ e, e ∈ entries → Path.isAbsolute e = true → normalized cwd e.

Lemma pending_at_step vd vd' st st' f k :
  visited st ⊆ visited st' →
  (∀ p, p ∈ visited st → vd' p = vd p) →
  (∀ i, i ∈ queue st →
        i ∈ queue st' ∨
        (relPath_of cwd opts (file i) ∈ visited st' ∧
         vd' (relPath_of cwd opts (file i)) ≤ depth i)) →
  pending_at cwd opts vd st f k → pending_at cwd opts vd' st' f k.
Proof.
  intros Hv Hvd Hq [[Hf Hk]|(i & Hi & <- & Hk)].
  - left. split; [by apply Hv|]. by rewrite Hvd.
  - destruct (Hq i Hi) as [?|[? ?]]; [right; by exists i|left].
    split; [done|lia].
Qed.

Lemma expanded_at_step vd vd' st st' f :
  visited st ⊆ visited st' →
  (∀ p, p ∈ visited st → vd' p = vd p) →
  (∀ i, i ∈ queue st →
        i ∈ queue st' ∨
        (relPath_of cwd opts (file i) ∈ visited st' ∧
         vd' (relPath_of cwd opts (file i)) ≤ depth i)) →
  (∀ p, p ∈ node_paths st → p ∈ node_paths st') →
  relPath_of cwd opts f ∈ visited st →
  expanded_at fs cwd opts vd st f → expanded_at fs cwd opts vd' st' f.
Proof.
  intros Hv Hvd Hq Hn Hf [Hns|[Hnode Hdeps]]; [by left|right].
  split; [by apply Hn|]. rewrite (Hvd _ Hf).
  intros Hlt lang source deps dep r H1 H2 H3 H4 H5 H6.
  eapply pending_at_step; [done|done|done|]. by eapply Hdeps.
Qed.

Lemma level_inv_step vd vd' d d' st st' :
  visited st ⊆ visited st' →
  (∀ p, p ∈ visited st → vd' p = vd p) →
  (∀ i, i ∈ queue st →
        i ∈ queue st' ∨
        (relPath_of cwd opts (file i) ∈ visited st' ∧
         vd' (relPath_of cwd opts (file i)) ≤ depth i)) →
  (∀ p, p ∈ node_paths st → p ∈ node_paths st') →
  bfs_queue d' (queue st') →
  (∀ p, p ∈ visited st' → vd' p ≤ d') →
  (∀ i, i ∈ queue st' → normalized cwd (file i)) →
  (∀ p, p ∈ visited st' → p ∉ visited st →
        ∃ f, normalized cwd f ∧ relPath_of cwd opts f = p ∧
             expanded_at fs cwd opts vd' st' f) →
  level_inv fs cwd opts entries vd d st →
  level_inv fs cwd opts entries vd' d' st'.
Proof.
  intros Hv Hvd Hq Hn Hbfs Hd Hnorm Hnew [_ _ _ Hent Hvis].
  split; [done|done|done| |].
  - intros e He. eapply pending_at_step; [done|done|done|]. by apply Hent.
  - intros p Hp. destruct (decide (p ∈ visited st)) as [Hin|Hnin].
    + destruct (Hvis p Hin) as (f & Hf & Hfp & Hex). exists f.
      split_and!; [done|done|].
      eapply expanded_at_step; [done|done|done|done| |done]. by rewrite Hfp.
    + by apply Hnew.
Qed.

Lemma init_level_inv :
  level_inv fs cwd opts entries (λ _, 0) 0 (init cwd entries opts).
Proof.
  split; simpl.
  - split.
    + apply (StronglySorted_same 0). apply Forall_fmap, Forall_fmap.
      by apply Forall_forall.
    + apply Forall_fmap, Forall_forall. intros e _. simpl. lia.
  - by intros p ?%elem_of_empty.
  - intros i (e & -> & He)%list_elem_of_fmap. simpl.
    by apply (entry_file_normalized cwd opts entries cwd_absolute
                entries_normalized).
  - intros e He. right. exists (Build_Item (entry_file cwd opts e) 0).
    split_and!; [|done|done]. apply list_elem_of_fmap. by exists e.
  - by intros p ?%elem_of_empty.
Qed.

Lemma visit_level_inv vd d item q st st' :
  level_inv fs cwd opts entries vd d st →
  queue st = item :: q →
  visit fs cwd opts item (set_queue q st) = Some st' →
  ∃ vd', level_inv fs cwd opts entries vd' (depth item) st'.
Proof.
  intros Hinv Hqueue Hvisit. pose proof Hinv as [Hbfs Hdep Hnorm _ _].
  rewrite Hqueue in Hbfs.
  destruct (visit_bfs_queue fs cwd opts d item q st st' Hbfs Hvisit)
    as [Hd Hbfs'].
  assert (normalized cwd (file item)) as Hitem.
  { apply Hnorm. rewrite Hqueue. apply elem_of_cons. by left. }
  assert (∀ i, i ∈ q → normalized cwd (file i)) as Hnq.
  { intros i Hi. apply Hnorm. rewrite Hqueue. apply elem_of_cons. by right. }
  set (vd' := λ p, if bool_decide (p = (relPath_of cwd opts (file item))) then depth item else vd p).
  assert (∀ p, p ≠ (relPath_of cwd opts (file item)) → vd' p = vd p) as Hvd_other.
  { intros p Hp. unfold vd'. by rewrite bool_decide_eq_false_2. }
  assert (vd' (relPath_of cwd opts (file item)) = depth item) as Hvd_p0.
  { unfold vd'. by rewrite bool_decide_eq_true_2. }
  apply visit_cases in Hvisit as [Hin ->|Hnin Hskip ->|
    lang source deps Hnin Hex Hlang Hread Hparse ->]; simpl in *.
  - exists vd. apply (level_inv_step vd vd d (depth item) st); simpl; try done.
    + intros i. rewrite Hqueue.
      intros [->|Hi]%elem_of_cons; [right|by left].
      split; [done|]. specialize (Hdep _ Hin). lia.
    + intros p Hp. specialize (Hdep _ Hp). lia.
  - exists vd'. apply (level_inv_step vd vd' d (depth item) st); simpl; try done.
    + apply union_subseteq_r.
    + intros p Hp. apply Hvd_other. by intros ->.
    + intros i. rewrite Hqueue. intros [->|Hi]%elem_of_cons; [right|by left].
      rewrite Hvd_p0. split; [|done].
      apply elem_of_union. left. by apply elem_of_singleton.
    + intros p [->%elem_of_singleton|Hp]%elem_of_union; [by rewrite Hvd_p0|].
      rewrite Hvd_other by (by intros ->). specialize (Hdep _ Hp). lia.
    + intros p [->%elem_of_singleton|Hp]%elem_of_union; [|done]. intros _.
      exists (file item). split_and!; [done|done|]. by left.
  - set (node := Build_Node (relPath_of cwd opts (file item)) lang (length deps)).
    destruct (process_deps_effect fs cwd opts lang (relPath_of cwd opts (file item)) (file item)
                (depth item) deps
                (set_node (relPath_of cwd opts (file item)) node (add_visited (relPath_of cwd opts (file item)) (set_queue q st))))
      as (Hnodes & Hvis & _ & Hqueue' & _).
    simpl in *.
    exists vd'. apply (level_inv_step vd vd' d (depth item) st); try done.
    + rewrite Hvis. apply union_subseteq_r.
    + intros p Hp. apply Hvd_other. by intros ->.
    + rewrite Hvis, Hqueue', Hqueue.
      intros i [->|Hi]%elem_of_cons.
      * right. rewrite Hvd_p0. split; [|done].
        apply elem_of_union. left. by apply elem_of_singleton.
      * left. apply elem_of_app. by left.
    + unfold node_paths. rewrite Hnodes. intros p Hp.
      apply map_set_paths; [done|]. by right.
    + rewrite Hvis.
      intros p [->%elem_of_singleton|Hp]%elem_of_union; [by rewrite Hvd_p0|].
      rewrite Hvd_other by (by intros ->). specialize (Hdep _ Hp). lia.
    + rewrite Hqueue'. intros i [Hi|Hi]%elem_of_app; [by apply Hnq|].
      apply elem_of_flat_map in Hi as (dep & Hdep' & Hi).
      apply dep_pushes_resolved in Hi as (r & _ & _ & _ & ->). simpl.
      by apply resolve_idem.
    + rewrite Hvis.
      intros p [->%elem_of_singleton|Hp]%elem_of_union; [|done]. intros _.
      exists (file item). split_and!; [done|done|]. right. split.
      * unfold node_paths. rewrite Hnodes. apply map_set_paths; [done|].
        by left.
      * rewrite Hvd_p0.
        intros Hlt lang' source' deps' dep r Hl' Hr' Hp' Hdep' Hc Hres.
        rewrite Hlang in Hl'. injection Hl' as <-.
        rewrite Hread in Hr'. injection Hr' as <-.
        rewrite Hparse in Hp'. injection Hp' as <-.
        right. exists (Build_Item (Path.resolve cwd [rootDir opts; r])
                                  (depth item + 1)).
        split_and!; [|done|done]. rewrite Hqueue'. apply elem_of_app. right.
        apply elem_of_flat_map. exists dep. split; [done|].
        unfold dep_pushes. rewrite Hc, Hres, Hlt.
        by apply list_elem_of_singleton.
Qed.

Lemma reachable_in_visited vd d st :
  level_inv fs cwd opts entries vd d st → queue st = [] →
  ∀ n f, reachable_in fs cwd opts entries n f →
    within (maxDepth opts) n →
    normalized cwd f ∧ relPath_of cwd opts f ∈ visited st ∧
    vd (relPath_of cwd opts f) ≤ n ∧ expanded_at fs cwd opts vd st f.
Proof.
  intros [_ _ _ Hent Hvis] Hq.
  assert (∀ f k, pending_at cwd opts vd st f k →
                 relPath_of cwd opts f ∈ visited st ∧
                 vd (relPath_of cwd opts f) ≤ k) as Hpend.
  { intros f0 k [?|(i & Hi & _)]; [done|]. rewrite Hq in Hi.
    by apply elem_of_nil in Hi. }
  assert (∀ f, normalized cwd f → relPath_of cwd opts f ∈ visited st →
               expanded_at fs cwd opts vd st f) as Hexp.
  { intros f0 Hf0 Hv0. destruct (Hvis _ Hv0) as (f1 & Hf1 & Heq & He1).
    by rewrite <- (relPath_of_inj cwd opts cwd_absolute f1 f0 Hf1 Hf0 Heq). }
  induction 1 as [e He|n f lang source deps dep r Hreach IH Hex Hl Hr Hp Hd Hc Hres];
    intros Hw.
  - pose proof (entry_file_normalized cwd opts entries cwd_absolute
                  entries_normalized e He) as Hn.
    destruct (Hpend _ _ (Hent e He)) as [Hv Hk]. auto.
  - assert (within (maxDepth opts) n) as Hw'.
    { unfold within in *. destruct (maxDepth opts); [lia|done]. }
    destruct (IH Hw') as (Hnf & Hvf & Hdf & [[Hne|Hne]|[_ Hdeps]]).
    + by rewrite Hex in Hne.
    + by rewrite Hl in Hne.
    + assert (normalized cwd (Path.resolve cwd [rootDir opts; r])) as Hn
        by by apply resolve_idem.
      assert (depth_lt (vd (relPath_of cwd opts f)) (maxDepth opts) = true)
        as Hlt.
      { unfold depth_lt, within in *. destruct (maxDepth opts) as [m|]; [|done].
        apply Nat.ltb_lt. lia. }
      destruct (Hpend _ _ (Hdeps Hlt lang source deps dep r Hl Hr Hp Hd Hc Hres))
        as [Hv Hk].
      split_and!; [done|done|lia|by apply Hexp].
Qed.

End Levels.

(** X26: [maxDepth] cuts by the shortest way.  When the working
    directory is absolute and the absolute entries are in normal form,
    every file that some chain of at most [maxDepth] local imports that
    resolve reaches from an entry, and that exists and has a recognized
    language, has a node in the graph, also when a longer chain reaches
    it first in the sources; without a bound, every reachable file. *)
Theorem nodes_up_to_depth (fs : FileSystem) (cwd : jsstring) (opts : Options)
    (entries : list jsstring) (fuel : nat) (g : Graph) :
  Path.isAbsolute cwd = true →
  (∀ e, e ∈ entries → Path.isAbsolute e = true → normalized cwd e) →
  buildGraph fs cwd fuel entries opts = Returns g →
  ∀ n f, reachable_in fs cwd opts entries n f →
         within (maxDepth opts) n →
         existsSync fs f = true → is_Some (detectLanguage f) →
         relPath_of cwd opts f ∈ map path (g_nodes g).
Proof.
  intros Hc He (st & Hloop & ->)%buildGraph_Returns n f Hreach Hw Hex [lang Hl].
  apply (loop_invariant fs cwd opts
           (λ st, ∃ vd d, level_inv fs cwd opts entries vd d st)) in Hloop
    as [(vd & d & Hinv) Hq].
  - destruct (reachable_in_visited fs cwd opts entries Hc He vd d st Hinv Hq
                n f Hreach Hw) as (_ & _ & _ & [[Hne|Hne]|[Hnode _]]).
    + by rewrite Hex in Hne.
    + by rewrite Hl in Hne.
    + done.
  - intros item q st0 st1 (vd & d & Hinv) Hq Hv.
    destruct (visit_level_inv fs cwd opts entries Hc vd d item q st0 st1
                Hinv Hq Hv) as [vd' Hinv'].
    by exists vd', (depth item).
  - exists (λ _, 0), 0. by apply init_level_inv.
Qed.

Lemma nodes_up_to_depth_witness :
  ∃ g, buildGraph fs_diamond (str "/") 5 [str "a.js"] opts_depth1 = Returns g ∧
       relPath_of (str "/") opts_depth1 (str "/p/c.js") ∈ map path (g_nodes g).
Proof.
  eexists. split; [by vm_compute|].
  apply (nodes_up_to_depth fs_diamond (str "/") opts_depth1 [str "a.js"] 5 _
           ltac:(by vm_compute)) with (n := 1);
    try first [by vm_compute | by eexists; vm_compute].
  - intros e ->%list_elem_of_singleton. by vm_compute.
  - change (str "/p/c.js") with
      (Path.resolve (str "/") [rootDir opts_depth1; str "c.js"]).
    eapply (reach_in_import fs_diamond (str "/") opts_depth1 [str "a.js"] 0
              (str "/p/a.js") javascript _ _ (str "./c"));
      try first [by vm_compute | apply (bool_decide_unpack _); by vm_compute].
    change (str "/p/a.js") with
      (entry_file (str "/") opts_depth1 (str "a.js")).
    apply reach_in_entry. by apply list_elem_of_singleton.
Defined.

(** *** The JavaScript scanner keeps string literals *)

Lemma js_strip_loop_acc fuel : ∀ s acc,
  JavaScript.strip_loop fuel s acc =
  (λ out, acc ++ out) <$> JavaScript.strip_loop fuel s [].
Proof.
  induction fuel as [|fuel IH]; intros s acc.
  - destruct s; simpl; [by rewrite app_nil_r|done].
  - destruct s as [|c t]; simpl; [by rewrite app_nil_r|].
    destruct (JavaScript.strip_step c t) as [o r].
    rewrite (IH r (acc ++ o)), (IH r o).
    destruct (JavaScript.strip_loop fuel r []) as [out|]; simpl; [|done].
    by rewrite <- app_assoc.
Qed.

Lemma js_copy_literal_body q body post :
  q ∉ body → ch "\" ∉ body →
  JavaScript.copy_literal q (body ++ q :: post) = (body, q :: post).
Proof.
  intros Hq Hb. induction body as [|c body IH].
  - cbn [app JavaScript.copy_literal]. by rewrite N.eqb_refl.
  - apply not_elem_of_cons in Hq as [Hcq Hq].
    apply not_elem_of_cons in Hb as [Hcb Hb].
    rewrite <- app_comm_cons. cbn [JavaScript.copy_literal].
    destruct (N.eqb_spec c q) as [E|_]; [by rewrite E in Hcq|].
    destruct (N.eqb_spec c (ch "\")) as [E|_]; [by rewrite E in Hcb|].
    by rewrite IH.
Qed.

(** X27: the JavaScript [stripComments] keeps string literals as they
    are.  After text without slash, quote and backquote, a literal
    between two quotes of one kind (single, double or backquote) that
    holds no such quote and no backslash is copied whole, comment marks
    included, and the text after it is stripped on its own. *)
Theorem js_string_preserved (q : N) (pre body post : jsstring) :
  Forall plain_char pre →
  q = ch "'" ∨ q = dquote ∨ q = ch "`" →
  q ∉ body → ch "\" ∉ body →
  JavaScript.stripComments (pre ++ q :: body ++ q :: post) =
  (λ rest, pre ++ q :: body ++ q :: rest) <$> JavaScript.stripComments post.
Proof.
  intros Hpre Hq Hqb Hbb. unfold JavaScript.stripComments.
  set (n := length (body ++ q :: post)).
  rewrite (js_strip_loop_fuel _ (length pre + S n) _ []).
  2: done.
  2: { unfold n. rewrite !length_app. simpl. rewrite length_app. simpl. lia. }
  rewrite js_strip_plain by done.
  assert (JavaScript.strip_step q (body ++ q :: post) = (q :: body ++ [q], post))
    as Hstep.
  { unfold JavaScript.strip_step.
    assert (N.eqb q (ch "/") = false) as ->
      by (by destruct Hq as [-> | [-> | ->]]).
    cbn [andb].
    assert (N.eqb q (ch "`") || N.eqb q dquote || N.eqb q (ch "'") = true) as ->
      by (by destruct Hq as [-> | [-> | ->]]).
    by rewrite js_copy_literal_body. }
  cbn [JavaScript.strip_loop]. rewrite Hstep.
  rewrite js_strip_loop_acc.
  rewrite (js_strip_loop_fuel n (length post) post []).
  - destruct (JavaScript.strip_loop (length post) post []) as [rest|]; [|done].
    simpl. f_equal. rewrite <- app_assoc. simpl. by rewrite <- app_assoc.
  - unfold n. rewrite length_app. simpl. lia.
  - done.
Qed.

Lemma js_string_preserved_witness :
  JavaScript.stripComments
    (str "var s = " ++ ch "'" :: str "// kept" ++ ch "'" :: str "; // dropped")
  = Some (str "var s = " ++ ch "'" :: str "// kept" ++ ch "'" :: str "; ").
Proof.
  rewrite (js_string_preserved (ch "'") (str "var s = ") (str "// kept")
             (str "; // dropped")).
  - by vm_compute.
  - apply (bool_decide_unpack _). by vm_compute.
  - by left.
  - apply (bool_decide_unpack _). by vm_compute.
  - apply (bool_decide_unpack _). by vm_compute.
Defined.


(** *** Raising the depth bound *)

Lemma reachable_in_with_depth fs cwd opts entries m n f :
  reachable_in fs cwd opts entries n f →
  reachable_in fs cwd (with_depth m opts) entries n f.
Proof.
  induction 1 as [e He|n f lang source deps dep r Hreach IH Hex Hl Hr Hp Hd Hc Hres].
  - by apply (reach_in_entry fs cwd (with_depth m opts) entries e).
  - by apply (reach_in_import fs cwd (with_depth m opts) entries n f lang
                source deps dep r).
Qed.

(** X28: raising [maxDepth] never loses a node.  When the working
    directory is absolute and the absolute entries are in normal form,
    every node of the graph built with a bound on the depth is a node of
    the graph built with a bound that allows at least the same depths, or
    with no bound. *)
Theorem nodes_monotone_in_depth (fs : FileSystem) (cwd : jsstring)
    (opts : Options) (m : option nat) (entries : list jsstring)
    (fuel fuel' : nat) (g g' : Graph) :
  Path.isAbsolute cwd = true →
  (∀ e, e ∈ entries → Path.isAbsolute e = true → normalized cwd e) →
  (∀ d, within (maxDepth opts) d → within m d) →
  buildGraph fs cwd fuel entries opts = Returns g →
  buildGraph fs cwd fuel' entries (with_depth m opts) = Returns g' →
  ∀ n, n ∈ g_nodes g → path n ∈ map path (g_nodes g').
Proof.
  intros Hc He Hm (st & Hloop & ->)%buildGraph_Returns
    (st' & Hloop' & ->)%buildGraph_Returns n Hn.
  apply (loop_invariant fs cwd opts (depth_inv fs cwd opts entries)) in Hloop
    as [[_ Hnodes] _].
  2: { intros item q st0 st1 Hinv Hq Hv. by eapply visit_depth_inv. }
  2: apply init_depth_inv.
  destruct (Hnodes n Hn) as (f & d & Hw & Hr & Hp & Hex & Hl).
  apply (loop_invariant fs cwd (with_depth m opts)
           (λ st, ∃ vd d, level_inv fs cwd (with_depth m opts) entries vd d st))
    in Hloop' as [(vd & d' & Hinv) Hq].
  - destruct (reachable_in_visited fs cwd (with_depth m opts) entries Hc He
                vd d' st' Hinv Hq d f (reachable_in_with_depth _ _ _ _ m _ _ Hr)
                (Hm d Hw)) as (_ & _ & _ & [[Hne|Hne]|[Hnode _]]).
    + by rewrite Hex in Hne.
    + by rewrite Hl in Hne.
    + rewrite <- Hp. exact Hnode.
  - intros item q st0 st1 (vd & d0 & Hinv) Hq Hv.
    destruct (visit_level_inv fs cwd (with_depth m opts) entries Hc vd d0 item q
                st0 st1 Hinv Hq Hv) as [vd' Hinv'].
    by exists vd', (depth item).
  - exists (λ _, 0), 0. by apply init_level_inv.
Qed.

Lemma nodes_monotone_in_depth_witness :
  ∃ g g', buildGraph fs_chain (str "/") 3 [str "a.js"] opts_depth1 = Returns g ∧
          buildGraph fs_chain (str "/") 3 [str "a.js"] (with_depth None opts_depth1)
            = Returns g' ∧
          ∀ n, n ∈ g_nodes g → path n ∈ map path (g_nodes g').
Proof.
  eexists _, _. split; [by vm_compute|]. split; [by vm_compute|].
  apply (nodes_monotone_in_depth fs_chain (str "/") opts_depth1 None
           [str "a.js"] 3 3); try by vm_compute.
  intros e ->%list_elem_of_singleton. by vm_compute.
Defined.
